(** * proxychannel: the request dispatcher, the request transport, the
    forwarders and the byte pump of the intercepting proxy, embedded in Rocq.

    Go strings and byte slices are [string] (one [ascii] per byte), an
    [http.Header] is a finite map from keys to value lists, the per-request
    [Context] is a record, and the handlers are programs of a small state
    monad over a [World] that holds the context, the sockets and the log of
    everything the proxy did. *)

From Stdlib Require Import ZArith List String Ascii Bool Lia.
From stdpp Require Import base option list strings gmap.

Local Open Scope string_scope.
Local Open Scope Z_scope.

(** ** Go's [strings] package, on byte strings

    A Go string is a sequence of bytes and the functions below that look at
    runes read them off the UTF-8 encoding, as Go does. *)
Module GoStrings.

Definition toLower (c : ascii) : ascii :=
  let n := nat_of_ascii c in
  if ((65 <=? n)%nat && (n <=? 90)%nat) then ascii_of_nat (n + 32) else c.

(** [strings.Split(s, sep)] for a one-byte separator. *)
Fixpoint Split (s : string) (sep : ascii) : list string :=
  match s with
  | EmptyString => [EmptyString]
  | String c s' =>
      if Ascii.eqb c sep then EmptyString :: Split s' sep
      else match Split s' sep with
           | [] => [String c EmptyString]
           | f :: fs => String c f :: fs
           end
  end.

(** [unicode.IsSpace], read off the encoding.  The white-space runes are
    U+0009 to U+000D and U+0020, of one byte; U+0085 and U+00A0, of the two
    bytes C2 85 and C2 A0; U+1680 (E1 9A 80), U+2000 to U+200A (E2 80 80 to
    E2 80 8A), U+2028, U+2029 and U+202F (E2 80 A8, E2 80 A9, E2 80 AF),
    U+205F (E2 81 9F) and U+3000 (E3 80 80), of three bytes. *)
Definition isSpace1 (a : ascii) : bool :=
  let n := nat_of_ascii a in
  ((9 <=? n)%nat && (n <=? 13)%nat) || (n =? 32)%nat.

Definition isSpace2 (a b : ascii) : bool :=
  let n := nat_of_ascii a in
  let m := nat_of_ascii b in
  (n =? 194)%nat && ((m =? 133)%nat || (m =? 160)%nat).

Definition isSpace3 (a b c : ascii) : bool :=
  let n := nat_of_ascii a in
  let m := nat_of_ascii b in
  let k := nat_of_ascii c in
  ((n =? 225)%nat && (m =? 154)%nat && (k =? 128)%nat) ||
  ((n =? 226)%nat && (m =? 128)%nat &&
   (((128 <=? k)%nat && (k <=? 138)%nat) ||
    (k =? 168)%nat || (k =? 169)%nat || (k =? 175)%nat)) ||
  ((n =? 226)%nat && (m =? 129)%nat && (k =? 159)%nat) ||
  ((n =? 227)%nat && (m =? 128)%nat && (k =? 128)%nat).

(** [strings.TrimLeftFunc(s, unicode.IsSpace)]: the runes are decoded from
    the left, and the first one that is not white space stays, with all
    that follows it.  A byte that starts no well-formed rune decodes to
    U+FFFD, which is not white space. *)
Fixpoint TrimLeft (s : string) : string :=
  match s with
  | EmptyString => EmptyString
  | String a s1 =>
      if isSpace1 a then TrimLeft s1
      else
        match s1 with
        | EmptyString => s
        | String b s2 =>
            if isSpace2 a b then TrimLeft s2
            else
              match s2 with
              | EmptyString => s
              | String c s3 => if isSpace3 a b c then TrimLeft s3 else s
              end
        end
  end.

(** The bytes of a string, last one first. *)
Fixpoint reverse (s : string) : string :=
  match s with
  | EmptyString => EmptyString
  | String c s' => reverse s' ++ String c EmptyString
  end.

(** The same on a string that is read from its end: [c] is the last byte,
    [b] the one before it and [a] the one before that. *)
Fixpoint TrimLeftReversed (s : string) : string :=
  match s with
  | EmptyString => EmptyString
  | String c s1 =>
      if isSpace1 c then TrimLeftReversed s1
      else
        match s1 with
        | EmptyString => s
        | String b s2 =>
            if isSpace2 b c then TrimLeftReversed s2
            else
              match s2 with
              | EmptyString => s
              | String a s3 => if isSpace3 a b c then TrimLeftReversed s3 else s
              end
        end
  end.

(** [strings.TrimRightFunc(s, unicode.IsSpace)]: the runes are decoded from
    the end ([utf8.DecodeLastRuneInString]), and the last one that is not
    white space stays, with all that comes before it. *)
Definition TrimRight (s : string) : string :=
  reverse (TrimLeftReversed (reverse s)).

(** [strings.TrimSpace]: white space is taken off the left, then off the
    right. *)
Definition TrimSpace (s : string) : string := TrimRight (TrimLeft s).

Definition isASCII (c : ascii) : bool := (nat_of_ascii c <? 128)%nat.

(** The runes beyond ASCII that [unicode.SimpleFold] puts in the orbit of an
    ASCII letter: the long s, U+017F (C5 BF), with s and S, and the Kelvin
    sign, U+212A (E2 84 AA), with k and K. *)
Definition isLongS (a b : ascii) : bool :=
  (nat_of_ascii a =? 197)%nat && (nat_of_ascii b =? 191)%nat.

Definition isKelvin (a b c : ascii) : bool :=
  (nat_of_ascii a =? 226)%nat && (nat_of_ascii b =? 132)%nat &&
  (nat_of_ascii c =? 170)%nat.

(** [strings.EqualFold(s, t)] for an [s] of ASCII bytes, which is how the
    program calls it (with "upgrade" and with "websocket").  A byte of [s]
    is matched by the same byte of [t], or by the letter of the other case;
    s and S are also matched by the long s, and k and K by the Kelvin sign.
    Any other rune of [t] beyond ASCII, U+FFFD included, matches no ASCII
    byte. *)
Fixpoint EqualFold (s t : string) : bool :=
  match s, t with
  | EmptyString, EmptyString => true
  | String a s', String b t1 =>
      if isASCII b then Ascii.eqb (toLower a) (toLower b) && EqualFold s' t1
      else
        match t1 with
        | EmptyString => false
        | String b2 t2 =>
            if isLongS b b2
            then Ascii.eqb (toLower a) "s"%char && EqualFold s' t2
            else
              match t2 with
              | EmptyString => false
              | String b3 t3 =>
                  isKelvin b b2 b3 && Ascii.eqb (toLower a) "k"%char &&
                  EqualFold s' t3
              end
        end
  | _, _ => false
  end.

End GoStrings.

(** ** [encoding/base64], the standard alphabet with padding *)
Module Base64.

Definition alphabet : string :=
  "ABCDEFGHIJKLMNOPQRSTUVWXYZabcdefghijklmnopqrstuvwxyz0123456789+/".

Definition digit (n : N) : ascii :=
  match String.get (N.to_nat n) alphabet with Some c => c | None => "="%char end.

Definition code (c : ascii) : N := N_of_ascii c.

Fixpoint EncodeToString (s : string) : string :=
  match s with
  | EmptyString => EmptyString
  | String a EmptyString =>
      let n := (code a * 65536)%N in
      String (digit (n / 262144)) (String (digit ((n / 4096) mod 64)) "==")
  | String a (String b EmptyString) =>
      let n := (code a * 65536 + code b * 256)%N in
      String (digit (n / 262144)) (String (digit ((n / 4096) mod 64))
        (String (digit ((n / 64) mod 64)) "="))
  | String a (String b (String c rest)) =>
      let n := (code a * 65536 + code b * 256 + code c)%N in
      String (digit (n / 262144)) (String (digit ((n / 4096) mod 64))
        (String (digit ((n / 64) mod 64)) (String (digit (n mod 64))
           (EncodeToString rest))))
  end.

End Base64.

(** ** [net/http] headers *)

Definition validHeaderFieldByte (c : ascii) : bool :=
  let n := nat_of_ascii c in
  ((48 <=? n) && (n <=? 57))%nat || ((65 <=? n) && (n <=? 90))%nat ||
  ((97 <=? n) && (n <=? 122))%nat ||
  existsb (Nat.eqb n) [33; 35; 36; 37; 38; 39; 42; 43; 45; 46; 94; 95; 96; 124; 126]%nat.

Fixpoint allValid (s : string) : bool :=
  match s with
  | EmptyString => true
  | String c s' => validHeaderFieldByte c && allValid s'
  end.

(** The second loop of [canonicalMIMEHeaderKey]: upper case at the start and
    after each dash, lower case elsewhere. *)
Fixpoint canonicalise (upper : bool) (s : string) : string :=
  match s with
  | EmptyString => EmptyString
  | String c s' =>
      let n := nat_of_ascii c in
      let c' :=
        if upper && (97 <=? n)%nat && (n <=? 122)%nat then ascii_of_nat (n - 32)
        else if negb upper && (65 <=? n)%nat && (n <=? 90)%nat then ascii_of_nat (n + 32)
        else c in
      String c' (canonicalise (Ascii.eqb c' "-"%char) s')
  end.

(** [textproto.CanonicalMIMEHeaderKey]: a key with a byte that is not a token
    byte is returned unchanged. *)
Definition CanonicalMIMEHeaderKey (s : string) : string :=
  if allValid s then canonicalise true s else s.

(** [http.Header] is [map[string][]string]. *)
Abbreviation Header := (gmap string (list string)).

Definition Header_values (h : Header) (key : string) : list string :=
  default [] (h !! key).

(** [h.Get(key)]: the first value under the canonical key, or the empty
    string. *)
Definition Header_Get (h : Header) (key : string) : string :=
  match h !! CanonicalMIMEHeaderKey key with
  | Some (v :: _) => v
  | _ => ""
  end.

Definition Header_Del (h : Header) (key : string) : Header :=
  delete (CanonicalMIMEHeaderKey key) h.

Definition Header_Add (h : Header) (key value : string) : Header :=
  let k := CanonicalMIMEHeaderKey key in
  <[k := (Header_values h k ++ [value])%list]> h.

Definition hopHeaders : list string :=
  [ "Connection"; "Proxy-Connection"; "Keep-Alive"; "Proxy-Authenticate";
    "Proxy-Authorization"; "Te"; "Trailer"; "Transfer-Encoding"; "Upgrade" ].

(** [removeConnectionHeaders]: only [h.Get("Connection")], the first
    Connection value, is split. *)
Definition removeConnectionHeaders (h : Header) : Header :=
  let c := Header_Get h "Connection" in
  if String.eqb c "" then h
  else
    fold_left
      (fun h f =>
         let f := GoStrings.TrimSpace f in
         if String.eqb f "" then h else Header_Del h f)
      (GoStrings.Split c ","%char) h.

Definition removeMITMHeaders (h : Header) : Header :=
  if String.eqb (Header_Get h "MITM") "" then h else Header_Del h "MITM".

(** [CopyHeader]: every value of [src] is added to [dst]; the keys of [src]
    are visited in the order of [map_to_list]. *)
Definition CopyHeader (dst src : Header) : Header :=
  fold_left
    (fun d kv => fold_left (fun d v => Header_Add d (fst kv) v) (snd kv) d)
    (map_to_list src) dst.

(** [CloneHeader]: a fresh map with a copy of every value slice.  Values of
    the embedding are immutable, so the clone is equal to its argument; what
    matters is that later deletions act on the clone only. *)
Definition CloneHeader (h : Header) : Header :=
  (fun vv => take (length vv) vv) <$> h.

(** [headerContains]: [header[name]] is indexed without canonicalisation. *)
Definition headerContains (header : Header) (name value : string) : bool :=
  existsb
    (fun v =>
       existsb (fun s => GoStrings.EqualFold value (GoStrings.TrimSpace s))
               (GoStrings.Split v ","%char))
    (Header_values header name).

(** [h'] has no more than [h]: a key of [h'] has the values it has in [h]. *)
Definition shrinks (h h' : Header) : Prop :=
  forall k, h' !! k = None \/ h' !! k = h !! k.

(** ** Requests, responses and errors ([net/http], [net/url]) *)

Inductive error :=
| io_EOF
| errorString (msg : string).

Definition Error (e : error) : string :=
  match e with io_EOF => "EOF" | errorString m => m end.

Definition is_EOF (e : error) : bool :=
  match e with io_EOF => true | errorString _ => false end.

Record Userinfo := mkUserinfo {
  username : string;
  password : string
}.

Record URL := mkURL {
  url_Scheme : string;
  url_Opaque : string;
  url_User : option Userinfo;
  url_Host : string;
  url_Path : string
}.

Record Request := mkRequest {
  req_Method : string;
  req_URL : URL;
  req_Host : string;
  req_Header : Header;
  req_RemoteAddr : string;
  req_Body : string
}.

(** A response body is read in chunks and ends with EOF or a read error. *)
Record Body := mkBody {
  body_chunks : list string;
  body_err : option error
}.

Record Response := mkResponse {
  resp_StatusCode : Z;
  resp_Header : Header;
  resp_Body : Body
}.

Record ProxyError := mkProxyError {
  ErrType : string;
  ErrCode : Z;
  ErrMsg : string
}.

Definition set_url_Scheme (s : string) (r : Request) : Request :=
  let u := req_URL r in
  mkRequest (req_Method r)
    (mkURL s (url_Opaque u) (url_User u) (url_Host u) (url_Path u))
    (req_Host r) (req_Header r) (req_RemoteAddr r) (req_Body r).

Definition set_url_Host (h : string) (r : Request) : Request :=
  let u := req_URL r in
  mkRequest (req_Method r)
    (mkURL (url_Scheme u) (url_Opaque u) (url_User u) h (url_Path u))
    (req_Host r) (req_Header r) (req_RemoteAddr r) (req_Body r).

Definition set_req_Header (h : Header) (r : Request) : Request :=
  mkRequest (req_Method r) (req_URL r) (req_Host r) h (req_RemoteAddr r) (req_Body r).

Definition set_req_RemoteAddr (a : string) (r : Request) : Request :=
  mkRequest (req_Method r) (req_URL r) (req_Host r) (req_Header r) a (req_Body r).

Definition set_resp_Header (h : Header) (r : Response) : Response :=
  mkResponse (resp_StatusCode r) h (resp_Body r).

(** ** The per-request context *)

(** Modelled from the spec: the error kinds are constants declared elsewhere
    in the package; these are the names the handlers use. *)
Inductive ErrKind :=
| ConnectFail | AuthFail | BeforeRequestFail | ParentProxyFail | BeforeResponseFail
| HTTPDoRequestFail | HTTPWriteClientFail
| HTTPSGenerateTLSConfigFail | HTTPSHijackClientConnFail | HTTPSWriteEstRespFail
| HTTPSTLSClientConnHandshakeFail | HTTPSReadReqFromBufFail | HTTPSDoRequestFail
| HTTPSWriteRespFail
| TunnelHijackClientConnFail | TunnelDialRemoteServerFail | TunnelWriteEstRespFail
| TunnelConnectRemoteFail | TunnelWriteConnFail
| HTTPWebsocketDailFail | HTTPWebsocketHijackFail | HTTPWebsocketHandshakeFail
| HTTPSWebsocketGenerateTLSConfigFail | HTTPSWebsocketHijackFail
| HTTPSWebsocketWriteEstRespFail | HTTPSWebsocketTLSClientConnHandshakeFail
| HTTPSWebsocketReadReqFromBufFail | HTTPSWebsocketDailFail
| HTTPSWebsocketHandshakeFail.

(** Modelled from the spec: the [Context] struct is declared elsewhere in the
    package; the fields are those of the spec's data model.  [Data] is [None]
    for a nil map. *)
Record Context := mkContext {
  Req : Request;
  Data : option (gmap string string);
  Hijack : bool;
  MITM : bool;
  ReqLength : Z;
  RespLength : Z;
  Closed : bool;
  abort : bool;
  errType : option ErrKind;
  err : option error
}.

Definition set_Req (r : Request) (c : Context) : Context :=
  mkContext r (Data c) (Hijack c) (MITM c) (ReqLength c) (RespLength c)
            (Closed c) (abort c) (errType c) (err c).

Definition set_Data (d : option (gmap string string)) (c : Context) : Context :=
  mkContext (Req c) d (Hijack c) (MITM c) (ReqLength c) (RespLength c)
            (Closed c) (abort c) (errType c) (err c).

Definition set_Hijack (b : bool) (c : Context) : Context :=
  mkContext (Req c) (Data c) b (MITM c) (ReqLength c) (RespLength c)
            (Closed c) (abort c) (errType c) (err c).

Definition set_MITM (b : bool) (c : Context) : Context :=
  mkContext (Req c) (Data c) (Hijack c) b (ReqLength c) (RespLength c)
            (Closed c) (abort c) (errType c) (err c).

Definition set_ReqLength (n : Z) (c : Context) : Context :=
  mkContext (Req c) (Data c) (Hijack c) (MITM c) n (RespLength c)
            (Closed c) (abort c) (errType c) (err c).

Definition set_RespLength (n : Z) (c : Context) : Context :=
  mkContext (Req c) (Data c) (Hijack c) (MITM c) (ReqLength c) n
            (Closed c) (abort c) (errType c) (err c).

Definition set_Closed (b : bool) (c : Context) : Context :=
  mkContext (Req c) (Data c) (Hijack c) (MITM c) (ReqLength c) (RespLength c)
            b (abort c) (errType c) (err c).

(** Modelled from the spec: [SetContextErrType] and [SetContextErrorWithType]
    are methods declared elsewhere in the package; they record the typed
    failure on the context. *)
Definition SetContextErrType (k : ErrKind) (c : Context) : Context :=
  mkContext (Req c) (Data c) (Hijack c) (MITM c) (ReqLength c) (RespLength c)
            (Closed c) (abort c) (Some k) (err c).

Definition SetContextErrorWithType (e : error) (k : ErrKind) (c : Context) : Context :=
  mkContext (Req c) (Data c) (Hijack c) (MITM c) (ReqLength c) (RespLength c)
            (Closed c) (abort c) (Some k) (Some e).

(** Two's-complement wrap of a [w]-bit signed integer. *)
Definition wrap (w : Z) (n : Z) : Z :=
  (n + 2 ^ (w - 1)) mod 2 ^ w - 2 ^ (w - 1).

Definition add_RespLength (n : nat) (c : Context) : Context :=
  set_RespLength (wrap 64 (RespLength c + Z.of_nat n)) c.

(** ** Sockets, writers and the log *)

Inductive ConnId := clientConn | tlsClientConn | targetConn.

#[global] Instance ConnId_eq_dec : EqDecision ConnId.
Proof. solve_decision. Defined.

(** A connection: whether it is closed, the fate of the coming [Write] calls
    ([None]: all bytes are written; [Some k]: an error after [k] bytes; an
    exhausted script means success), the chunks the coming [Read] calls
    deliver, and what ends them (EOF when [None]). *)
Record Conn := mkConn {
  closed : bool;
  wfaults : list (option nat);
  incoming : list string;
  rerr : option error
}.

(** The [http.ResponseWriter] of the inbound request. *)
Record RW := mkRW {
  rw_Header : Header;
  rw_status : option Z;
  rw_hijacked : bool;
  rw_faults : list (option nat)
}.

Inductive Writer := toRW | toConn (c : ConnId).

(** What a [Write] call hands to a writer.  [Truncated k o] is the first [k]
    bytes of the wire form of [o]. *)
Inductive Out :=
| Bytes (b : string)
| WireRequest (r : Request)
| WireResponse (r : Response)
| Truncated (k : nat) (o : Out).

Inductive Stage :=
| SConnect | SAuth | SBeforeRequest | SParentProxy | SBeforeResponse
| SDuringResponse | SFinish.

#[global] Instance Stage_eq_dec : EqDecision Stage.
Proof. solve_decision. Defined.

Inductive Handler :=
| HforwardHTTP | HforwardHTTPWebsocket | HforwardTunnel
| HforwardHTTPS | HforwardHTTPSWebsocket.

(** The log: what the proxy did, in order. *)
Inductive Event :=
| EvDelegate (s : Stage) (before after : Context)
| EvHandler (h : Handler)
| EvWriteHeader (code : Z)
| EvWrite (w : Writer) (o : Out)
| EvHijack
| EvDial (addr : string)
| EvRoundTrip (req : Request) (parent : option URL)
| EvClose (c : ConnId)
| EvCloseBody (r : Response)
| EvPump (src dst : ConnId)
| EvCopied (dst src : ConnId) (written : Z) (er : option error).

Record World := mkWorld {
  ctx : Context;
  clientConnNum : Z;
  rw : RW;
  conn : ConnId -> Conn;
  trace : list Event
}.

Definition set_ctx (c : Context) (w : World) : World :=
  mkWorld c (clientConnNum w) (rw w) (conn w) (trace w).

Definition set_rw (r : RW) (w : World) : World :=
  mkWorld (ctx w) (clientConnNum w) r (conn w) (trace w).

Definition ConnId_eqb (a b : ConnId) : bool :=
  match a, b with
  | clientConn, clientConn | tlsClientConn, tlsClientConn
  | targetConn, targetConn => true
  | _, _ => false
  end.

Definition set_conn (i : ConnId) (c : Conn) (w : World) : World :=
  mkWorld (ctx w) (clientConnNum w) (rw w)
          (fun j => if ConnId_eqb j i then c else conn w j) (trace w).

Definition record (ev : Event) (w : World) : World :=
  mkWorld (ctx w) (clientConnNum w) (rw w) (conn w) (trace w ++ [ev])%list.

(** ** The delegate and the rest of the environment *)

(** What [ParentProxy] is handed: the response writer, or the hijacked TLS
    connection (nil when [DoRequest] got none). *)
Inductive PPArg := viaRW | viaConn (c : option ConnId).

(** [ResponseWrapper] and [ConnWrapper]: a response or a connection, or the
    error that took its place. *)
Inductive Wrapper :=
| ResponseWrapper (r : error + Response)
| ConnWrapper (c : error + ConnId).

Inductive During := duringResp (r : Response) | duringConn (c : ConnId).

(** Modelled from the spec: the [Delegate] interface is declared elsewhere in
    the package.  A callback returns, and is modelled by what it does to the
    context: it does not write to the sockets.  [BeforeResponse] and
    [DuringResponse] hold a pointer to the response and also say how they
    change it.  A callback that replaces the request does so in place. *)
Record Delegate := mkDelegate {
  Connect : Context -> Context;
  Auth : Context -> Context;
  BeforeRequest : Context -> Context;
  ParentProxy : Context -> PPArg -> Context * (option URL * option error);
  BeforeResponse : Context -> Wrapper -> Context * (Response -> Response);
  DuringResponse : Context -> During -> Context * (Response -> Response);
  Finish : Context -> Context
}.

(** Everything else the handlers call outside this package: the certificate
    provider, the HTTP and TLS libraries, the network and the scheduler. *)
Record Env := mkEnv {
  delegate : Delegate;
  GenerateTLSConfig : string -> option error;
  rw_is_Hijacker : bool;
  Hijack_err : option error;
  Handshake_err : option error;
  ReadRequest : error + Request;
  DialTimeout : string -> option error;
  tls_DialWithDialer : string -> option error;
  RoundTrip : Request -> option URL -> option error -> error + Response;
  DumpRequestOut : Request -> error + string;
  ReadResponse : Request -> error + Response;
  json_Marshal : ProxyError -> error + string;
  URL_String : URL -> string;
  wire_Request : Request -> string;
  wire_Response : Response -> string;
  schedule : list bool
}.

(** ** The monad of the handlers: state, early return and panic *)

Inductive Outcome (A : Type) : Type :=
| Normal (a : A)
| Returned
| Panicked (msg : string).

Arguments Normal {A} a.
Arguments Returned {A}.
Arguments Panicked {A} msg.

Definition M (A : Type) : Type := World -> Outcome A * World.

Definition ret {A} (a : A) : M A := fun w => (Normal a, w).

Definition bind {A B} (m : M A) (f : A -> M B) : M B :=
  fun w =>
    match m w with
    | (Normal a, w') => f a w'
    | (Returned, w') => (Returned, w')
    | (Panicked msg, w') => (Panicked msg, w')
    end.

Notation "x <- m ;; k" := (bind m (fun x => k))
  (at level 100, m at next level, right associativity).
Notation "m ;; k" := (bind m (fun _ => k))
  (at level 100, right associativity).

(** A [return] statement. *)
Definition go_return {A} : M A := fun w => (Returned, w).

Definition panic {A} (msg : string) : M A := fun w => (Panicked msg, w).

(** A function body: [return] ends it. *)
Definition func (body : M unit) : M unit :=
  fun w =>
    match body w with
    | (Returned, w') => (Normal tt, w')
    | r => r
    end.

(** [defer d; body]: [d] runs when the body is left, also by [return] or by
    a panic. *)
Definition defer (d : M unit) (body : M unit) : M unit :=
  fun w =>
    let '(o, w1) := body w in
    match func d w1 with
    | (Panicked msg, w2) => (Panicked msg, w2)
    | (_, w2) => (o, w2)
    end.

Definition when (b : bool) (m : M unit) : M unit :=
  if b then m else ret tt.

Definition getCtx : M Context := fun w => (Normal (ctx w), w).

Definition modifyCtx (f : Context -> Context) : M unit :=
  fun w => (Normal tt, set_ctx (f (ctx w)) w).

Definition emit (ev : Event) : M unit := fun w => (Normal tt, record ev w).

Definition aborted : M bool := fun w => (Normal (abort (ctx w)), w).

(** [atomic.AddInt32(&p.clientConnNum, d)] *)
Definition atomic_AddInt32 (d : Z) : M unit :=
  fun w =>
    (Normal tt,
     mkWorld (ctx w) (wrap 32 (clientConnNum w + d)) (rw w) (conn w) (trace w)).

Section Proxy.

Variable e : Env.

Let d := delegate e.

(** *** Delegate calls *)

Definition call (s : Stage) (f : Context -> Context) : M unit :=
  fun w =>
    let c' := f (ctx w) in
    (Normal tt, record (EvDelegate s (ctx w) c') (set_ctx c' w)).

Definition callParentProxy (a : PPArg) : M (option URL * option error) :=
  fun w =>
    let '(c', r) := ParentProxy d (ctx w) a in
    (Normal r, record (EvDelegate SParentProxy (ctx w) c') (set_ctx c' w)).

Definition callBeforeResponse (x : Wrapper) : M (Response -> Response) :=
  fun w =>
    let '(c', f) := BeforeResponse d (ctx w) x in
    (Normal f, record (EvDelegate SBeforeResponse (ctx w) c') (set_ctx c' w)).

Definition callDuringResponse (x : During) : M (Response -> Response) :=
  fun w =>
    let '(c', f) := DuringResponse d (ctx w) x in
    (Normal f, record (EvDelegate SDuringResponse (ctx w) c') (set_ctx c' w)).

(** *** Writers *)

Definition out_len (o : Out) : nat :=
  match o with
  | Bytes b => String.length b
  | WireRequest r => String.length (wire_Request e r)
  | WireResponse r => String.length (wire_Response e r)
  | Truncated k _ => k
  end.

Definition write_fault (o : Out) (f : option nat) : Out * nat * option error :=
  match f with
  | None => (o, out_len o, None)
  | Some k =>
      let k' := Nat.min k (out_len o) in
      (Truncated k' o, k', Some (errorString "write: broken pipe"))
  end.

(** A TLS connection over a closed socket is closed. *)
Definition is_closed (w : World) (i : ConnId) : bool :=
  closed (conn w i) ||
  match i with tlsClientConn => closed (conn w clientConn) | _ => false end.

Definition errClosed : error := errorString "use of closed network connection".

(** [conn.Write]: on a closed connection an error, and nothing goes out. *)
Definition write_conn (i : ConnId) (o : Out) (w : World)
  : nat * option error * World :=
  if is_closed w i then (0%nat, Some errClosed, w)
  else
    let c := conn w i in
    let '(o', n, er) := write_fault o (hd None (wfaults c)) in
    (n, er,
     record (EvWrite (toConn i) o')
            (set_conn i (mkConn (closed c) (tl (wfaults c)) (incoming c) (rerr c)) w)).

Definition mark_closed (i : ConnId) (w : World) : World :=
  let c := conn w i in
  set_conn i (mkConn true (wfaults c) (incoming c) (rerr c)) w.

(** [conn.Close]: closing the TLS connection closes the socket under it. *)
Definition close_conn (i : ConnId) (w : World) : World :=
  record (EvClose i)
    (match i with
     | tlsClientConn => mark_closed clientConn (mark_closed tlsClientConn w)
     | _ => mark_closed i w
     end).

Definition conn_Write (i : ConnId) (o : Out) : M (nat * option error) :=
  fun w => let '(n, er, w') := write_conn i o w in (Normal (n, er), w').

Definition conn_Close (i : ConnId) : M unit :=
  fun w => (Normal tt, close_conn i w).

(** [rw.WriteHeader]: ignored once hijacked or once a status went out. *)
Definition rw_WriteHeader (code : Z) : M unit :=
  fun w =>
    let r := rw w in
    if rw_hijacked r then (Normal tt, w)
    else match rw_status r with
         | Some _ => (Normal tt, w)
         | None =>
             (Normal tt,
              record (EvWriteHeader code)
                (set_rw (mkRW (rw_Header r) (Some code) false (rw_faults r)) w))
         end.

Definition rw_Write (o : Out) : M (nat * option error) :=
  fun w =>
    if rw_hijacked (rw w)
    then (Normal (0%nat, Some (errorString "http: connection has been hijacked")), w)
    else
      match rw_WriteHeader 200 w with
      | (_, w1) =>
          let r := rw w1 in
          let '(o', n, er) := write_fault o (hd None (rw_faults r)) in
          (Normal (n, er),
           record (EvWrite toRW o')
             (set_rw (mkRW (rw_Header r) (rw_status r) false (tl (rw_faults r))) w1))
      end.

Definition Write (wr : Writer) (o : Out) : M (nat * option error) :=
  match wr with
  | toRW => rw_Write o
  | toConn i => conn_Write i o
  end.

Definition CRLF : string := String "013"%char (String "010"%char EmptyString).

(** [fmt.Sprintf("HTTP/1.1 %d Connection established\r\n\r\n", http.StatusOK)] *)
Definition tunnelEstablishedResponseLine : string :=
  "HTTP/1.1 200 Connection established" ++ CRLF ++ CRLF.

(** *** The byte pump *)

(** Where a [copyOrWarn] goroutine stands: in the loop of [io.Copy] with
    the bytes written so far, at the error check, at [*len = written], at
    [wg.Done()], or gone. *)
Inductive Copier :=
| AtCopy (written : Z)
| AtCheck (written : Z) (er : option error)
| AtStore (written : Z)
| AtDone
| Exited.

Definition read_end (c : Conn) : option error :=
  match rerr c with
  | Some er => if is_EOF er then None else Some er
  | None => None
  end.

(** One step of [copyOrWarn(ctx, dst, src, wg, len)]; in the loop of
    [io.Copy(dst, src)] a step is one [Read] and the [Write] of what it
    delivered.  When [io.Copy] returns, what it returns goes to the log. *)
Definition copy_step (dst src : ConnId) (len : Z -> Context -> Context)
           (g : Copier) (w : World) : Copier * World :=
  match g with
  | AtCopy n =>
      if is_closed w src
      then (AtCheck n (Some errClosed), record (EvCopied dst src n (Some errClosed)) w)
      else
        let c := conn w src in
        match incoming c with
        | [] => (AtCheck n (read_end c), record (EvCopied dst src n (read_end c)) w)
        | chunk :: rest =>
            let w1 := set_conn src (mkConn (closed c) (wfaults c) rest (rerr c)) w in
            if String.eqb chunk "" then (AtCopy n, w1)
            else
              let '(k, er, w2) := write_conn dst (Bytes chunk) w1 in
              match er with
              | None => (AtCopy (n + Z.of_nat k), w2)
              | Some er =>
                  (AtCheck (n + Z.of_nat k) (Some er),
                   record (EvCopied dst src (n + Z.of_nat k) (Some er)) w2)
              end
        end
  | AtCheck n er =>
      (AtStore n,
       match er with
       | Some er => set_ctx (SetContextErrorWithType er TunnelWriteConnFail (ctx w)) w
       | None => w
       end)
  | AtStore n => (AtDone, set_ctx (len n (ctx w)) w)
  | AtDone => (Exited, w)
  | Exited => (Exited, w)
  end.

Definition is_Exited (g : Copier) : bool :=
  match g with Exited => true | _ => false end.

(** An upper bound on the steps a goroutine reading [src] still takes. *)
Definition steps_left (src : ConnId) (g : Copier) (w : World) : nat :=
  match g with
  | AtCopy _ => length (incoming (conn w src)) + 4
  | AtCheck _ _ => 3
  | AtStore _ => 2
  | AtDone => 1
  | Exited => 0
  end.

(** The two goroutines of [transfer(ctx, src, dst)] under a scheduler: [a]
    is [copyOrWarn(ctx, src, dst, &wg, &ctx.RespLength)], [b] is
    [copyOrWarn(ctx, dst, src, &wg, &ctx.ReqLength)].  The head of [sched]
    picks who moves ([true]: [a]); a goroutine that is gone cannot be
    picked, and an exhausted schedule picks [b]. *)
Fixpoint pump (fuel : nat) (sched : list bool) (src dst : ConnId)
         (a b : Copier) (w : World) : Copier * Copier * World :=
  match fuel with
  | O => (a, b, w)
  | S fuel' =>
      if is_Exited a && is_Exited b then (a, b, w)
      else
        let pick := if is_Exited a then false
                    else if is_Exited b then true
                    else hd false sched in
        if pick
        then let '(a', w') := copy_step src dst set_RespLength a w in
             pump fuel' (tl sched) src dst a' b w'
        else let '(b', w') := copy_step dst src set_ReqLength b w in
             pump fuel' (tl sched) src dst a b' w'
  end.

(** [transfer]: [wg.Wait()] returns when both goroutines are gone; then
    both ends are closed. *)
Definition transfer (src dst : ConnId) : M unit :=
  fun w =>
    let w0 := record (EvPump src dst) w in
    let fuel := (steps_left dst (AtCopy 0) w0 + steps_left src (AtCopy 0) w0)%nat in
    let '(_, _, w1) := pump fuel (schedule e) src dst (AtCopy 0) (AtCopy 0) w0 in
    (Normal tt, close_conn dst (close_conn src w1)).

(** *** Close-once guard *)

Definition CloseResponseBody (r : Response) : M unit :=
  c <- getCtx ;;
  if Closed c then ret tt
  else emit (EvCloseBody r) ;; modifyCtx (set_Closed true).

Definition CloseNetConn (i : ConnId) : M unit :=
  c <- getCtx ;;
  if Closed c then ret tt
  else conn_Close i ;; modifyCtx (set_Closed true).

(** *** Helpers of the forwarders *)

Definition hijacker : M (error + ConnId) :=
  fun w =>
    if rw_is_Hijacker e then
      match (if rw_hijacked (rw w)
             then Some (errorString "http: connection has been hijacked")
             else Hijack_err e) with
      | Some er => (Normal (inl (errorString ("hijacker failed: " ++ Error er))), w)
      | None =>
          let r := rw w in
          (Normal (inr clientConn),
           record EvHijack
             (set_rw (mkRW (rw_Header r) (rw_status r) true (rw_faults r)) w))
      end
    else (Normal (inl (errorString "hijacker is not supported")), w).

(** [hj.Hijack()] on the response writer itself. *)
Definition hijackRaw : M (option error) :=
  fun w =>
    match (if rw_hijacked (rw w)
           then Some (errorString "http: connection has been hijacked")
           else Hijack_err e) with
    | Some er => (Normal (Some er), w)
    | None =>
        let r := rw w in
        (Normal None,
         record EvHijack
           (set_rw (mkRW (rw_Header r) (rw_status r) true (rw_faults r)) w))
    end.

Definition WriteProxyErrorToResponseBody (respWriter : Writer) (httpcode : Z)
           (msg optionalPrefix : string) : M unit :=
  when (negb (String.eqb optionalPrefix ""))
       (r <- Write respWriter (Bytes optionalPrefix) ;;
        modifyCtx (add_RespLength (fst r))) ;;
  let pe := mkProxyError "PROXY_CENTER_INTERNAL_ERR" httpcode msg in
  match json_Marshal e pe with
  | inl _ => panic "jason marshal failed"
  | inr errJSON =>
      r <- Write respWriter (Bytes errJSON) ;;
      modifyCtx (add_RespLength (fst r))
  end.

Definition isWebSocketRequest (r : Request) : bool :=
  headerContains (req_Header r) "Connection" "upgrade" &&
  headerContains (req_Header r) "Upgrade" "websocket".

Definition dial (f : string -> option error) (addr : string) : M (option error) :=
  emit (EvDial addr) ;; ret (f addr).

(** *** Request transport *)

(** A trailing [conn ...interface{}] argument: a [*tls.Conn] or a value of
    another type. *)
Inductive ConnArg := argTLSConn (c : ConnId) | argOther.

Definition stripRequestHeaders (h : Header) : Header :=
  let h := CloneHeader h in
  let h := removeMITMHeaders h in
  let h := removeConnectionHeaders h in
  fold_left
    (fun h item =>
       if negb (String.eqb (Header_Get h item) "") then Header_Del h item else h)
    hopHeaders h.

Definition stripResponseHeaders (h : Header) : Header :=
  let h := removeConnectionHeaders h in
  fold_left (fun h item => Header_Del h item) hopHeaders h.

Definition DoRequest (responseFunc : error + Response -> M unit)
           (conn : list ConnArg) : M unit :=
  func (
    when (1 <? length conn)%nat go_return ;;
    let clientConn :=
      match conn with
      | [argTLSConn c] => Some c
      | _ => None
      end in
    c <- getCtx ;;
    when (match Data c with None => true | Some _ => false end)
         (modifyCtx (set_Data (Some ∅))) ;;
    call SBeforeRequest (BeforeRequest d) ;;
    ab <- aborted ;;
    when ab (modifyCtx (SetContextErrType BeforeRequestFail) ;; go_return) ;;
    c <- getCtx ;;
    let newReq := set_req_Header (stripRequestHeaders (req_Header (Req c))) (Req c) in
    pp <- callParentProxy (if Hijack c then viaConn clientConn else viaRW) ;;
    ab <- aborted ;;
    when ab (modifyCtx (SetContextErrType ParentProxyFail) ;; go_return) ;;
    let parentProxyURL := fst pp in
    match DumpRequestOut e newReq with
    | inl _ => ret tt
    | inr dump => modifyCtx (set_ReqLength (Z.of_nat (String.length dump)))
    end ;;
    emit (EvRoundTrip newReq parentProxyURL) ;;
    let result := RoundTrip e newReq parentProxyURL (snd pp) in
    f <- callBeforeResponse (ResponseWrapper result) ;;
    ab <- aborted ;;
    when ab (modifyCtx (SetContextErrType BeforeResponseFail) ;; go_return) ;;
    match result with
    | inl er => responseFunc (inl er)
    | inr resp =>
        let resp := f resp in
        responseFunc (inr (set_resp_Header (stripResponseHeaders (resp_Header resp)) resp))
    end).

(** *** WebSocket forwarders *)

Definition websocketHandshake (req : Request) (targetConn clientConn : ConnId)
  : M (option error) :=
  r <- conn_Write targetConn (WireRequest req) ;;
  match snd r with
  | Some er =>
      ret (Some (errorString ("websocketHandshake " ++ url_Host (req_URL req)
                              ++ " write targetConn failed: " ++ Error er)))
  | None =>
      match ReadResponse e req with
      | inl er =>
          ret (Some (errorString ("websocketHandshake " ++ url_Host (req_URL req)
                                  ++ " write targetConn failed: " ++ Error er)))
      | inr resp =>
          r <- conn_Write clientConn (WireResponse resp) ;;
          match snd r with
          | Some er =>
              ret (Some (errorString ("websocketHandshake " ++ url_Host (req_URL req)
                                      ++ " write handhsake response failed: " ++ Error er)))
          | None => ret None
          end
      end
  end.

(** [serveWebsocket(ctx, rw, req)]: [req] is the pointer [ctx.Req], so the
    request written to the target is read through the context. *)
Definition serveWebsocket : M unit :=
  func (
    pp <- callParentProxy viaRW ;;
    ab <- aborted ;;
    when ab (modifyCtx (SetContextErrType ParentProxyFail) ;; go_return) ;;
    modifyCtx (fun c => set_Req (set_url_Scheme "ws" (Req c)) c) ;;
    c <- getCtx ;;
    let targetAddr :=
      match fst pp with
      | Some u => url_Host u
      | None => url_Host (req_URL (Req c))
      end in
    der <- dial (DialTimeout e) targetAddr ;;
    match der with
    | Some er =>
        rw_WriteHeader 502 ;;
        modifyCtx (SetContextErrorWithType er HTTPWebsocketDailFail) ;;
        go_return
    | None => ret tt
    end ;;
    defer (CloseNetConn targetConn) (
      when (negb (rw_is_Hijacker e)) (panic "httpserver does not support hijacking") ;;
      hj <- hijackRaw ;;
      match hj with
      | Some er =>
          rw_WriteHeader 502 ;;
          modifyCtx (SetContextErrorWithType er HTTPWebsocketHijackFail) ;;
          go_return
      | None => ret tt
      end ;;
      modifyCtx (set_Hijack true) ;;
      conn_Close clientConn ;;
      c <- getCtx ;;
      her <- websocketHandshake (Req c) targetConn clientConn ;;
      match her with
      | Some er =>
          modifyCtx (SetContextErrorWithType er HTTPWebsocketHandshakeFail) ;;
          go_return
      | None => ret tt
      end ;;
      transfer clientConn targetConn)).

Definition serveWebsocketTLS : M unit :=
  func (
    pp <- callParentProxy viaRW ;;
    ab <- aborted ;;
    when ab (modifyCtx (SetContextErrType ParentProxyFail) ;; go_return) ;;
    c <- getCtx ;;
    match GenerateTLSConfig e (url_Host (req_URL (Req c))) with
    | Some er =>
        rw_WriteHeader 502 ;;
        modifyCtx (SetContextErrorWithType er HTTPSWebsocketGenerateTLSConfigFail) ;;
        go_return
    | None => ret tt
    end ;;
    hj <- hijacker ;;
    match hj with
    | inl er =>
        rw_WriteHeader 502 ;;
        modifyCtx (SetContextErrorWithType er HTTPSWebsocketHijackFail) ;;
        go_return
    | inr _ => ret tt
    end ;;
    modifyCtx (set_Hijack true) ;;
    defer (conn_Close clientConn) (
      r <- conn_Write clientConn (Bytes tunnelEstablishedResponseLine) ;;
      match snd r with
      | Some er =>
          modifyCtx (SetContextErrorWithType er HTTPSWebsocketWriteEstRespFail) ;;
          go_return
      | None => ret tt
      end ;;
      defer (CloseNetConn tlsClientConn) (
        match Handshake_err e with
        | Some er =>
            modifyCtx (SetContextErrorWithType er HTTPSWebsocketTLSClientConnHandshakeFail) ;;
            go_return
        | None => ret tt
        end ;;
        match ReadRequest e with
        | inl er =>
            when (negb (is_EOF er))
                 (modifyCtx (SetContextErrorWithType er HTTPSWebsocketReadReqFromBufFail)) ;;
            go_return
        | inr wsReq =>
            let dialAddr :=
              match fst pp with
              | Some u => url_Host u
              | None => url_Host (req_URL wsReq)
              end in
            der <- dial (tls_DialWithDialer e) dialAddr ;;
            match der with
            | Some er =>
                rw_WriteHeader 502 ;;
                modifyCtx (SetContextErrorWithType er HTTPSWebsocketDailFail) ;;
                go_return
            | None => ret tt
            end ;;
            defer (CloseNetConn targetConn) (
              let wsReq := set_url_Host (req_Host wsReq) (set_url_Scheme "wss" wsReq) in
              modifyCtx (set_Req wsReq) ;;
              her <- websocketHandshake wsReq targetConn clientConn ;;
              match her with
              | Some er =>
                  modifyCtx (SetContextErrorWithType er HTTPSWebsocketHandshakeFail) ;;
                  go_return
              | None => ret tt
              end ;;
              transfer clientConn targetConn)
        end))).

Definition forwardHTTPWebsocket : M unit :=
  func (emit (EvHandler HforwardHTTPWebsocket) ;; serveWebsocket).

Definition forwardHTTPSWebsocket : M unit :=
  func (emit (EvHandler HforwardHTTPSWebsocket) ;; serveWebsocketTLS).

(** *** Plain HTTP forwarder *)

(** [io.Copy(w, body)]: the bytes written and the first error other than
    EOF. *)
Fixpoint io_Copy (wr : Writer) (chunks : list string) (rend : option error)
         (written : Z) : M (Z * option error) :=
  match chunks with
  | [] =>
      ret (written,
           match rend with
           | Some er => if is_EOF er then None else Some er
           | None => None
           end)
  | chunk :: rest =>
      if String.eqb chunk "" then io_Copy wr rest rend written
      else
        r <- Write wr (Bytes chunk) ;;
        match snd r with
        | None => io_Copy wr rest rend (written + Z.of_nat (fst r))
        | Some er => ret (written + Z.of_nat (fst r), Some er)
        end
  end.

Definition rw_CopyHeader (src : Header) : M unit :=
  fun w =>
    let r := rw w in
    (Normal tt,
     set_rw (mkRW (CopyHeader (rw_Header r) src) (rw_status r) (rw_hijacked r)
                  (rw_faults r)) w).

Definition forwardHTTP : M unit :=
  func (
    emit (EvHandler HforwardHTTP) ;;
    modifyCtx (fun c => set_Req (set_url_Scheme "http" (Req c)) c) ;;
    DoRequest
      (fun result =>
         func (
           match result with
           | inl er =>
               c <- getCtx ;;
               rw_WriteHeader 502 ;;
               WriteProxyErrorToResponseBody toRW 502
                 ("forwardHTTP " ++ URL_String e (req_URL (Req c))
                  ++ " forward request failed: " ++ Error er) "" ;;
               modifyCtx (SetContextErrorWithType er HTTPDoRequestFail) ;;
               go_return
           | inr resp =>
               defer (CloseResponseBody resp) (
                 f <- callDuringResponse (duringResp resp) ;;
                 let resp := f resp in
                 rw_CopyHeader (resp_Header resp) ;;
                 rw_WriteHeader (resp_StatusCode resp) ;;
                 r <- io_Copy toRW (body_chunks (resp_Body resp))
                              (body_err (resp_Body resp)) 0 ;;
                 modifyCtx (set_RespLength (fst r)) ;;
                 match snd r with
                 | Some er =>
                     modifyCtx (SetContextErrorWithType er HTTPWriteClientFail) ;;
                     go_return
                 | None => ret tt
                 end)
           end))
      []).

(** *** MITM HTTPS forwarder *)

(** [WriterWithLength]: a writer, the tag that says which interface it is
    held by (0: [http.ResponseWriter], otherwise [io.Writer]) and the bytes
    written so far. *)
Record WriterWithLength := mkWriterWithLength {
  wl_writer : Writer;
  interfaceType : Z;
  wl_length : Z
}.

Definition WriterWithLength_Write (wl : WriterWithLength) (o : Out)
  : M (WriterWithLength * option error) :=
  if interfaceType wl =? 0 then
    match wl_writer wl with
    | toRW =>
        r <- rw_Write o ;;
        ret (mkWriterWithLength toRW (interfaceType wl)
               (wrap 64 (wl_length wl + Z.of_nat (fst r))), snd r)
    | toConn _ => panic "w.writer is not a http.ResponseWriter"
    end
  else
    r <- Write (wl_writer wl) o ;;
    ret (mkWriterWithLength (wl_writer wl) (interfaceType wl)
           (wrap 64 (wl_length wl + Z.of_nat (fst r))), snd r).

Definition Length (wl : WriterWithLength) : Z := wl_length wl.

Definition forwardHTTPS : M unit :=
  func (
    emit (EvHandler HforwardHTTPS) ;;
    c <- getCtx ;;
    match GenerateTLSConfig e (url_Host (req_URL (Req c))) with
    | Some er =>
        rw_WriteHeader 502 ;;
        WriteProxyErrorToResponseBody toRW 502
          ("forwardHTTPS " ++ URL_String e (req_URL (Req c))
           ++ " generate tlsConfig failed: " ++ Error er) "" ;;
        modifyCtx (SetContextErrorWithType er HTTPSGenerateTLSConfigFail) ;;
        go_return
    | None => ret tt
    end ;;
    hj <- hijacker ;;
    match hj with
    | inl er =>
        rw_WriteHeader 502 ;;
        WriteProxyErrorToResponseBody toRW 502
          ("forwardHTTPS hijack client connection failed: " ++ Error er) "" ;;
        modifyCtx (SetContextErrorWithType er HTTPSHijackClientConnFail) ;;
        go_return
    | inr _ => ret tt
    end ;;
    modifyCtx (set_Hijack true) ;;
    defer (conn_Close clientConn) (
      r <- conn_Write clientConn (Bytes tunnelEstablishedResponseLine) ;;
      match snd r with
      | Some er =>
          modifyCtx (SetContextErrorWithType er HTTPSWriteEstRespFail) ;;
          go_return
      | None => ret tt
      end ;;
      defer (CloseNetConn tlsClientConn) (
        match Handshake_err e with
        | Some er =>
            modifyCtx (SetContextErrorWithType er HTTPSTLSClientConnHandshakeFail) ;;
            go_return
        | None => ret tt
        end ;;
        match ReadRequest e with
        | inl er =>
            when (negb (is_EOF er))
                 (modifyCtx (SetContextErrorWithType er HTTPSReadReqFromBufFail)) ;;
            go_return
        | inr tlsReq =>
            c <- getCtx ;;
            let tlsReq := set_req_RemoteAddr (req_RemoteAddr (Req c)) tlsReq in
            let tlsReq := set_url_Scheme "https" tlsReq in
            let tlsReq := set_url_Host (req_Host tlsReq) tlsReq in
            modifyCtx (set_Req tlsReq) ;;
            DoRequest
              (fun result =>
                 func (
                   match result with
                   | inl er =>
                       c <- getCtx ;;
                       WriteProxyErrorToResponseBody (toConn tlsClientConn) 502
                         ("forwardHTTPS " ++ url_Host (req_URL (Req c))
                          ++ " forward request failed: " ++ Error er)
                         "HTTP/1.1 502 " ;;
                       modifyCtx (SetContextErrorWithType er HTTPSDoRequestFail) ;;
                       go_return
                   | inr resp =>
                       defer (CloseResponseBody resp) (
                         f <- callDuringResponse (duringResp resp) ;;
                         let resp := f resp in
                         let lengthWriter :=
                           mkWriterWithLength (toConn tlsClientConn) 1 0 in
                         r <- WriterWithLength_Write lengthWriter (WireResponse resp) ;;
                         match snd r with
                         | Some er =>
                             modifyCtx (SetContextErrorWithType er HTTPSWriteRespFail)
                         | None => ret tt
                         end ;;
                         modifyCtx (set_RespLength (Length (fst r))))
                   end))
              [argTLSConn tlsClientConn]
        end))).

(** *** Opaque CONNECT tunnel *)

(** The CONNECT request sent to a parent proxy. *)
Definition connectReq (host : string) (parentProxyURL : URL) : Request :=
  let header : Header :=
    match url_User parentProxyURL with
    | Some u =>
        let basicAuth :=
          "Basic " ++ Base64.EncodeToString (username u ++ ":" ++ password u) in
        Header_Add ∅ "Proxy-Authorization" basicAuth
    | None => ∅
    end in
  mkRequest "CONNECT" (mkURL "" host None "" "") host header "" "".

Definition forwardTunnel : M unit :=
  func (
    emit (EvHandler HforwardTunnel) ;;
    pp <- callParentProxy viaRW ;;
    ab <- aborted ;;
    when ab (modifyCtx (SetContextErrType ParentProxyFail) ;; go_return) ;;
    let parentProxyURL := fst pp in
    hj <- hijacker ;;
    match hj with
    | inl er =>
        rw_WriteHeader 502 ;;
        WriteProxyErrorToResponseBody toRW 502
          ("forwardTunnel hijack client connection failed: " ++ Error er) "" ;;
        modifyCtx (SetContextErrorWithType er TunnelHijackClientConnFail) ;;
        go_return
    | inr _ => ret tt
    end ;;
    modifyCtx (set_Hijack true) ;;
    defer (conn_Close clientConn) (
      c <- getCtx ;;
      let targetAddr :=
        match parentProxyURL with
        | Some u => url_Host u
        | None => url_Host (req_URL (Req c))
        end in
      der <- dial (DialTimeout e) targetAddr ;;
      callBeforeResponse
        (ConnWrapper (match der with Some er => inl er | None => inr targetConn end)) ;;
      ab <- aborted ;;
      when ab (modifyCtx (SetContextErrType BeforeResponseFail) ;; go_return) ;;
      c <- getCtx ;;
      match der with
      | Some er =>
          WriteProxyErrorToResponseBody (toConn clientConn) 502
            ("forwardTunnel " ++ url_Host (req_URL (Req c))
             ++ " dial remote server failed: " ++ Error er)
            "HTTP/1.1 502 " ;;
          modifyCtx (SetContextErrorWithType er TunnelDialRemoteServerFail) ;;
          go_return
      | None => ret tt
      end ;;
      defer (CloseNetConn targetConn) (
        callDuringResponse (duringConn targetConn) ;;
        c <- getCtx ;;
        match parentProxyURL with
        | None =>
            r <- conn_Write clientConn (Bytes tunnelEstablishedResponseLine) ;;
            match snd r with
            | Some er =>
                modifyCtx (SetContextErrorWithType er TunnelWriteEstRespFail) ;;
                go_return
            | None => ret tt
            end
        | Some u =>
            r <- conn_Write targetConn
                   (WireRequest (connectReq (url_Host (req_URL (Req c))) u)) ;;
            match snd r with
            | Some er =>
                WriteProxyErrorToResponseBody (toConn clientConn) 502
                  ("forwardTunnel " ++ url_Host (req_URL (Req c))
                   ++ " make connect request to remote failed: " ++ Error er)
                  "HTTP/1.1 502 " ;;
                modifyCtx (SetContextErrorWithType er TunnelConnectRemoteFail) ;;
                go_return
            | None => ret tt
            end
        end ;;
        transfer clientConn targetConn))).

(** *** The dispatcher *)

Definition newContext (req : Request) : Context :=
  mkContext req (Some ∅) false false 0 0 false false None None.

Definition ServeHTTP (req : Request) : M unit :=
  func (
    let req :=
      if String.eqb (url_Host (req_URL req)) ""
      then set_url_Host (req_Host req) req else req in
    atomic_AddInt32 1 ;;
    defer (atomic_AddInt32 (-1)) (
      modifyCtx (fun _ => newContext req) ;;
      defer (call SFinish (Finish d)) (
        call SConnect (Connect d) ;;
        ab <- aborted ;;
        when ab (modifyCtx (SetContextErrType ConnectFail) ;; go_return) ;;
        call SAuth (Auth d) ;;
        ab <- aborted ;;
        when ab (modifyCtx (SetContextErrType AuthFail) ;; go_return) ;;
        c <- getCtx ;;
        if String.eqb (req_Method (Req c)) "CONNECT" then
          let h := Header_Get (req_Header (Req c)) "MITM" in
          if String.eqb h "Enabled" then
            modifyCtx (set_MITM true) ;;
            if isWebSocketRequest (Req c) then forwardHTTPSWebsocket
            else forwardHTTPS
          else forwardTunnel
        else
          if isWebSocketRequest (Req c) then forwardHTTPWebsocket
          else forwardHTTP))).

(** *** Sequences of guarded closes *)

Inductive CloseCall :=
| callCloseResponseBody (r : Response)
| callCloseNetConn (i : ConnId).

Definition run_close (c : CloseCall) : M unit :=
  match c with
  | callCloseResponseBody r => CloseResponseBody r
  | callCloseNetConn i => CloseNetConn i
  end.

Fixpoint run_closes (l : list CloseCall) : M unit :=
  match l with
  | [] => ret tt
  | c :: l' => run_close c ;; run_closes l'
  end.

End Proxy.

(** ** Reading the log *)

Definition close_event (c : CloseCall) : Event :=
  match c with
  | callCloseResponseBody r => EvCloseBody r
  | callCloseNetConn i => EvClose i
  end.

(** The requests handed to the transport. *)
Fixpoint forwarded (t : list Event) : list Request :=
  match t with
  | [] => []
  | EvRoundTrip r _ :: t' => r :: forwarded t'
  | _ :: t' => forwarded t'
  end.

(** The handlers entered. *)
Fixpoint handlers (t : list Event) : list Handler :=
  match t with
  | [] => []
  | EvHandler h :: t' => h :: handlers t'
  | _ :: t' => handlers t'
  end.

(** A delegate call in the log: the stage, the context it was handed and the
    context it left. *)
Record Call := mkCall {
  stage : Stage;
  before : Context;
  after : Context
}.

Fixpoint calls (t : list Event) : list Call :=
  match t with
  | [] => []
  | EvDelegate s b a :: t' => mkCall s b a :: calls t'
  | _ :: t' => calls t'
  end.

(** The failure kind that goes with an abort at a stage. *)
Definition failKind (s : Stage) : option ErrKind :=
  match s with
  | SConnect => Some ConnectFail
  | SAuth => Some AuthFail
  | SBeforeRequest => Some BeforeRequestFail
  | SParentProxy => Some ParentProxyFail
  | SBeforeResponse => Some BeforeResponseFail
  | SDuringResponse | SFinish => None
  end.

(** The calls [l] of a handler that left the context [final] respect abort:
    a call that leaves abort set is the last one, and its failure kind is on
    [final]. *)
Fixpoint disciplined (l : list Call) (final : Context) : Prop :=
  match l with
  | [] => True
  | c :: rest =>
      (abort (after c) = true ->
       rest = [] /\
       forall k, failKind (stage c) = Some k -> errType final = Some k) /\
      disciplined rest final
  end.

(** How many of the calls are calls of Finish. *)
Fixpoint finishes (l : list Call) : nat :=
  match l with
  | [] => 0
  | c :: l' => ((if decide (stage c = SFinish) then 1 else 0) + finishes l')%nat
  end.

(** Events that are neither a delegate call nor the entry of a handler. *)
Definition plain_event (ev : Event) : Prop :=
  match ev with
  | EvDelegate _ _ _ | EvHandler _ => False
  | _ => True
  end.

(** What goes out to a writer. *)
Definition output_event (ev : Event) : Prop :=
  match ev with
  | EvWrite _ _ | EvWriteHeader _ => True
  | _ => False
  end.


(** Events other than a write to the client connection and the start of the
    pump. *)
Definition no_client_write_no_pump (ev : Event) : Prop :=
  match ev with
  | EvPump _ _ => False
  | EvWrite (toConn clientConn) _ => False
  | _ => True
  end.

(** What was written, and to which writer. *)
Fixpoint writes (t : list Event) : list (Writer * Out) :=
  match t with
  | [] => []
  | EvWrite wr o :: t' => (wr, o) :: writes t'
  | _ :: t' => writes t'
  end.

(** The events before the pump starts; [None] when it never does. *)
Fixpoint before_pump (t : list Event) : option (list Event) :=
  match t with
  | [] => None
  | EvPump _ _ :: _ => Some []
  | ev :: t' => option_map (cons ev) (before_pump t')
  end.


Definition handler_stage (c : Call) : Prop :=
  stage c <> SConnect /\ stage c <> SAuth /\ stage c <> SFinish.

(** What the events [evs] of a run of the handler [h] that left the context
    [final] satisfy: [h] is the one handler entered, the delegate calls are
    those of a handler and respect abort. *)
Definition handler_ok (h : Handler) (evs : list Event) (final : Context) : Prop :=
  handlers evs = [h] /\
  Forall handler_stage (calls evs) /\
  disciplined (calls evs) final.

(** The WebSocket test in the words of the spec: a header contains a token
    when one of its values, split at the commas, has a piece that is the
    token once the white space around it is taken off, case aside.  Nothing
    here is computed with the functions of the program. *)

(** The string of the bytes [l]. *)
Definition of_bytes (l : list nat) : string :=
  fold_right (fun n s => String (ascii_of_nat n) s) EmptyString l.

(** The white-space characters of Unicode, in UTF-8: tab to carriage return
    and the space, then U+0085, U+00A0, U+1680, U+2000 to U+200A, U+2028,
    U+2029, U+202F, U+205F and U+3000. *)
Definition white_space : list string :=
  map of_bytes
    [[9]; [10]; [11]; [12]; [13]; [32]; [194; 133]; [194; 160];
     [225; 154; 128];
     [226; 128; 128]; [226; 128; 129]; [226; 128; 130]; [226; 128; 131];
     [226; 128; 132]; [226; 128; 133]; [226; 128; 134]; [226; 128; 135];
     [226; 128; 136]; [226; 128; 137]; [226; 128; 138];
     [226; 128; 168]; [226; 128; 169]; [226; 128; 175];
     [226; 129; 159]; [227; 128; 128]]%nat.

(** A run of white-space characters. *)
Inductive blank : string -> Prop :=
| blank_nil : blank ""
| blank_cons (r s : string) : In r white_space -> blank s -> blank (r ++ s).

Definition upper (c : ascii) : ascii :=
  let n := nat_of_ascii c in
  if ((97 <=? n) && (n <=? 122))%nat then ascii_of_nat (n - 32) else c.

Definition lower (c : ascii) : ascii :=
  let n := nat_of_ascii c in
  if ((65 <=? n) && (n <=? 90))%nat then ascii_of_nat (n + 32) else c.

(** The ways to write the character [c] of a token, case aside: as it is,
    in upper case and in lower case; Unicode also takes the Kelvin sign
    U+212A for a k and the long s U+017F for an s. *)
Definition spellings (c : ascii) : list string :=
  [String c ""; String (upper c) ""; String (lower c) ""] ++
  (if Ascii.eqb (lower c) "k" then [of_bytes [226; 132; 170]%nat] else []) ++
  (if Ascii.eqb (lower c) "s" then [of_bytes [197; 191]%nat] else []).

(** [same_word token s]: [s] is [token], case aside. *)
Inductive same_word : string -> string -> Prop :=
| same_nil : same_word "" ""
| same_cons (c : ascii) (r token s : string) :
    In r (spellings c) -> same_word token s ->
    same_word (String c token) (r ++ s).

Fixpoint join (l : list string) : string :=
  match l with
  | [] => ""
  | [p] => p
  | p :: l' => p ++ "," ++ join l'
  end.

Definition no_comma (p : string) : Prop :=
  forall a b : string, p <> a ++ "," ++ b.

(** [p] is one of the pieces of [v] between commas. *)
Definition piece_of (v p : string) : Prop :=
  exists pieces, v = join pieces /\ Forall no_comma pieces /\ In p pieces.

(** [p], white space at its two ends aside, is [token], case aside. *)
Definition is_token (token p : string) : Prop :=
  exists l core r,
    p = l ++ core ++ r /\ blank l /\ blank r /\ same_word token core.

Definition has_token (values : list string) (token : string) : Prop :=
  exists v p, In v values /\ piece_of v p /\ is_token token p.

(** A token of ASCII bytes with no white space in it. *)
Definition plain_byte (c : ascii) : bool :=
  let n := nat_of_ascii c in
  (n <? 128)%nat && negb (((9 <=? n) && (n <=? 13))%nat || (n =? 32)%nat).

Fixpoint plain (token : string) : bool :=
  match token with
  | EmptyString => true
  | String c token' => plain_byte c && plain token'
  end.

Definition is_upgrade (r : Request) : Prop :=
  has_token (Header_values (req_Header r) "Connection") "upgrade" /\
  has_token (Header_values (req_Header r) "Upgrade") "websocket".

(** ** A small environment to run the handlers in *)

Definition idDelegate : Delegate :=
  mkDelegate (fun c => c) (fun c => c) (fun c => c)
             (fun c _ => (c, (None, None)))
             (fun c _ => (c, fun r => r))
             (fun c _ => (c, fun r => r))
             (fun c => c).

Definition okResponse : Response := mkResponse 200 ∅ (mkBody [] None).

Definition env0 : Env :=
  mkEnv idDelegate (fun _ => None) true None None (inl io_EOF)
        (fun _ => None) (fun _ => None)
        (fun _ _ _ => inr okResponse)
        (fun _ => inr "")
        (fun _ => inr (mkResponse 101 ∅ (mkBody [] None)))
        (fun _ => inr "{}")
        (fun u => url_Host u) (fun _ => "") (fun _ => "") [].

Definition conn0 : Conn := mkConn false [] [] None.

Definition request0 (method : string) (h : Header) : Request :=
  mkRequest method (mkURL "" "" None "example" "/") "example" h "10.0.0.1:4000" "".

Definition world0 (r : Request) : World :=
  mkWorld (newContext r) 0 (mkRW ∅ None false []) (fun _ => conn0) [].

(** A hijacked client with three bytes to send and a target with five. *)
Definition world_pump : World :=
  mkWorld (newContext (request0 "CONNECT" ∅)) 0 (mkRW ∅ None true [])
          (fun i => match i with
                    | clientConn => mkConn false [] ["abc"] None
                    | targetConn => mkConn false [] ["hello"] None
                    | tlsClientConn => conn0
                    end) [].

(** A delegate that aborts in [Connect]. *)
Definition set_abort (b : bool) (c : Context) : Context :=
  mkContext (Req c) (Data c) (Hijack c) (MITM c) (ReqLength c) (RespLength c)
            (Closed c) b (errType c) (err c).

Definition refusingDelegate : Delegate :=
  mkDelegate (set_abort true) (fun c => c) (fun c => c)
             (fun c _ => (c, (None, None)))
             (fun c _ => (c, fun r => r))
             (fun c _ => (c, fun r => r))
             (fun c => c).

Definition env_refusing : Env :=
  mkEnv refusingDelegate (fun _ => None) true None None (inl io_EOF)
        (fun _ => None) (fun _ => None)
        (fun _ _ _ => inr okResponse)
        (fun _ => inr "")
        (fun _ => inr (mkResponse 101 ∅ (mkBody [] None)))
        (fun _ => inr "{}")
        (fun u => url_Host u) (fun _ => "") (fun _ => "") [].

(** A delegate that sends every tunnel through the parent proxy
    [http://u:p@upstream:3128]. *)
Definition parentURL : URL :=
  mkURL "http" "" (Some (mkUserinfo "u" "p")) "upstream:3128" "".

Definition env_parent : Env :=
  mkEnv (mkDelegate (fun c => c) (fun c => c) (fun c => c)
                    (fun c _ => (c, (Some parentURL, None)))
                    (fun c _ => (c, fun r => r))
                    (fun c _ => (c, fun r => r))
                    (fun c => c))
        (fun _ => None) true None None (inl io_EOF)
        (fun _ => None) (fun _ => None)
        (fun _ _ _ => inr okResponse)
        (fun _ => inr "")
        (fun _ => inr (mkResponse 101 ∅ (mkBody [] None)))
        (fun _ => inr "{}")
        (fun u => url_Host u) (fun _ => "") (fun _ => "") [].

Definition connectRequest : Request :=
  mkRequest "CONNECT" (mkURL "" "" None "example.com:443" "") "example.com:443"
            ∅ "10.0.0.1:4000" "".

(** Headers with white space and letters from beyond ASCII: the Connection
    value ends with a no-break space (C2 A0), and the second Upgrade value
    has the token after a no-break space, with the Kelvin sign (E2 84 AA)
    for its k. *)
Definition upgradeHeader : Header :=
  <["Connection" := ["upgrade" ++ of_bytes [194; 160]%nat]]>
    (<["Upgrade" :=
         ["h2c";
          of_bytes [194; 160]%nat ++ "websoc" ++ of_bytes [226; 132; 170]%nat
          ++ "et"]]> ∅).

(** A request that asks for a WebSocket upgrade. *)
Definition upgradeRequest : Request :=
  request0 "GET" (<["Connection" := ["keep-alive, Upgrade"]]>
                    (<["Upgrade" := ["WebSocket"]]> ∅)).

(** ** Counting the bytes of the pump *)

Section Counting.

Variable e : Env.

(** The bytes an event wrote to connection [i]. *)
Definition written_to (i : ConnId) (ev : Event) : Z :=
  match ev with
  | EvWrite (toConn j) o => if decide (j = i) then Z.of_nat (out_len e o) else 0
  | _ => 0
  end.

Definition bytes_to (i : ConnId) (t : list Event) : Z :=
  fold_right (fun ev acc => written_to i ev + acc) 0 t.

(** What the calls [io.Copy(i, j)] returned, in order. *)
Fixpoint copied (i j : ConnId) (t : list Event) : list (Z * option error) :=
  match t with
  | [] => []
  | EvCopied i' j' n er :: t' =>
      if decide (i' = i /\ j' = j) then (n, er) :: copied i j t' else copied i j t'
  | _ :: t' => copied i j t'
  end.

(** The events of a running pump: writes to a connection and returns of
    [io.Copy]. *)
Definition pump_event (ev : Event) : Prop :=
  match ev with
  | EvWrite (toConn _) _ | EvCopied _ _ _ _ => True
  | _ => False
  end.

Definition failure_recorded (er : option error) (c : Context) : Prop :=
  er <> None -> errType c = Some TunnelWriteConnFail.

(** Where the goroutine [copyOrWarn(ctx, i, j, wg, &field)] stands, given
    the events [evs] of the pump so far: in the loop the bytes written to
    [i] are the running count and [io.Copy] has not returned; afterwards
    it has returned once, with that count; past the check a failure is on
    the context; past the store the count is in the counter. *)
Definition copier_inv (i j : ConnId) (field : Context -> Z) (evs : list Event)
           (g : Copier) (c : Context) : Prop :=
  match g with
  | AtCopy n => bytes_to i evs = n /\ copied i j evs = []
  | AtCheck n er => bytes_to i evs = n /\ copied i j evs = [(n, er)]
  | AtStore n =>
      bytes_to i evs = n /\
      exists er, copied i j evs = [(n, er)] /\ failure_recorded er c
  | AtDone | Exited =>
      bytes_to i evs = field c /\
      exists er, copied i j evs = [(field c, er)] /\ failure_recorded er c
  end.

(** What one step of [copyOrWarn(ctx, dst, src, wg, len)] does: the events
    [new] it adds, where it stands afterwards and the context it leaves. *)
Definition step_shape (dst src : ConnId) (len : Z -> Context -> Context)
           (g : Copier) (c : Context) (new : list Event)
           (g' : Copier) (c' : Context) : Prop :=
  match g with
  | AtCopy n =>
      c' = c /\
      exists wr k,
        (wr = [] /\ k = 0 \/
         exists o, wr = [EvWrite (toConn dst) o] /\ k = Z.of_nat (out_len e o)) /\
        (new = wr /\ g' = AtCopy (n + k) \/
         exists er, new = (wr ++ [EvCopied dst src (n + k) er])%list /\
                    g' = AtCheck (n + k) er)
  | AtCheck n er =>
      new = [] /\ g' = AtStore n /\
      c' = match er with
           | Some er => SetContextErrorWithType er TunnelWriteConnFail c
           | None => c
           end
  | AtStore n => new = [] /\ g' = AtDone /\ c' = len n c
  | AtDone | Exited => new = [] /\ g' = Exited /\ c' = c
  end.

(** What the pump of [transfer(ctx, src, dst)] may do to the rest of the
    world: the log grows by pump events, the failure kind stays or becomes
    [TunnelWriteConnFail] (the latter only after a failed copy), and of the
    context only the two counters and the failure move. *)
Definition pump_frame (src dst : ConnId) (t0 : list Event) (c0 : Context)
           (evs : list Event) (w : World) : Prop :=
  trace w = (t0 ++ evs)%list /\
  Forall pump_event evs /\
  (errType (ctx w) = errType c0 \/
   errType (ctx w) = Some TunnelWriteConnFail /\
   exists n er, In (n, Some er) (copied src dst evs ++ copied dst src evs)) /\
  Req (ctx w) = Req c0 /\ Data (ctx w) = Data c0 /\ Hijack (ctx w) = Hijack c0 /\
  MITM (ctx w) = MITM c0 /\ Closed (ctx w) = Closed c0 /\ abort (ctx w) = abort c0.

(** The invariant of the pump: the frame and the two goroutines. *)
Definition pump_inv (src dst : ConnId) (t0 : list Event) (c0 : Context)
           (evs : list Event) (a b : Copier) (w : World) : Prop :=
  pump_frame src dst t0 c0 evs w /\
  copier_inv src dst RespLength evs a (ctx w) /\
  copier_inv dst src ReqLength evs b (ctx w).

End Counting.

(** * More of the code: what the properties below are stated with *)

(** ** Header utilities, continued *)

(** [removeConnectionHeaders] takes away the keys that the pieces of the first
    Connection value name, and nothing else. *)
Definition named_by_Connection (h : Header) (k : string) : bool :=
  existsb
    (fun f =>
       negb (String.eqb (GoStrings.TrimSpace f) "") &&
       String.eqb (CanonicalMIMEHeaderKey (GoStrings.TrimSpace f)) k)
    (GoStrings.Split (Header_Get h "Connection") ","%char).

Definition contentType : Header := {[ "Content-Type" := ["text/html"] ]}.


(** ** Byte streams *)


(** The bytes of a list of chunks, one after the other. *)
Fixpoint joined (l : list string) : string :=
  match l with
  | [] => ""
  | s :: l' => s ++ joined l'
  end.

Definition Writer_eqb (a b : Writer) : bool :=
  match a, b with
  | toRW, toRW => true
  | toConn i, toConn j => ConnId_eqb i j
  | _, _ => false
  end.

Section Streams.

Variable e : Env.

(** The bytes that a write delivered. *)
Fixpoint wire (o : Out) : string :=
  match o with
  | Bytes b => b
  | WireRequest r => wire_Request e r
  | WireResponse r => wire_Response e r
  | Truncated k o' => substring 0 k (wire o')
  end.

(** The bytes that went to a writer, in order. *)
Fixpoint stream (wr : Writer) (t : list Event) : string :=
  match t with
  | [] => ""
  | EvWrite wr' o :: t' =>
      if Writer_eqb wr' wr then wire o ++ stream wr t' else stream wr t'
  | _ :: t' => stream wr t'
  end.

(** The number of bytes that went to a writer. *)
Fixpoint sent (wr : Writer) (t : list Event) : Z :=
  match t with
  | [] => 0
  | EvWrite wr' o :: t' =>
      if Writer_eqb wr' wr then Z.of_nat (out_len e o) + sent wr t' else sent wr t'
  | _ :: t' => sent wr t'
  end.

(** Where a copier stands in its loop. *)
Definition reading (g : Copier) : bool :=
  match g with AtCopy _ => true | _ => false end.

(** What the copier that reads [j] and writes to [i] keeps when no write
    fails: both ends stay open, the writes to [i] keep succeeding, the bytes
    written to [i] followed by the bytes still to read from [j] are the
    bytes [all], and the bytes counted are the bytes written. *)
Definition relay_inv (i j : ConnId) (all : string) (off : Z) (g : Copier)
           (w : World) : Prop :=
  is_closed w i = false /\ is_closed w j = false /\
  wfaults (conn w i) = [] /\
  (stream (toConn i) (trace w) ++ joined (incoming (conn w j)))%string = all /\
  sent (toConn i) (trace w) =
    off + Z.of_nat (String.length (stream (toConn i) (trace w))) /\
  (reading g = false -> incoming (conn w j) = []).

End Streams.


(** ** Counting what is written *)

(** The range of a Go [int64] and of an [int32]. *)
Definition in_int64 (n : Z) : Prop := - 2 ^ 63 <= n < 2 ^ 63.

Definition in_int32 (n : Z) : Prop := - 2 ^ 31 <= n < 2 ^ 31.

(** A run of [Write] calls on one [WriterWithLength], whatever each call
    returns. *)
Fixpoint WriterWithLength_WriteAll (e : Env) (wl : WriterWithLength)
         (outs : list Out) : M WriterWithLength :=
  match outs with
  | [] => ret wl
  | o :: rest =>
      r <- WriterWithLength_Write e wl o ;;
      WriterWithLength_WriteAll e (fst r) rest
  end.

(** ** [CloneBody] *)

(** [http.NoBody]: a body that is at EOF. *)
Definition http_NoBody : Body := mkBody [] None.

(** [ioutil.ReadAll]: everything read until EOF, and the error that ended the
    reads when it is not EOF. *)
Definition ioutil_ReadAll (b : Body) : string * option error :=
  (joined (body_chunks b),
   match body_err b with
   | Some er => if is_EOF er then None else Some er
   | None => None
   end).

(** [ioutil.NopCloser(bytes.NewReader(body))]: the first read delivers the
    bytes, the next one is at EOF. *)
Definition bytes_NewReader (body : string) : Body :=
  mkBody (if String.eqb body "" then [] else [body]) None.

(** [CloneBody]: [None] is a nil body, and a nil byte slice. *)
Definition CloneBody (b : option Body) : Body * option string * option error :=
  match b with
  | None => (http_NoBody, None, None)
  | Some b =>
      match ioutil_ReadAll b with
      | (_, Some er) => (http_NoBody, None, Some er)
      | (body, None) => (bytes_NewReader body, Some body, None)
      end
  end.

(** ** What a program leaves alone *)

(** A program is quiet for [P] when every event it adds to the log is a [P],
    and it leaves the counter of open requests as it was. *)
Definition quiet {A : Type} (P : Event -> Prop) (m : M A) : Prop :=
  forall w,
    clientConnNum (snd (m w)) = clientConnNum w /\
    exists evs, trace (snd (m w)) = (trace w ++ evs)%list /\ Forall P evs.

(** Events that touch no socket: the response writer and the transport
    only. *)
Definition off_socket (ev : Event) : Prop :=
  match ev with
  | EvHijack | EvDial _ | EvClose _ | EvPump _ _ | EvCopied _ _ _ _
  | EvWrite (toConn _) _ => False
  | _ => True
  end.

(** Events other than a write to the TLS connection. *)
Definition not_TLS_write (ev : Event) : Prop :=
  match ev with
  | EvWrite (toConn tlsClientConn) _ => False
  | _ => True
  end.

Definition any_event (ev : Event) : Prop := True.

(** ** Delegates that let a request through *)

(** No callback on the way of a request sets abort. *)
Definition lets_through (d : Delegate) : Prop :=
  (forall c, abort c = false -> abort (BeforeRequest d c) = false) /\
  (forall c a, abort c = false -> abort (fst (ParentProxy d c a)) = false) /\
  (forall c x, abort c = false -> abort (fst (BeforeResponse d c x)) = false).


(** What the proxy did besides calling the delegate. *)
Fixpoint effects (t : list Event) : list Event :=
  match t with
  | [] => []
  | EvDelegate _ _ _ :: t' => effects t'
  | ev :: t' => ev :: effects t'
  end.


(** ** More environments to run the handlers in *)

(** An environment that differs from [env0] in the delegate, in what is read
    off the TLS connection, in the fate of the dials and in the answer of
    the transport. *)
Definition env_with (d : Delegate) (inner : error + Request)
           (dialer : string -> option error) (answer : error + Response) : Env :=
  mkEnv d (fun _ => None) true None None inner dialer dialer
        (fun _ _ _ => answer)
        (fun _ => inr "")
        (fun _ => inr (mkResponse 101 ∅ (mkBody [] None)))
        (fun _ => inr "{}")
        (fun u => url_Host u)
        (fun r => req_Method r ++ " " ++ url_Path (req_URL r) ++ " HTTP/1.1")
        (fun r => if resp_StatusCode r =? 101
                  then "HTTP/1.1 101 Switching Protocols"
                  else "HTTP/1.1 200 OK")
        [].

Definition pageResponse : Response :=
  mkResponse 200
    (<["Content-Type" := ["text/html"]]> (<["Connection" := ["close"]]> ∅))
    (mkBody ["<html>"; "</html>"] None).

Definition innerRequest : Request :=
  mkRequest "GET" (mkURL "" "" None "" "/") "example.com" ∅ "" "".

Definition refused : error := errorString "connection refused".

(** A delegate that sets abort in [BeforeResponse]. *)
Definition vetoDelegate : Delegate :=
  mkDelegate (fun c => c) (fun c => c) (fun c => c)
             (fun c _ => (c, (None, None)))
             (fun c _ => (set_abort true c, fun r => r))
             (fun c _ => (c, fun r => r))
             (fun c => c).


Definition env_down : Env :=
  env_with idDelegate (inl io_EOF) (fun _ => None) (inl refused).


Definition env_inner_down : Env :=
  env_with idDelegate (inr innerRequest) (fun _ => None) (inl refused).

Definition env_unreachable : Env :=
  env_with idDelegate (inl io_EOF) (fun _ => Some refused) (inr pageResponse).

Definition env_veto : Env :=
  env_with vetoDelegate (inl io_EOF) (fun _ => None) (inr pageResponse).

(** A client with three bytes to send and a target with five, before the
    hijack. *)
Definition world_tunnel : World :=
  mkWorld (newContext connectRequest) 0 (mkRW ∅ None false [])
          (fun i => match i with
                    | clientConn => mkConn false [] ["abc"] None
                    | targetConn => mkConn false [] ["hello"] None
                    | tlsClientConn => conn0
                    end) [].

(** The request that a client sends inside the TLS connection to open a
    WebSocket. *)
Definition wsInnerRequest : Request :=
  mkRequest "GET" (mkURL "" "" None "" "/chat") "example.com"
            (<["Connection" := ["Upgrade"]]> (<["Upgrade" := ["websocket"]]> ∅))
            "" "".

(** A delegate that sends everything through the parent proxy
    [parentURL]. *)
Definition parentDelegate : Delegate :=
  mkDelegate (fun c => c) (fun c => c) (fun c => c)
             (fun c _ => (c, (Some parentURL, None)))
             (fun c _ => (c, fun r => r))
             (fun c _ => (c, fun r => r))
             (fun c => c).

(** [net.Dial] refuses an empty address. *)
Definition dialNonEmpty (addr : string) : option error :=
  if String.eqb addr "" then Some (errorString "dial tcp: missing address")
  else None.

Definition env_ws : Env :=
  env_with parentDelegate (inr wsInnerRequest) dialNonEmpty (inr pageResponse).

Definition env_ws_unreachable : Env :=
  env_with idDelegate (inr wsInnerRequest) (fun _ => Some refused) (inr pageResponse).

Definition not_dial (ev : Event) : Prop :=
  match ev with
  | EvDial _ => False
  | _ => True
  end.

(** The addresses that were dialled, in order. *)
Fixpoint dials (t : list Event) : list string :=
  match t with
  | [] => []
  | EvDial addr :: t' => addr :: dials t'
  | _ :: t' => dials t'
  end.

(** ** Hijacked connections *)

(** The events after the hijack; [None] when the connection was not
    hijacked. *)
Fixpoint after_hijack (t : list Event) : option (list Event) :=
  match t with
  | [] => None
  | EvHijack :: t' => Some t'
  | _ :: t' => after_hijack t'
  end.

Definition not_hijack (ev : Event) : Prop :=
  match ev with
  | EvHijack => False
  | _ => True
  end.

(** A hijacked client connection is closed afterwards. *)
Definition closes_hijacked (evs : list Event) : Prop :=
  forall rest, after_hijack evs = Some rest -> In (EvClose clientConn) rest.
(** * Properties *)

Example split_example :
  GoStrings.Split "keep-alive, Upgrade" ","%char = ["keep-alive"; " Upgrade"].
Proof. reflexivity. Qed.

Example base64_example : Base64.EncodeToString "u:p" = "dTpw".
Proof. reflexivity. Qed.

Example canonical_example : CanonicalMIMEHeaderKey "MITM" = "Mitm".
Proof. reflexivity. Qed.

(** ** Strings *)

Lemma string_app_cons (c : ascii) (a b : string) :
  (String c a ++ b)%string = String c (a ++ b).
Proof. reflexivity. Qed.

Lemma string_app_nil_l (a : string) : ("" ++ a)%string = a.
Proof. reflexivity. Qed.

Lemma string_app_nil_r (s : string) : (s ++ "")%string = s.
Proof.
  induction s as [|c s IH]; [reflexivity|]. rewrite string_app_cons, IH. reflexivity.
Qed.

Lemma string_app_assoc (a b c : string) :
  ((a ++ b) ++ c)%string = (a ++ (b ++ c))%string.
Proof.
  induction a as [|x a IH]; [reflexivity|]. rewrite !string_app_cons, IH. reflexivity.
Qed.

(** ** Bytes *)

Lemma ascii_of_code (a : ascii) (n : nat) : nat_of_ascii a = n -> a = ascii_of_nat n.
Proof. intros <-. symmetry. apply ascii_nat_embedding. Qed.

Ltac bytes a := destruct a as [[|] [|] [|] [|] [|] [|] [|] [|]].

Lemma isSpace1_white (a : ascii) :
  GoStrings.isSpace1 a = true -> In (String a "") white_space.
Proof. bytes a; intros H; try discriminate H; vm_compute; tauto. Qed.

Lemma isSpace2_white (a b : ascii) :
  GoStrings.isSpace2 a b = true -> In (String a (String b "")) white_space.
Proof.
  unfold GoStrings.isSpace2. intros H.
  apply andb_true_iff in H. destruct H as [Ha Hb].
  apply Nat.eqb_eq, ascii_of_code in Ha. subst a.
  apply orb_true_iff in Hb.
  destruct Hb as [Hb|Hb]; apply Nat.eqb_eq, ascii_of_code in Hb; subst b;
    vm_compute; tauto.
Qed.

Lemma isSpace3_white (a b c : ascii) :
  GoStrings.isSpace3 a b c = true ->
  In (String a (String b (String c ""))) white_space.
Proof.
  unfold GoStrings.isSpace3. intros H.
  assert (Hc : (nat_of_ascii c = 128 \/ nat_of_ascii c = 129 \/ nat_of_ascii c = 130 \/
                nat_of_ascii c = 131 \/ nat_of_ascii c = 132 \/ nat_of_ascii c = 133 \/
                nat_of_ascii c = 134 \/ nat_of_ascii c = 135 \/ nat_of_ascii c = 136 \/
                nat_of_ascii c = 137 \/ nat_of_ascii c = 138 \/ nat_of_ascii c = 159 \/
                nat_of_ascii c = 168 \/ nat_of_ascii c = 169 \/
                nat_of_ascii c = 175)%nat).
  { repeat match type of H with
           | (_ || _) = true => apply orb_true_iff in H; destruct H as [H|H]
           | (_ && _) = true => apply andb_true_iff in H; destruct H as [? H]
           end;
      repeat match goal with
             | H : (_ || _) = true |- _ => apply orb_true_iff in H; destruct H as [H|H]
             | H : (_ && _) = true |- _ => apply andb_true_iff in H; destruct H as [? H]
             | H : (_ =? _)%nat = true |- _ => apply Nat.eqb_eq in H
             | H : (_ <=? _)%nat = true |- _ => apply Nat.leb_le in H
             end; lia. }
  assert (Hb : (nat_of_ascii b = 128 \/ nat_of_ascii b = 129 \/
                nat_of_ascii b = 154)%nat).
  { repeat match type of H with
           | (_ || _) = true => apply orb_true_iff in H; destruct H as [H|H]
           end;
      repeat match goal with
             | H : (_ && _) = true |- _ => apply andb_true_iff in H; destruct H as [? H]
             | H : (_ =? _)%nat = true |- _ => apply Nat.eqb_eq in H
             end; lia. }
  assert (Ha : (nat_of_ascii a = 225 \/ nat_of_ascii a = 226 \/
                nat_of_ascii a = 227)%nat).
  { repeat match type of H with
           | (_ || _) = true => apply orb_true_iff in H; destruct H as [H|H]
           end;
      repeat match goal with
             | H : (_ && _) = true |- _ => apply andb_true_iff in H; destruct H as [? H]
             | H : (_ =? _)%nat = true |- _ => apply Nat.eqb_eq in H
             end; lia. }
  repeat match goal with
         | H : _ \/ _ |- _ => destruct H as [H|H]
         end;
    apply ascii_of_code in Ha, Hb, Hc; subst a b c;
    first [ discriminate H | vm_compute; tauto ].
Qed.

Lemma blank_one (r : string) : In r white_space -> blank r.
Proof.
  intros H. rewrite <- (string_app_nil_r r). apply blank_cons; [exact H | constructor].
Qed.

Lemma blank_app (a b : string) : blank a -> blank b -> blank (a ++ b).
Proof.
  induction 1 as [|r s Hr _ IH]; intros Hb; [exact Hb|].
  rewrite string_app_assoc. apply blank_cons; [exact Hr | apply IH; exact Hb].
Qed.

(** ** [TrimSpace] takes white space off, and nothing else *)

Lemma TrimLeft_blank (s : string) :
  exists l, blank l /\ s = l ++ GoStrings.TrimLeft s.
Proof.
  remember (String.length s) as n eqn:Hn.
  revert s Hn. induction n as [n IH] using lt_wf_ind. intros s Hn.
  destruct s as [|a s1]; [exists ""; split; [constructor | reflexivity]|].
  cbn [GoStrings.TrimLeft].
  destruct (GoStrings.isSpace1 a) eqn:E1.
  { destruct (IH (String.length s1) ltac:(subst n; simpl; lia) s1 eq_refl)
      as (l & Hl & Hs).
    exists (String a "" ++ l). split.
    - apply blank_cons; [apply isSpace1_white; exact E1 | exact Hl].
    - rewrite string_app_assoc, <- Hs. reflexivity. }
  destruct s1 as [|b s2]; [exists ""; split; [constructor | reflexivity]|].
  destruct (GoStrings.isSpace2 a b) eqn:E2.
  { destruct (IH (String.length s2) ltac:(subst n; simpl; lia) s2 eq_refl)
      as (l & Hl & Hs).
    exists (String a (String b "") ++ l). split.
    - apply blank_cons; [apply isSpace2_white; exact E2 | exact Hl].
    - rewrite string_app_assoc, <- Hs. reflexivity. }
  destruct s2 as [|c s3]; [exists ""; split; [constructor | reflexivity]|].
  destruct (GoStrings.isSpace3 a b c) eqn:E3.
  { destruct (IH (String.length s3) ltac:(subst n; simpl; lia) s3 eq_refl)
      as (l & Hl & Hs).
    exists (String a (String b (String c "")) ++ l). split.
    - apply blank_cons; [apply isSpace3_white; exact E3 | exact Hl].
    - rewrite string_app_assoc, <- Hs. reflexivity. }
  exists "". split; [constructor | reflexivity].
Qed.

Lemma reverse_app (a b : string) :
  GoStrings.reverse (a ++ b) = GoStrings.reverse b ++ GoStrings.reverse a.
Proof.
  induction a as [|c a IH].
  - rewrite string_app_nil_l. cbn [GoStrings.reverse]. rewrite string_app_nil_r.
    reflexivity.
  - rewrite string_app_cons. cbn [GoStrings.reverse].
    rewrite IH, string_app_assoc. reflexivity.
Qed.

Lemma reverse_involutive (s : string) : GoStrings.reverse (GoStrings.reverse s) = s.
Proof.
  induction s as [|c s IH]; [reflexivity|].
  cbn [GoStrings.reverse]. rewrite reverse_app, IH. reflexivity.
Qed.

Lemma TrimLeftReversed_blank (s : string) :
  exists l, blank (GoStrings.reverse l) /\ s = l ++ GoStrings.TrimLeftReversed s.
Proof.
  remember (String.length s) as n eqn:Hn.
  revert s Hn. induction n as [n IH] using lt_wf_ind. intros s Hn.
  destruct s as [|c s1]; [exists ""; split; [constructor | reflexivity]|].
  cbn [GoStrings.TrimLeftReversed].
  destruct (GoStrings.isSpace1 c) eqn:E1.
  { destruct (IH (String.length s1) ltac:(subst n; simpl; lia) s1 eq_refl)
      as (l & Hl & Hs).
    exists (String c "" ++ l). split.
    - rewrite reverse_app. apply blank_app; [exact Hl|].
      apply blank_one, isSpace1_white. exact E1.
    - rewrite string_app_assoc, <- Hs. reflexivity. }
  destruct s1 as [|b s2]; [exists ""; split; [constructor | reflexivity]|].
  destruct (GoStrings.isSpace2 b c) eqn:E2.
  { destruct (IH (String.length s2) ltac:(subst n; simpl; lia) s2 eq_refl)
      as (l & Hl & Hs).
    exists (String c (String b "") ++ l). split.
    - rewrite reverse_app. apply blank_app; [exact Hl|].
      apply blank_one. apply (isSpace2_white b c). exact E2.
    - rewrite string_app_assoc, <- Hs. reflexivity. }
  destruct s2 as [|a s3]; [exists ""; split; [constructor | reflexivity]|].
  destruct (GoStrings.isSpace3 a b c) eqn:E3.
  { destruct (IH (String.length s3) ltac:(subst n; simpl; lia) s3 eq_refl)
      as (l & Hl & Hs).
    exists (String c (String b (String a "")) ++ l). split.
    - rewrite reverse_app. apply blank_app; [exact Hl|].
      apply blank_one. apply (isSpace3_white a b c). exact E3.
    - rewrite string_app_assoc, <- Hs. reflexivity. }
  exists "". split; [constructor | reflexivity].
Qed.

Lemma TrimRight_blank (s : string) :
  exists r, blank r /\ s = GoStrings.TrimRight s ++ r.
Proof.
  unfold GoStrings.TrimRight.
  destruct (TrimLeftReversed_blank (GoStrings.reverse s)) as (l & Hl & Hs).
  exists (GoStrings.reverse l). split; [exact Hl|].
  rewrite <- reverse_app, <- Hs, reverse_involutive. reflexivity.
Qed.

(** What [TrimSpace] takes off is white space. *)
Lemma TrimSpace_blank (s : string) :
  exists l r, blank l /\ blank r /\ s = l ++ GoStrings.TrimSpace s ++ r.
Proof.
  destruct (TrimLeft_blank s) as (l & Hl & Hs).
  destruct (TrimRight_blank (GoStrings.TrimLeft s)) as (r & Hr & Ht).
  exists l, r. split; [exact Hl|]. split; [exact Hr|].
  unfold GoStrings.TrimSpace. rewrite <- Ht. exact Hs.
Qed.

Lemma TrimLeft_white (r x : string) :
  In r white_space -> GoStrings.TrimLeft (r ++ x) = GoStrings.TrimLeft x.
Proof.
  intros H. vm_compute in H.
  repeat (destruct H as [<-|H]; [reflexivity|]). contradiction.
Qed.

Lemma TrimLeft_blank_app (l x : string) :
  blank l -> GoStrings.TrimLeft (l ++ x) = GoStrings.TrimLeft x.
Proof.
  induction 1 as [|r s Hr _ IH]; [reflexivity|].
  rewrite string_app_assoc, TrimLeft_white by exact Hr. exact IH.
Qed.

Lemma TrimLeftReversed_white (r x : string) :
  In r white_space ->
  GoStrings.TrimLeftReversed (GoStrings.reverse r ++ x) = GoStrings.TrimLeftReversed x.
Proof.
  intros H. vm_compute in H.
  repeat (destruct H as [<-|H]; [reflexivity|]). contradiction.
Qed.

Lemma TrimLeftReversed_blank_app (r x : string) :
  blank r ->
  GoStrings.TrimLeftReversed (GoStrings.reverse r ++ x) = GoStrings.TrimLeftReversed x.
Proof.
  intros H. revert x. induction H as [|e s He _ IH]; intros x; [reflexivity|].
  rewrite reverse_app, string_app_assoc, IH.
  apply TrimLeftReversed_white. exact He.
Qed.

(** ** A word that is a token, case aside, has no white space at its ends *)

Lemma plain_byte_ascii (d : ascii) :
  plain_byte d = true -> (nat_of_ascii d < 128)%nat /\ GoStrings.isSpace1 d = false.
Proof.
  unfold plain_byte, GoStrings.isSpace1. intros H.
  apply andb_true_iff in H. destruct H as [H1 H2].
  apply Nat.ltb_lt in H1. apply negb_true_iff in H2. auto.
Qed.

Lemma isSpace2_ascii_l (d b : ascii) :
  (nat_of_ascii d < 128)%nat -> GoStrings.isSpace2 d b = false.
Proof.
  intros H. unfold GoStrings.isSpace2.
  replace (nat_of_ascii d =? 194)%nat with false; [reflexivity|].
  symmetry. apply Nat.eqb_neq. lia.
Qed.

Lemma isSpace2_ascii_r (b d : ascii) :
  (nat_of_ascii d < 128)%nat -> GoStrings.isSpace2 b d = false.
Proof.
  intros H. unfold GoStrings.isSpace2.
  replace (nat_of_ascii d =? 133)%nat with false by (symmetry; apply Nat.eqb_neq; lia).
  replace (nat_of_ascii d =? 160)%nat with false by (symmetry; apply Nat.eqb_neq; lia).
  apply andb_false_r.
Qed.

Lemma isSpace3_ascii_l (d b c : ascii) :
  (nat_of_ascii d < 128)%nat -> GoStrings.isSpace3 d b c = false.
Proof.
  intros H. unfold GoStrings.isSpace3.
  replace (nat_of_ascii d =? 225)%nat with false by (symmetry; apply Nat.eqb_neq; lia).
  replace (nat_of_ascii d =? 226)%nat with false by (symmetry; apply Nat.eqb_neq; lia).
  replace (nat_of_ascii d =? 227)%nat with false by (symmetry; apply Nat.eqb_neq; lia).
  reflexivity.
Qed.

Lemma isSpace3_ascii_r (a b d : ascii) :
  (nat_of_ascii d < 128)%nat -> GoStrings.isSpace3 a b d = false.
Proof.
  intros H. unfold GoStrings.isSpace3.
  replace (nat_of_ascii d =? 128)%nat with false by (symmetry; apply Nat.eqb_neq; lia).
  replace (nat_of_ascii d =? 159)%nat with false by (symmetry; apply Nat.eqb_neq; lia).
  replace (nat_of_ascii d =? 168)%nat with false by (symmetry; apply Nat.eqb_neq; lia).
  replace (nat_of_ascii d =? 169)%nat with false by (symmetry; apply Nat.eqb_neq; lia).
  replace (nat_of_ascii d =? 175)%nat with false by (symmetry; apply Nat.eqb_neq; lia).
  replace (128 <=? nat_of_ascii d)%nat with false by (symmetry; apply Nat.leb_gt; lia).
  cbn [andb orb]. rewrite !andb_false_r. reflexivity.
Qed.

Lemma isSpace3_mid (a b c : ascii) :
  nat_of_ascii b <> 154%nat -> nat_of_ascii b <> 128%nat -> nat_of_ascii b <> 129%nat ->
  GoStrings.isSpace3 a b c = false.
Proof.
  intros H1 H2 H3. unfold GoStrings.isSpace3.
  replace (nat_of_ascii b =? 154)%nat with false by (symmetry; apply Nat.eqb_neq; lia).
  replace (nat_of_ascii b =? 128)%nat with false by (symmetry; apply Nat.eqb_neq; lia).
  replace (nat_of_ascii b =? 129)%nat with false by (symmetry; apply Nat.eqb_neq; lia).
  rewrite !andb_false_r. reflexivity.
Qed.

(** A spelling of a plain byte is a plain byte, the Kelvin sign or the long
    s. *)
Lemma spelling_cases (c : ascii) (r : string) :
  plain_byte c = true -> In r (spellings c) ->
  (exists d, r = String d "" /\ plain_byte d = true) \/
  r = of_bytes [226; 132; 170]%nat \/ r = of_bytes [197; 191]%nat.
Proof.
  intros Hc Hr. bytes c; try discriminate Hc; vm_compute in Hr;
    repeat (destruct Hr as [<-|Hr];
            [first [ left; eexists; split; reflexivity
                   | right; left; reflexivity
                   | right; right; reflexivity ]|]);
    contradiction.
Qed.

Lemma TrimLeft_spelling (c : ascii) (r y : string) :
  plain_byte c = true -> In r (spellings c) ->
  GoStrings.TrimLeft (r ++ y) = r ++ y.
Proof.
  intros Hc Hr.
  destruct (spelling_cases c r Hc Hr) as [(d & -> & Hd)|[->| ->]].
  - destruct (plain_byte_ascii d Hd) as [Hlt Hsp].
    rewrite string_app_cons, string_app_nil_l. cbn [GoStrings.TrimLeft].
    rewrite Hsp. destruct y as [|b y]; [reflexivity|].
    rewrite isSpace2_ascii_l by exact Hlt. destruct y as [|c0 y]; [reflexivity|].
    rewrite isSpace3_ascii_l by exact Hlt. reflexivity.
  - reflexivity.
  - destruct y as [|b y]; reflexivity.
Qed.

Lemma TrimLeftReversed_spelling (c : ascii) (r y : string) :
  plain_byte c = true -> In r (spellings c) ->
  GoStrings.TrimLeftReversed (GoStrings.reverse r ++ y) = GoStrings.reverse r ++ y.
Proof.
  intros Hc Hr.
  destruct (spelling_cases c r Hc Hr) as [(d & -> & Hd)|[->| ->]].
  - destruct (plain_byte_ascii d Hd) as [Hlt Hsp].
    change (GoStrings.reverse (String d "") ++ y) with (String d y).
    cbn [GoStrings.TrimLeftReversed].
    rewrite Hsp. destruct y as [|b y]; [reflexivity|].
    rewrite isSpace2_ascii_r by exact Hlt. destruct y as [|a y]; [reflexivity|].
    rewrite isSpace3_ascii_r by exact Hlt. reflexivity.
  - reflexivity.
  - change (GoStrings.reverse (of_bytes [197; 191]%nat) ++ y)
      with (String (ascii_of_nat 191) (String (ascii_of_nat 197) y)).
    cbn [GoStrings.TrimLeftReversed].
    change (GoStrings.isSpace1 (ascii_of_nat 191)) with false.
    change (GoStrings.isSpace2 (ascii_of_nat 197) (ascii_of_nat 191)) with false.
    cbv iota. destruct y as [|a y]; [reflexivity|].
    rewrite isSpace3_mid; [reflexivity| | |]; vm_compute; discriminate.
Qed.

Lemma same_word_nil (s : string) : same_word "" s -> s = "".
Proof. intros H. inversion H. reflexivity. Qed.

Lemma same_word_last (token core : string) :
  plain token = true -> same_word token core -> token <> "" ->
  exists t r c, core = t ++ r /\ In r (spellings c) /\ plain_byte c = true.
Proof.
  intros Hp H. induction H as [|c r token s Hr Hs IH]; intros Hne; [contradiction|].
  cbn [plain] in Hp. apply andb_true_iff in Hp. destruct Hp as [Hc Hp].
  destruct token as [|c' token].
  - apply same_word_nil in Hs. subst s.
    exists "", r, c. rewrite string_app_nil_r. auto.
  - destruct (IH Hp ltac:(discriminate)) as (t & r0 & c0 & -> & Hr0 & Hc0).
    exists (r ++ t), r0, c0. rewrite string_app_assoc. auto.
Qed.

(** [TrimSpace] gives back a word that is a plain token, case aside, from
    the white space put around it. *)
Lemma TrimSpace_word (token l core r : string) :
  plain token = true -> same_word token core -> blank l -> blank r ->
  GoStrings.TrimSpace (l ++ core ++ r) = core.
Proof.
  intros Hp Hw Hl Hr. unfold GoStrings.TrimSpace.
  rewrite TrimLeft_blank_app by exact Hl.
  destruct token as [|c token].
  - apply same_word_nil in Hw. subst core. rewrite string_app_nil_l.
    rewrite <- (string_app_nil_r r), TrimLeft_blank_app by exact Hr. reflexivity.
  - assert (Hstart : GoStrings.TrimLeft (core ++ r) = core ++ r).
    { inversion Hw as [|c1 r1 token1 s1 Hr1 Hs1]; subst.
      cbn [plain] in Hp. apply andb_true_iff in Hp. destruct Hp as [Hc _].
      rewrite string_app_assoc. apply (TrimLeft_spelling c); assumption. }
    rewrite Hstart. unfold GoStrings.TrimRight.
    rewrite reverse_app.
    rewrite <- (string_app_nil_r (GoStrings.reverse core)).
    rewrite TrimLeftReversed_blank_app by exact Hr.
    destruct (same_word_last _ _ Hp Hw ltac:(discriminate))
      as (t & r0 & c0 & -> & Hr0 & Hc0).
    rewrite reverse_app, string_app_assoc.
    rewrite (TrimLeftReversed_spelling c0) by assumption.
    rewrite <- string_app_assoc, string_app_nil_r, <- reverse_app.
    apply reverse_involutive.
Qed.

(** ** [EqualFold] on a plain token is equality, case aside *)

Lemma lower_toLower (c : ascii) : lower c = GoStrings.toLower c.
Proof. reflexivity. Qed.

Lemma toLower_inv (b d : ascii) :
  GoStrings.toLower b = d -> b = d \/ b = upper d.
Proof.
  intros H. bytes b; vm_compute in H; subst d;
    first [left; reflexivity | right; reflexivity].
Qed.

Lemma upper_lower (a : ascii) : upper (lower a) = a \/ upper (lower a) = upper a.
Proof. bytes a; first [left; reflexivity | right; reflexivity]. Qed.

Lemma spelling_fold (c : ascii) (r : string) :
  plain_byte c = true -> In r (spellings c) ->
  forall token s,
    GoStrings.EqualFold (String c token) (r ++ s) = GoStrings.EqualFold token s.
Proof.
  intros Hc Hr token s. bytes c; try discriminate Hc; vm_compute in Hr;
    repeat (destruct Hr as [<-|Hr]; [reflexivity|]); contradiction.
Qed.

Lemma same_word_EqualFold (token s : string) :
  plain token = true -> same_word token s -> GoStrings.EqualFold token s = true.
Proof.
  intros Hp H. induction H as [|c r token s Hr Hs IH]; [reflexivity|].
  cbn [plain] in Hp. apply andb_true_iff in Hp. destruct Hp as [Hc Hp].
  rewrite (spelling_fold c r Hc Hr). apply IH. exact Hp.
Qed.

Lemma EqualFold_same_word (token : string) :
  forall s, GoStrings.EqualFold token s = true -> same_word token s.
Proof.
  induction token as [|a token IH]; intros s H.
  - destruct s; [constructor | discriminate H].
  - destruct s as [|b t1]; [discriminate H|].
    cbn [GoStrings.EqualFold] in H.
    destruct (GoStrings.isASCII b) eqn:Eb.
    + apply andb_true_iff in H. destruct H as [Hab Ht].
      apply Ascii.eqb_eq in Hab. symmetry in Hab.
      change (String b t1) with (String b "" ++ t1).
      apply same_cons; [|apply IH; exact Ht].
      unfold spellings. apply in_or_app. left.
      change (GoStrings.toLower a) with (lower a) in Hab.
      destruct (toLower_inv b _ Hab) as [-> | ->].
      * right. right. left. reflexivity.
      * destruct (upper_lower a) as [-> | ->]; [left | right; left]; reflexivity.
    + destruct t1 as [|b2 t2]; [discriminate H|].
      destruct (GoStrings.isLongS b b2) eqn:El.
      * apply andb_true_iff in H. destruct H as [Ha Ht].
        unfold GoStrings.isLongS in El. apply andb_true_iff in El.
        destruct El as [E1 E2].
        apply Nat.eqb_eq, ascii_of_code in E1, E2. subst b b2.
        change (String (ascii_of_nat 197) (String (ascii_of_nat 191) t2))
          with (of_bytes [197; 191]%nat ++ t2).
        apply same_cons; [|apply IH; exact Ht].
        unfold spellings. apply in_or_app. right. apply in_or_app. right.
        rewrite lower_toLower, Ha. left. reflexivity.
      * destruct t2 as [|b3 t3]; [discriminate H|].
        apply andb_true_iff in H. destruct H as [H Ht].
        apply andb_true_iff in H. destruct H as [Ek Ha].
        unfold GoStrings.isKelvin in Ek. apply andb_true_iff in Ek.
        destruct Ek as [Ek E3]. apply andb_true_iff in Ek. destruct Ek as [E1 E2].
        apply Nat.eqb_eq, ascii_of_code in E1, E2, E3. subst b b2 b3.
        change (String (ascii_of_nat 226)
                  (String (ascii_of_nat 132) (String (ascii_of_nat 170) t3)))
          with (of_bytes [226; 132; 170]%nat ++ t3).
        apply same_cons; [|apply IH; exact Ht].
        unfold spellings. apply in_or_app. right. apply in_or_app. left.
        rewrite lower_toLower, Ha. left. reflexivity.
Qed.

(** ** [Split] gives the pieces between the commas *)

Lemma no_comma_cons (c : ascii) (p : string) :
  no_comma (String c p) -> c <> ","%char /\ no_comma p.
Proof.
  intros H. split.
  - intros ->. apply (H "" p). reflexivity.
  - intros a b ->. apply (H (String c a) b). reflexivity.
Qed.

Lemma no_comma_nil : no_comma "".
Proof. intros [|c a] b H; discriminate H. Qed.

Lemma cons_no_comma (c : ascii) (p : string) :
  c <> ","%char -> no_comma p -> no_comma (String c p).
Proof.
  intros Hc Hp [|x a] b H.
  - rewrite string_app_nil_l, string_app_cons in H. inversion H. congruence.
  - rewrite string_app_cons in H. inversion H. subst. apply (Hp a b). reflexivity.
Qed.

Lemma Split_not_nil (v : string) : GoStrings.Split v ","%char <> [].
Proof.
  induction v as [|c v IH]; simpl; [discriminate|].
  destruct (Ascii.eqb c ","); [discriminate|].
  destruct (GoStrings.Split v ","); discriminate.
Qed.

Lemma Split_piece (p rest : string) :
  no_comma p ->
  GoStrings.Split (p ++ "," ++ rest) ","%char = p :: GoStrings.Split rest ","%char.
Proof.
  induction p as [|c p IH]; intros Hp; [reflexivity|].
  apply no_comma_cons in Hp. destruct Hp as [Hc Hp].
  rewrite string_app_cons. cbn [GoStrings.Split].
  apply Ascii.eqb_neq in Hc. rewrite Hc, IH by exact Hp. reflexivity.
Qed.

Lemma Split_one (p : string) : no_comma p -> GoStrings.Split p ","%char = [p].
Proof.
  induction p as [|c p IH]; intros Hp; [reflexivity|].
  apply no_comma_cons in Hp. destruct Hp as [Hc Hp].
  cbn [GoStrings.Split]. apply Ascii.eqb_neq in Hc. rewrite Hc, IH by exact Hp.
  reflexivity.
Qed.

Lemma Split_join (pieces : list string) :
  pieces <> [] -> Forall no_comma pieces ->
  GoStrings.Split (join pieces) ","%char = pieces.
Proof.
  induction pieces as [|p pieces IH]; intros Hne Hall; [contradiction|].
  inversion Hall as [|? ? Hp Hrest]; subst.
  destruct pieces as [|q pieces].
  - apply Split_one. exact Hp.
  - change (join (p :: q :: pieces)) with (p ++ "," ++ join (q :: pieces)).
    rewrite Split_piece by exact Hp. rewrite IH; [reflexivity|discriminate|exact Hrest].
Qed.

Lemma join_cons (c : ascii) (f : string) (fs : list string) :
  join (String c f :: fs) = String c (join (f :: fs)).
Proof. destruct fs; reflexivity. Qed.

Lemma join_Split (v : string) : join (GoStrings.Split v ","%char) = v.
Proof.
  induction v as [|c v IH]; [reflexivity|].
  cbn [GoStrings.Split]. pose proof (Split_not_nil v) as Hne.
  destruct (Ascii.eqb c ",") eqn:E.
  - apply Ascii.eqb_eq in E. subst c.
    destruct (GoStrings.Split v ",") as [|f fs]; [contradiction|].
    change (join ("" :: f :: fs)) with ("" ++ "," ++ join (f :: fs)).
    rewrite IH. reflexivity.
  - destruct (GoStrings.Split v ",") as [|f fs]; [contradiction|].
    rewrite join_cons, IH. reflexivity.
Qed.

Lemma Split_no_comma (v : string) : Forall no_comma (GoStrings.Split v ","%char).
Proof.
  induction v as [|c v IH]; [repeat constructor; apply no_comma_nil|].
  cbn [GoStrings.Split]. destruct (Ascii.eqb c ",") eqn:E.
  - constructor; [apply no_comma_nil | exact IH].
  - apply Ascii.eqb_neq in E.
    destruct (GoStrings.Split v ",") as [|f fs].
    + repeat constructor. apply cons_no_comma; [exact E | apply no_comma_nil].
    + inversion IH; subst. constructor; [|assumption].
      apply cons_no_comma; assumption.
Qed.

Lemma Split_pieces (v p : string) :
  In p (GoStrings.Split v ","%char) <-> piece_of v p.
Proof.
  split.
  - intros H. exists (GoStrings.Split v ","%char).
    split; [symmetry; apply join_Split|]. split; [apply Split_no_comma | exact H].
  - intros (pieces & -> & Hall & Hin).
    rewrite Split_join; [exact Hin| |exact Hall].
    intros ->. contradiction.
Qed.

(** ** The token test of the program is the one of the spec *)

Lemma EqualFold_TrimSpace (token p : string) :
  plain token = true ->
  GoStrings.EqualFold token (GoStrings.TrimSpace p) = true <-> is_token token p.
Proof.
  intros Hp. split.
  - intros H. destruct (TrimSpace_blank p) as (l & r & Hl & Hr & Hs).
    exists l, (GoStrings.TrimSpace p), r.
    split; [exact Hs|]. split; [exact Hl|]. split; [exact Hr|].
    apply EqualFold_same_word. exact H.
  - intros (l & core & r & -> & Hl & Hr & Hw).
    rewrite (TrimSpace_word token) by assumption.
    apply same_word_EqualFold; assumption.
Qed.

(** ** Header utilities *)

Lemma shrinks_refl (h : Header) : shrinks h h.
Proof. intros k. right. reflexivity. Qed.

Lemma shrinks_trans (h1 h2 h3 : Header) :
  shrinks h1 h2 -> shrinks h2 h3 -> shrinks h1 h3.
Proof.
  intros H12 H23 k. destruct (H23 k) as [H|H]; [left; exact H|].
  rewrite H. apply H12.
Qed.

Lemma shrinks_Del (h : Header) (key : string) : shrinks h (Header_Del h key).
Proof.
  intros k. unfold Header_Del.
  destruct (decide (CanonicalMIMEHeaderKey key = k)) as [->|Hne].
  - left. apply lookup_delete_eq.
  - right. apply lookup_delete_ne. exact Hne.
Qed.

Lemma shrinks_fold {A : Type} (step : Header -> A -> Header) (l : list A) :
  (forall h x, shrinks h (step h x)) ->
  forall h, shrinks h (fold_left step l h).
Proof.
  intros Hstep. induction l as [|x l IH]; intros h; simpl.
  - apply shrinks_refl.
  - eapply shrinks_trans; [apply Hstep | apply IH].
Qed.

Lemma shrinks_None (h h' : Header) (k : string) :
  shrinks h h' -> h !! k = None -> h' !! k = None.
Proof. intros Hs Hk. destruct (Hs k) as [H|H]; congruence. Qed.

Lemma shrinks_Get (h h' : Header) (key : string) :
  shrinks h h' -> Header_Get h key = "" -> Header_Get h' key = "".
Proof.
  unfold Header_Get. intros Hs.
  destruct (Hs (CanonicalMIMEHeaderKey key)) as [H|H]; rewrite H; auto.
Qed.

Lemma CloneHeader_id (h : Header) : CloneHeader h = h.
Proof.
  unfold CloneHeader. apply map_eq. intros k. rewrite lookup_fmap.
  destruct (h !! k) as [vv|]; simpl; [|reflexivity].
  rewrite firstn_all. reflexivity.
Qed.

(** A step of a fold that removes what [x] names leaves it removed at the
    end of the fold, when no step adds anything. *)
Lemma fold_removed {A : Type} (step : Header -> A -> Header) (P : Header -> Prop)
      (l : list A) (x : A) :
  (forall h y, shrinks h (step h y)) ->
  (forall h h', shrinks h h' -> P h -> P h') ->
  (forall h, P (step h x)) ->
  In x l ->
  forall h, P (fold_left step l h).
Proof.
  intros Hstep Hmono Hx. induction l as [|y l IH]; intros Hin h; [destruct Hin|].
  simpl. destruct Hin as [->|Hin]; [|apply IH; exact Hin].
  eapply Hmono; [apply shrinks_fold; exact Hstep | apply Hx].
Qed.

Lemma removeConnectionHeaders_shrinks (h : Header) :
  shrinks h (removeConnectionHeaders h).
Proof.
  unfold removeConnectionHeaders.
  destruct (String.eqb (Header_Get h "Connection") ""); [apply shrinks_refl|].
  apply shrinks_fold. intros h0 f.
  destruct (String.eqb (GoStrings.TrimSpace f) ""); [apply shrinks_refl | apply shrinks_Del].
Qed.

(** The headers named by the tokens of the first Connection value are
    removed. *)
Lemma removeConnectionHeaders_tokens (h : Header) (f : string) :
  In f (GoStrings.Split (Header_Get h "Connection") ","%char) ->
  GoStrings.TrimSpace f <> "" ->
  removeConnectionHeaders h !! CanonicalMIMEHeaderKey (GoStrings.TrimSpace f) = None.
Proof.
  intros Hin Hne. unfold removeConnectionHeaders.
  destruct (String.eqb (Header_Get h "Connection") "") eqn:E.
  - apply String.eqb_eq in E. rewrite E in Hin. simpl in Hin.
    destruct Hin as [<-|[]]. exfalso. apply Hne. reflexivity.
  - apply (fold_removed _
             (fun h0 => h0 !! CanonicalMIMEHeaderKey (GoStrings.TrimSpace f) = None)
             _ f).
    + intros h0 y.
      destruct (String.eqb (GoStrings.TrimSpace y) "");
        [apply shrinks_refl | apply shrinks_Del].
    + intros h1 h2 Hs. apply shrinks_None. exact Hs.
    + intros h0. apply String.eqb_neq in Hne. rewrite Hne.
      apply lookup_delete_eq.
    + exact Hin.
Qed.

(** On a response no hop-by-hop header is left. *)
Lemma stripResponseHeaders_hop (h : Header) (item : string) :
  In item hopHeaders -> stripResponseHeaders h !! item = None.
Proof.
  intros Hin. unfold stripResponseHeaders.
  assert (Hcanon : CanonicalMIMEHeaderKey item = item).
  { simpl in Hin. repeat (destruct Hin as [<-|Hin]; [reflexivity|]). destruct Hin. }
  apply (fold_removed (fun h0 x => Header_Del h0 x) (fun h0 => h0 !! item = None)
                      hopHeaders item).
  - intros h0 y. apply shrinks_Del.
  - intros h1 h2 Hs. apply shrinks_None. exact Hs.
  - intros h0. unfold Header_Del. rewrite Hcanon. apply lookup_delete_eq.
  - exact Hin.
Qed.

Lemma stripResponseHeaders_tokens (h : Header) (f : string) :
  In f (GoStrings.Split (Header_Get h "Connection") ","%char) ->
  GoStrings.TrimSpace f <> "" ->
  stripResponseHeaders h !! CanonicalMIMEHeaderKey (GoStrings.TrimSpace f) = None.
Proof.
  intros Hin Hne. unfold stripResponseHeaders.
  eapply shrinks_None.
  - apply shrinks_fold. intros h0 y. apply shrinks_Del.
  - apply removeConnectionHeaders_tokens; assumption.
Qed.

(** On a request a hop-by-hop header that is left has an empty first value,
    and so has a MITM header that is left. *)
Lemma stripRequestHeaders_hop (h : Header) (item : string) :
  In item hopHeaders -> Header_Get (stripRequestHeaders h) item = "".
Proof.
  intros Hin. unfold stripRequestHeaders.
  apply (fold_removed
           (fun h0 x => if negb (String.eqb (Header_Get h0 x) "")
                        then Header_Del h0 x else h0)
           (fun h0 => Header_Get h0 item = "") hopHeaders item).
  - intros h0 y. destruct (negb _); [apply shrinks_Del | apply shrinks_refl].
  - intros h1 h2 Hs. apply shrinks_Get. exact Hs.
  - intros h0. destruct (String.eqb (Header_Get h0 item) "") eqn:E; simpl.
    + apply String.eqb_eq. exact E.
    + unfold Header_Get, Header_Del. rewrite lookup_delete_eq. reflexivity.
  - exact Hin.
Qed.

Lemma stripRequestHeaders_shrinks (h : Header) : shrinks h (stripRequestHeaders h).
Proof.
  unfold stripRequestHeaders. rewrite CloneHeader_id.
  apply (shrinks_trans h (removeMITMHeaders h));
    [|apply (shrinks_trans _ (removeConnectionHeaders (removeMITMHeaders h)))].
  - unfold removeMITMHeaders.
    destruct (String.eqb (Header_Get h "MITM") "");
      [apply shrinks_refl | apply shrinks_Del].
  - apply removeConnectionHeaders_shrinks.
  - apply shrinks_fold. intros h0 y.
    destruct (negb _); [apply shrinks_Del | apply shrinks_refl].
Qed.

Lemma stripRequestHeaders_MITM (h : Header) :
  Header_Get (stripRequestHeaders h) "MITM" = "".
Proof.
  unfold stripRequestHeaders. rewrite CloneHeader_id.
  apply (shrinks_Get (removeMITMHeaders h)).
  - eapply shrinks_trans; [apply removeConnectionHeaders_shrinks|].
    apply shrinks_fold. intros h0 y.
    destruct (negb _); [apply shrinks_Del | apply shrinks_refl].
  - unfold removeMITMHeaders.
    destruct (String.eqb (Header_Get h "MITM") "") eqn:E.
    + apply String.eqb_eq. exact E.
    + unfold Header_Get, Header_Del. rewrite lookup_delete_eq. reflexivity.
Qed.

Lemma removeMITMHeaders_Connection (h : Header) :
  Header_Get (removeMITMHeaders h) "Connection" = Header_Get h "Connection".
Proof.
  unfold removeMITMHeaders.
  destruct (String.eqb (Header_Get h "MITM") ""); [reflexivity|].
  unfold Header_Get, Header_Del. rewrite lookup_delete_ne; [reflexivity|].
  vm_compute. discriminate.
Qed.

(** On a request the headers named by the tokens of the first Connection
    value are removed. *)
Lemma stripRequestHeaders_tokens (h : Header) (f : string) :
  In f (GoStrings.Split (Header_Get h "Connection") ","%char) ->
  GoStrings.TrimSpace f <> "" ->
  stripRequestHeaders h !! CanonicalMIMEHeaderKey (GoStrings.TrimSpace f) = None.
Proof.
  intros Hin Hne. unfold stripRequestHeaders. rewrite CloneHeader_id.
  eapply shrinks_None.
  - apply shrinks_fold. intros h0 y.
    destruct (negb _); [apply shrinks_Del | apply shrinks_refl].
  - apply removeConnectionHeaders_tokens; [|exact Hne].
    rewrite removeMITMHeaders_Connection. exact Hin.
Qed.

(** ** Close-once guard *)

Lemma run_closes_closed (calls : list CloseCall) (w : World) :
  Closed (ctx w) = true -> run_closes calls w = (Normal tt, w).
Proof.
  intros Hc. induction calls as [|c calls IH]; [reflexivity|].
  simpl. unfold bind.
  destruct c; simpl; unfold CloseResponseBody, CloseNetConn, bind, getCtx;
    rewrite Hc; simpl; exact IH.
Qed.

(** C9: over any sequence of calls to CloseResponseBody and CloseNetConn, the
    only close performed is that of the first call, and only when Closed was
    false; Closed is then true, and it stays as it was when it was true. *)
Theorem close_once :
  forall (calls : list CloseCall) (w : World),
    let w' := snd (run_closes calls w) in
    fst (run_closes calls w) = Normal tt /\
    trace w' =
      (trace w ++
       (if Closed (ctx w) then []
        else match calls with [] => [] | c :: _ => [close_event c] end))%list /\
    Closed (ctx w') =
      (Closed (ctx w) || match calls with [] => false | _ :: _ => true end).
Proof.
  intros calls w. simpl.
  destruct (Closed (ctx w)) eqn:Hc.
  - rewrite run_closes_closed by exact Hc. simpl.
    rewrite app_nil_r, Hc. auto.
  - destruct calls as [|c calls].
    + simpl. rewrite app_nil_r, Hc. auto.
    + simpl. unfold bind.
      destruct c as [r|i]; [|destruct i]; simpl;
        unfold CloseResponseBody, CloseNetConn, bind, getCtx, emit, conn_Close,
               modifyCtx; rewrite Hc; simpl;
        rewrite run_closes_closed by reflexivity; simpl; auto.
Qed.

(** ** The byte pump *)

Lemma ConnId_eqb_eq (a b : ConnId) : ConnId_eqb a b = true <-> a = b.
Proof. destruct a, b; simpl; split; intros H; try reflexivity; discriminate. Qed.

Lemma ConnId_eqb_refl (a : ConnId) : ConnId_eqb a a = true.
Proof. destruct a; reflexivity. Qed.

Lemma ConnId_eqb_ne (a b : ConnId) : a <> b -> ConnId_eqb a b = false.
Proof. destruct a, b; simpl; intros H; try reflexivity; contradiction. Qed.

Section Pump.

Variable e : Env.

Lemma bytes_to_app (i : ConnId) (t1 t2 : list Event) :
  bytes_to e i (t1 ++ t2) = bytes_to e i t1 + bytes_to e i t2.
Proof.
  induction t1 as [|ev t1 IH]; simpl; [reflexivity|]. rewrite IH. lia.
Qed.

Lemma copied_app (i j : ConnId) (t1 t2 : list Event) :
  copied i j (t1 ++ t2) = (copied i j t1 ++ copied i j t2)%list.
Proof.
  induction t1 as [|ev t1 IH]; simpl; [reflexivity|].
  destruct ev; try exact IH. case_decide; simpl; rewrite IH; reflexivity.
Qed.

Lemma out_len_write_fault (o : Out) (f : option nat) :
  out_len e (fst (fst (write_fault e o f))) = snd (fst (write_fault e o f)).
Proof. destruct f; reflexivity. Qed.

(** A write adds at most one event, a write to its connection of as many
    bytes as it returns, and leaves the context alone. *)
Lemma write_conn_spec (i : ConnId) (o : Out) (w : World) :
  let '(k, _, w') := write_conn e i o w in
  ctx w' = ctx w /\
  (forall j, incoming (conn w' j) = incoming (conn w j)) /\
  (trace w' = trace w /\ k = 0%nat \/
   exists o', trace w' = (trace w ++ [EvWrite (toConn i) o'])%list /\ k = out_len e o').
Proof.
  unfold write_conn. destruct (is_closed w i).
  - repeat split; auto.
  - pose proof (out_len_write_fault o (hd None (wfaults (conn w i)))) as Hlen.
    destruct (write_fault e o (hd None (wfaults (conn w i)))) as [[o' n] er].
    simpl in Hlen. repeat split.
    + intros j. simpl.
      destruct (ConnId_eqb j i) eqn:E; [apply ConnId_eqb_eq in E; subst|];
        reflexivity.
    + right. exists o'. simpl. auto.
Qed.

Ltac step_cases dst src g w :=
  unfold copy_step;
  destruct g as [n|n er|n| |]; simpl;
  [ destruct (is_closed w src); simpl;
    [ | destruct (incoming (conn w src)) as [|chunk rest] eqn:Hin; simpl;
        [ | destruct (String.eqb chunk ""); simpl;
            [ | match goal with
                | |- context [write_conn e dst ?o ?w1] =>
                    let H := fresh "Hw" in
                    pose proof (write_conn_spec dst o w1) as H;
                    destruct (write_conn e dst o w1) as [[k er'] w2];
                    destruct H as (Hctx & Hinc & Htr);
                    destruct er'; simpl
                end ] ] ]
  | destruct er; simpl
  | | | ].

Lemma copy_step_effect (dst src : ConnId) (len : Z -> Context -> Context)
      (g : Copier) (w : World) :
  exists new,
    trace (snd (copy_step e dst src len g w)) = (trace w ++ new)%list /\
    step_shape e dst src len g (ctx w) new
               (fst (copy_step e dst src len g w))
               (ctx (snd (copy_step e dst src len g w))).
Proof.
  step_cases dst src g w.
  - exists [EvCopied dst src n (Some errClosed)]. split; [reflexivity|].
    split; [reflexivity|]. exists [], 0. split; [auto|]. right.
    exists (Some errClosed). rewrite Z.add_0_r. auto.
  - exists [EvCopied dst src n (read_end (conn w src))]. split; [reflexivity|].
    split; [reflexivity|]. exists [], 0. split; [auto|]. right.
    eexists. rewrite Z.add_0_r. auto.
  - exists []. rewrite app_nil_r. split; [reflexivity|].
    split; [reflexivity|]. exists [], 0. rewrite Z.add_0_r. auto.
  - destruct Htr as [[Ht Hk]|[o' [Ht Hk]]]; simpl in Ht; subst k.
    + exists [EvCopied dst src (n + Z.of_nat 0) (Some e0)]. rewrite Ht.
      split; [reflexivity|]. split; [exact Hctx|].
      exists [], 0. split; [auto|]. right. exists (Some e0). auto.
    + exists [EvWrite (toConn dst) o'; EvCopied dst src (n + Z.of_nat (out_len e o')) (Some e0)].
      rewrite Ht, <- app_assoc. split; [reflexivity|]. split; [exact Hctx|].
      exists [EvWrite (toConn dst) o'], (Z.of_nat (out_len e o')).
      split; [right; eauto|]. right. exists (Some e0). auto.
  - destruct Htr as [[Ht Hk]|[o' [Ht Hk]]]; simpl in Ht; subst k.
    + exists []. rewrite app_nil_r. split; [exact Ht|]. split; [exact Hctx|].
      exists [], 0. auto.
    + exists [EvWrite (toConn dst) o']. split; [exact Ht|]. split; [exact Hctx|].
      exists [EvWrite (toConn dst) o'], (Z.of_nat (out_len e o')).
      split; [right; eauto|]. auto.
  - exists []. rewrite app_nil_r. auto.
  - exists []. rewrite app_nil_r. auto.
  - exists []. rewrite app_nil_r. auto.
  - exists []. rewrite app_nil_r. auto.
  - exists []. rewrite app_nil_r. auto.
Qed.

Lemma step_shape_own (i j : ConnId) (len : Z -> Context -> Context)
      (field : Context -> Z) (g g' : Copier) (c c' : Context)
      (new evs : list Event) :
  (forall n c, field (len n c) = n) ->
  (forall n c, errType (len n c) = errType c) ->
  step_shape e i j len g c new g' c' ->
  copier_inv e i j field evs g c ->
  copier_inv e i j field (evs ++ new) g' c'.
Proof.
  intros Hlen Herr Hs Hi. destruct g as [n|n er|n| |]; simpl in Hs, Hi.
  - destruct Hs as (-> & wr & k & Hwr & Hnew). destruct Hi as [Hb Hc].
    assert (Hwr' : bytes_to e i wr = k /\ copied i j wr = []).
    { destruct Hwr as [[-> ->]|[o [-> ->]]]; simpl; [auto|].
      rewrite decide_True by reflexivity. split; [lia|reflexivity]. }
    destruct Hwr' as [Hbw Hcw].
    destruct Hnew as [[-> ->]|[er [-> ->]]]; simpl;
      rewrite ?bytes_to_app, ?copied_app, Hb, Hc, Hbw, Hcw; simpl.
    + auto.
    + rewrite decide_True by auto. split; [lia|reflexivity].
  - destruct Hs as (-> & -> & ->). rewrite app_nil_r. destruct Hi as [Hb Hc].
    simpl. split; [exact Hb|]. exists er. split; [exact Hc|].
    destruct er; [intros _; reflexivity | intros H; congruence].
  - destruct Hs as (-> & -> & ->). rewrite app_nil_r.
    destruct Hi as (Hb & er & Hc & Hf). simpl. rewrite Hlen.
    split; [exact Hb|]. exists er. split; [exact Hc|].
    intros H. rewrite Herr. auto.
  - destruct Hs as (-> & -> & ->). rewrite app_nil_r. exact Hi.
  - destruct Hs as (-> & -> & ->). rewrite app_nil_r. exact Hi.
Qed.

(** A step of the goroutine that writes to [dst] adds no bytes to another
    connection, no return of another copy, and keeps what the other
    goroutine relies on in the context. *)
Lemma step_shape_quiet (i j dst src : ConnId) (len : Z -> Context -> Context)
      (field : Context -> Z) (g g' : Copier) (c c' : Context) (new : list Event) :
  dst <> i ->
  (forall n c, field (len n c) = field c) ->
  (forall n c, errType (len n c) = errType c) ->
  (forall er k c, field (SetContextErrorWithType er k c) = field c) ->
  step_shape e dst src len g c new g' c' ->
  bytes_to e i new = 0 /\ copied i j new = [] /\ field c' = field c /\
  (forall er, failure_recorded er c -> failure_recorded er c').
Proof.
  intros Hne Hlen Herr Hset Hs. destruct g as [n|n er|n| |]; simpl in Hs.
  - destruct Hs as (-> & wr & k & Hwr & Hnew).
    assert (Hwr' : bytes_to e i wr = 0 /\ copied i j wr = []).
    { destruct Hwr as [[-> ->]|[o [-> ->]]]; simpl; [auto|].
      rewrite decide_False by exact Hne. auto. }
    destruct Hwr' as [Hbw Hcw].
    destruct Hnew as [[-> ->]|[er [-> ->]]];
      rewrite ?bytes_to_app, ?copied_app, ?Hbw, ?Hcw; simpl; auto.
    rewrite decide_False by (intros [? ?]; contradiction). auto.
  - destruct Hs as (-> & -> & ->). simpl. repeat split; auto.
    + destruct er; [apply Hset | reflexivity].
    + intros er' Hf. destruct er; [intros _; reflexivity | exact Hf].
  - destruct Hs as (-> & -> & ->). simpl. repeat split; auto.
    intros er' Hf H. rewrite Herr. auto.
  - destruct Hs as (-> & -> & ->). simpl. auto.
  - destruct Hs as (-> & -> & ->). simpl. auto.
Qed.

Lemma step_shape_other (i j dst src : ConnId) (len : Z -> Context -> Context)
      (field : Context -> Z) (g g' g0 : Copier) (c c' : Context)
      (new evs : list Event) :
  dst <> i ->
  (forall n c, field (len n c) = field c) ->
  (forall n c, errType (len n c) = errType c) ->
  (forall er k c, field (SetContextErrorWithType er k c) = field c) ->
  step_shape e dst src len g c new g' c' ->
  copier_inv e i j field evs g0 c ->
  copier_inv e i j field (evs ++ new) g0 c'.
Proof.
  intros Hne Hlen Herr Hset Hs Hi.
  destruct (step_shape_quiet i j dst src len field g g' c c' new
              Hne Hlen Herr Hset Hs) as (Hb & Hc & Hf & Hrec).
  destruct g0; simpl in *; rewrite bytes_to_app, copied_app, Hb, Hc, app_nil_r,
    Z.add_0_r, ?Hf.
  - exact Hi.
  - exact Hi.
  - destruct Hi as (H1 & er0 & H2 & H3). eauto.
  - destruct Hi as (H1 & er0 & H2 & H3). eauto.
  - destruct Hi as (H1 & er0 & H2 & H3). eauto.
Qed.

Lemma step_shape_events (i j : ConnId) (len : Z -> Context -> Context)
      (g g' : Copier) (c c' : Context) (new : list Event) :
  step_shape e i j len g c new g' c' -> Forall pump_event new.
Proof.
  intros Hs. destruct g as [n|n er|n| |]; simpl in Hs;
    try (destruct Hs as (-> & _); constructor).
  destruct Hs as (_ & wr & k & Hwr & Hnew).
  assert (Hf : Forall pump_event wr).
  { destruct Hwr as [[-> _]|[o [-> _]]]; repeat constructor. }
  destruct Hnew as [[-> _]|[er [-> _]]]; [exact Hf|].
  apply Forall_app. split; [exact Hf | repeat constructor].
Qed.

Lemma step_frame (src dst i j : ConnId) (len : Z -> Context -> Context)
      (field : Context -> Z) (g g' : Copier) (new evs t0 : list Event)
      (c0 : Context) (w w' : World) :
  (i = src /\ j = dst \/ i = dst /\ j = src) ->
  (forall n c, errType (len n c) = errType c /\ Req (len n c) = Req c /\
               Data (len n c) = Data c /\ Hijack (len n c) = Hijack c /\
               MITM (len n c) = MITM c /\ Closed (len n c) = Closed c /\
               abort (len n c) = abort c) ->
  trace w' = (trace w ++ new)%list ->
  step_shape e i j len g (ctx w) new g' (ctx w') ->
  copier_inv e i j field evs g (ctx w) ->
  pump_frame src dst t0 c0 evs w ->
  pump_frame src dst t0 c0 (evs ++ new) w'.
Proof.
  intros Hij Hlen Htr Hs Hi (Ht & Hev & Herr & HReq & HData & HHij & HMITM & HCl & Hab).
  assert (Hmono : forall x, In x (copied src dst evs ++ copied dst src evs) ->
                            In x (copied src dst (evs ++ new) ++
                                  copied dst src (evs ++ new))).
  { intros x Hx. rewrite !copied_app. rewrite !in_app_iff in *. tauto. }
  assert (Hmine : forall n er, copied i j evs = [(n, er)] ->
                               In (n, er) (copied src dst evs ++ copied dst src evs)).
  { intros n er Hc. rewrite in_app_iff.
    destruct Hij as [[-> ->]|[-> ->]]; rewrite Hc; simpl; auto. }
  split; [rewrite Htr, Ht, app_assoc; reflexivity|].
  split; [apply Forall_app; split; [exact Hev | eapply step_shape_events; eauto]|].
  destruct g as [n|n er|n| |]; simpl in Hs, Hi.
  - destruct Hs as (-> & _). repeat split; try assumption.
    destruct Herr as [Herr|(Herr & n' & er' & Hin)]; [auto|].
    right. split; [exact Herr|]. eauto.
  - destruct Hs as (-> & _ & ->). rewrite app_nil_r. destruct Hi as [_ Hc].
    destruct er as [er|]; [|repeat split; assumption].
    simpl. repeat split; try assumption. right. split; [reflexivity|].
    exists n, er. auto.
  - destruct Hs as (-> & _ & ->). rewrite app_nil_r.
    destruct (Hlen n (ctx w)) as (E1 & E2 & E3 & E4 & E5 & E6 & E7).
    rewrite E1, E2, E3, E4, E5, E6, E7. repeat split; assumption.
  - destruct Hs as (-> & _ & ->). rewrite app_nil_r. repeat split; assumption.
  - destruct Hs as (-> & _ & ->). rewrite app_nil_r. repeat split; assumption.
Qed.

(** The pump keeps its invariant. *)
Lemma pump_invariant (fuel : nat) :
  forall (sched : list bool) (src dst : ConnId) (a b : Copier) (w : World)
         (t0 : list Event) (c0 : Context) (evs : list Event),
    src <> dst ->
    pump_inv e src dst t0 c0 evs a b w ->
    exists evs',
      pump_inv e src dst t0 c0 evs'
               (fst (fst (pump e fuel sched src dst a b w)))
               (snd (fst (pump e fuel sched src dst a b w)))
               (snd (pump e fuel sched src dst a b w)).
Proof.
  induction fuel as [|fuel IH]; intros sched src dst a b w t0 c0 evs Hne Hinv.
  - exists evs. exact Hinv.
  - simpl. destruct (is_Exited a && is_Exited b); [exists evs; exact Hinv|].
    destruct Hinv as (Hf & Ha & Hb).
    destruct (if is_Exited a then false else if is_Exited b then true else hd false sched).
    + destruct (copy_step_effect src dst set_RespLength a w) as (new & Htr & Hs).
      destruct (copy_step e src dst set_RespLength a w) as [a' w1]. simpl in Htr, Hs.
      apply (IH (tl sched) src dst a' b w1 t0 c0 (evs ++ new)%list Hne).
      split; [|split].
      * eapply (step_frame src dst src dst set_RespLength RespLength); eauto.
        intros; repeat split.
      * eapply (step_shape_own src dst set_RespLength RespLength); eauto.
      * eapply (step_shape_other dst src src dst set_RespLength ReqLength); eauto.
    + destruct (copy_step_effect dst src set_ReqLength b w) as (new & Htr & Hs).
      destruct (copy_step e dst src set_ReqLength b w) as [b' w1]. simpl in Htr, Hs.
      apply (IH (tl sched) src dst a b' w1 t0 c0 (evs ++ new)%list Hne).
      split; [|split].
      * eapply (step_frame src dst dst src set_ReqLength ReqLength); eauto.
        intros; repeat split.
      * eapply (step_shape_other src dst dst src set_ReqLength RespLength); eauto.
      * eapply (step_shape_own dst src set_ReqLength ReqLength); eauto.
Qed.

Ltac conn_cases dst src g w :=
  unfold copy_step;
  destruct g as [n|n er|n| |]; simpl;
  [ destruct (is_closed w src); simpl;
    [ | destruct (incoming (conn w src)) as [|chunk rest] eqn:Hin; simpl;
        [ | destruct (String.eqb chunk ""); simpl;
            [ | match goal with
                | |- context [write_conn e dst ?o ?w1] =>
                    let H := fresh "Hw" in
                    pose proof (write_conn_spec dst o w1) as H;
                    destruct (write_conn e dst o w1) as [[k er'] w2];
                    destruct H as (Hctx & Hinc & Htr);
                    destruct er'; simpl
                end ] ] ]
  | destruct er; simpl
  | | | ].

(** A step takes the stepping goroutine closer to its end, and leaves the
    distance of a goroutine that reads another connection as it was. *)
Lemma copy_step_progress (dst src : ConnId) (len : Z -> Context -> Context)
      (g : Copier) (w : World) :
  is_Exited g = false ->
  (steps_left src (fst (copy_step e dst src len g w))
              (snd (copy_step e dst src len g w)) < steps_left src g w)%nat.
Proof.
  intros Hg.
  conn_cases dst src g w; try discriminate Hg; try lia;
    try (rewrite Hin; simpl; lia);
    try (rewrite ConnId_eqb_refl; simpl; lia);
    try (rewrite Hinc; simpl; rewrite ConnId_eqb_refl; simpl; lia).
Qed.

Lemma copy_step_frame (dst src i : ConnId) (len : Z -> Context -> Context)
      (g g0 : Copier) (w : World) :
  src <> i ->
  steps_left i g0 (snd (copy_step e dst src len g w)) = steps_left i g0 w.
Proof.
  intros Hne.
  assert (Hgen : forall w', incoming (conn w' i) = incoming (conn w i) ->
                            steps_left i g0 w' = steps_left i g0 w).
  { intros w' Hi. destruct g0; simpl; congruence. }
  conn_cases dst src g w; apply Hgen; simpl; try reflexivity;
    try (rewrite (ConnId_eqb_ne i src) by congruence; reflexivity);
    try (rewrite Hinc; simpl; rewrite (ConnId_eqb_ne i src) by congruence;
         reflexivity).
Qed.

Lemma steps_left_zero (i : ConnId) (g : Copier) (w : World) :
  steps_left i g w = 0%nat -> g = Exited.
Proof. destruct g; simpl; intros H; try lia; reflexivity. Qed.

(** With fuel for the steps that are left, both goroutines reach their
    end. *)
Lemma pump_completes (fuel : nat) :
  forall (sched : list bool) (src dst : ConnId) (a b : Copier) (w : World),
    src <> dst ->
    (steps_left dst a w + steps_left src b w <= fuel)%nat ->
    fst (fst (pump e fuel sched src dst a b w)) = Exited /\
    snd (fst (pump e fuel sched src dst a b w)) = Exited.
Proof.
  induction fuel as [|fuel IH]; intros sched src dst a b w Hne Hfuel.
  - simpl. split; [apply (steps_left_zero dst a w) | apply (steps_left_zero src b w)]; lia.
  - simpl. destruct (is_Exited a) eqn:Ea; destruct (is_Exited b) eqn:Eb; simpl.
    + destruct a; try discriminate; destruct b; try discriminate; auto.
    + pose proof (copy_step_progress dst src set_ReqLength b w Eb) as Hp.
      pose proof (copy_step_frame dst src dst set_ReqLength b a w Hne) as Hfr.
      destruct (copy_step e dst src set_ReqLength b w) as [b' w1]. simpl in *.
      apply IH; [exact Hne | lia].
    + pose proof (copy_step_progress src dst set_RespLength a w Ea) as Hp.
      pose proof (copy_step_frame src dst src set_RespLength a b w
                    (not_eq_sym Hne)) as Hfr.
      destruct (copy_step e src dst set_RespLength a w) as [a' w1]. simpl in *.
      apply IH; [exact Hne | lia].
    + destruct (hd false sched).
      * pose proof (copy_step_progress src dst set_RespLength a w Ea) as Hp.
        pose proof (copy_step_frame src dst src set_RespLength a b w
                      (not_eq_sym Hne)) as Hfr.
        destruct (copy_step e src dst set_RespLength a w) as [a' w1]. simpl in *.
        apply IH; [exact Hne | lia].
      * pose proof (copy_step_progress dst src set_ReqLength b w Eb) as Hp.
        pose proof (copy_step_frame dst src dst set_ReqLength b a w Hne) as Hfr.
        destruct (copy_step e dst src set_ReqLength b w) as [b' w1]. simpl in *.
        apply IH; [exact Hne | lia].
Qed.

Lemma close_conn_trace (i : ConnId) (w : World) :
  trace (close_conn i w) = (trace w ++ [EvClose i])%list.
Proof. destruct i; reflexivity. Qed.

Lemma close_conn_ctx (i : ConnId) (w : World) : ctx (close_conn i w) = ctx w.
Proof. destruct i; reflexivity. Qed.

(** What [transfer] does, for two different connections. *)
Lemma transfer_spec (src dst : ConnId) (w : World) :
  src <> dst ->
  fst (transfer e src dst w) = Normal tt /\
  exists evs n1 er1 n2 er2,
    trace (snd (transfer e src dst w)) =
      (trace w ++ [EvPump src dst] ++ evs ++ [EvClose src; EvClose dst])%list /\
    Forall pump_event evs /\
    copied src dst evs = [(n1, er1)] /\
    copied dst src evs = [(n2, er2)] /\
    bytes_to e src evs = n1 /\
    bytes_to e dst evs = n2 /\
    RespLength (ctx (snd (transfer e src dst w))) = n1 /\
    ReqLength (ctx (snd (transfer e src dst w))) = n2 /\
    (er1 <> None \/ er2 <> None ->
     errType (ctx (snd (transfer e src dst w))) = Some TunnelWriteConnFail) /\
    (er1 = None -> er2 = None ->
     errType (ctx (snd (transfer e src dst w))) = errType (ctx w)) /\
    abort (ctx (snd (transfer e src dst w))) = abort (ctx w).
Proof.
  intros Hne. unfold transfer.
  set (w0 := record (EvPump src dst) w).
  set (fuel := (steps_left dst (AtCopy 0) w0 + steps_left src (AtCopy 0) w0)%nat).
  assert (Hinit : pump_inv e src dst (trace w0) (ctx w) [] (AtCopy 0) (AtCopy 0) w0).
  { split; [|split]; simpl; auto.
    repeat split; simpl; auto. rewrite app_nil_r. reflexivity. }
  destruct (pump_invariant fuel (schedule e) src dst _ _ w0 _ _ _ Hne Hinit)
    as (evs & Hf & Ha & Hb).
  destruct (pump_completes fuel (schedule e) src dst (AtCopy 0) (AtCopy 0) w0 Hne
              (Nat.le_refl _)) as [Ea Eb].
  destruct (pump e fuel (schedule e) src dst (AtCopy 0) (AtCopy 0) w0)
    as [[a b] w1]. cbn [fst snd] in *. subst a b. simpl in Ha, Hb.
  rewrite !close_conn_trace, !close_conn_ctx.
  split; [reflexivity|].
  destruct Ha as (Hba & er1 & Hca & Hfa). destruct Hb as (Hbb & er2 & Hcb & Hfb).
  destruct Hf as (Ht & Hev & Herr & _ & _ & _ & _ & _ & Hab).
  exists evs, (RespLength (ctx w1)), er1, (ReqLength (ctx w1)), er2.
  repeat split; try assumption.
  - rewrite Ht. unfold w0. simpl. rewrite <- !app_assoc. reflexivity.
  - intros [H|H]; auto.
  - intros -> ->. destruct Herr as [Herr|(_ & n & er & Hin)]; [exact Herr|].
    rewrite Hca, Hcb in Hin. simpl in Hin.
    destruct Hin as [Hin|[Hin|[]]]; inversion Hin.
Qed.

End Pump.

(** C5: when the pump runs with the client connection first and the target
    second, it ends with ReqLength equal to the count that the copy from the
    client to the target returned, which is the number of bytes written to the
    target, and with RespLength equal to the count of the copy from the target
    to the client, the number of bytes written to the client. *)
Theorem transfer_client_target_counts :
  forall (e : Env) (w : World),
    exists evs up er_up down er_down,
      trace (snd (transfer e clientConn targetConn w)) =
        (trace w ++ [EvPump clientConn targetConn] ++ evs
                 ++ [EvClose clientConn; EvClose targetConn])%list /\
      copied targetConn clientConn evs = [(up, er_up)] /\
      copied clientConn targetConn evs = [(down, er_down)] /\
      bytes_to e targetConn evs = up /\
      bytes_to e clientConn evs = down /\
      ReqLength (ctx (snd (transfer e clientConn targetConn w))) = up /\
      RespLength (ctx (snd (transfer e clientConn targetConn w))) = down.
Proof.
  intros e w.
  destruct (transfer_spec e clientConn targetConn w ltac:(discriminate))
    as (_ & evs & n1 & er1 & n2 & er2 & Ht & _ & Hc1 & Hc2 & Hb1 & Hb2 & Hr & Hq & _).
  exists evs, n2, er2, n1, er1. repeat split; assumption.
Qed.

(** C6, as amended: for two different connections, [transfer(ctx, src, dst)]
    puts the count of the copy from dst to src into RespLength and the count
    of the copy from src to dst into ReqLength; each copy returns exactly
    once, and both have returned before the two ends are closed; a copy that
    returns an error leaves TunnelWriteConnFail on the context, and the other
    copy returns all the same. *)
Theorem transfer_directions :
  forall (e : Env) (src dst : ConnId) (w : World),
    src <> dst ->
    exists evs to_src er_src to_dst er_dst,
      trace (snd (transfer e src dst w)) =
        (trace w ++ [EvPump src dst] ++ evs ++ [EvClose src; EvClose dst])%list /\
      Forall pump_event evs /\
      copied src dst evs = [(to_src, er_src)] /\
      copied dst src evs = [(to_dst, er_dst)] /\
      RespLength (ctx (snd (transfer e src dst w))) = to_src /\
      ReqLength (ctx (snd (transfer e src dst w))) = to_dst /\
      (er_src <> None \/ er_dst <> None ->
       errType (ctx (snd (transfer e src dst w))) = Some TunnelWriteConnFail).
Proof.
  intros e src dst w Hne.
  destruct (transfer_spec e src dst w Hne)
    as (_ & evs & n1 & er1 & n2 & er2 & Ht & Hev & Hc1 & Hc2 & _ & _ & Hr & Hq & Herr & _).
  exists evs, n1, er1, n2, er2. repeat split; assumption.
Qed.

Lemma transfer_directions_witness :
  clientConn <> targetConn /\
  exists evs to_src er_src to_dst er_dst,
    trace (snd (transfer env0 clientConn targetConn world_pump)) =
      (trace world_pump ++ [EvPump clientConn targetConn] ++ evs
         ++ [EvClose clientConn; EvClose targetConn])%list /\
    Forall pump_event evs /\
    copied clientConn targetConn evs = [(to_src, er_src)] /\
    copied targetConn clientConn evs = [(to_dst, er_dst)] /\
    RespLength (ctx (snd (transfer env0 clientConn targetConn world_pump))) = to_src /\
    ReqLength (ctx (snd (transfer env0 clientConn targetConn world_pump))) = to_dst /\
    (er_src <> None \/ er_dst <> None ->
     errType (ctx (snd (transfer env0 clientConn targetConn world_pump)))
     = Some TunnelWriteConnFail).
Proof.
  split; [discriminate|].
  apply (transfer_directions env0 clientConn targetConn world_pump). discriminate.
Defined.

(** C6, as stated, fails: with three bytes going from src to dst and five
    from dst to src, RespLength is five, the count of the dst-to-src copy, and
    ReqLength is three. *)
Lemma transfer_directions_counterexample :
  let w' := snd (transfer env0 clientConn targetConn world_pump) in
  bytes_to env0 targetConn (trace w') = 3 /\
  bytes_to env0 clientConn (trace w') = 5 /\
  RespLength (ctx w') <> bytes_to env0 targetConn (trace w') /\
  ReqLength (ctx w') <> bytes_to env0 clientConn (trace w').
Proof. vm_compute. repeat split; discriminate. Qed.

(** ** Reading the log of a run *)

Lemma calls_app (t1 t2 : list Event) :
  calls (t1 ++ t2) = (calls t1 ++ calls t2)%list.
Proof.
  induction t1 as [|ev t1 IH]; simpl; [reflexivity|].
  destruct ev; simpl; rewrite IH; reflexivity.
Qed.

Lemma handlers_app (t1 t2 : list Event) :
  handlers (t1 ++ t2) = (handlers t1 ++ handlers t2)%list.
Proof.
  induction t1 as [|ev t1 IH]; simpl; [reflexivity|].
  destruct ev; simpl; rewrite IH; reflexivity.
Qed.

Lemma plain_calls (t : list Event) : Forall plain_event t -> calls t = [].
Proof.
  induction 1 as [|ev t Hev _ IH]; simpl; [reflexivity|].
  destruct ev; simpl in Hev; try contradiction; exact IH.
Qed.

Lemma plain_handlers (t : list Event) : Forall plain_event t -> handlers t = [].
Proof.
  induction 1 as [|ev t Hev _ IH]; simpl; [reflexivity|].
  destruct ev; simpl in Hev; try contradiction; exact IH.
Qed.

Lemma pump_event_plain (t : list Event) : Forall pump_event t -> Forall plain_event t.
Proof.
  intros H. eapply Forall_impl; [exact H|].
  intros ev. destruct ev; simpl; try tauto.
Qed.

(** The pump between client and target as the forwarders see it: it returns,
    and the log grows by the start of the pump and plain events. *)
Lemma transfer_run (e : Env) (w : World) :
  exists w' tail,
    transfer e clientConn targetConn w = (Normal tt, w') /\
    trace w' = (trace w ++ EvPump clientConn targetConn :: tail)%list /\
    Forall plain_event tail /\
    abort (ctx w') = abort (ctx w).
Proof.
  destruct (transfer_spec e clientConn targetConn w ltac:(discriminate))
    as (Hn & evs & n1 & er1 & n2 & er2 & Ht & Hev & _ & _ & _ & _ & _ & _ & _ & _ & Hab).
  destruct (transfer e clientConn targetConn w) as [o w'] eqn:E. simpl in *. subst o.
  exists w', (evs ++ [EvClose clientConn; EvClose targetConn])%list.
  split; [reflexivity|]. split; [exact Ht|]. split; [|exact Hab].
  apply Forall_app. split; [apply pump_event_plain; exact Hev|].
  repeat constructor.
Qed.

Lemma output_plain (t : list Event) : Forall output_event t -> Forall plain_event t.
Proof.
  intros H. eapply Forall_impl; [exact H|].
  intros ev. destruct ev; simpl; tauto.
Qed.


(** [io.Copy] to a writer returns, adds output events and leaves the context
    alone. *)
Lemma io_Copy_run (e : Env) (wr : Writer) (chunks : list string) :
  forall (rend : option error) (n : Z) (w : World),
    exists r w' evs,
      io_Copy e wr chunks rend n w = (Normal r, w') /\
      trace w' = (trace w ++ evs)%list /\
      Forall output_event evs /\
      ctx w' = ctx w.
Proof.
  induction chunks as [|chunk rest IH]; intros rend n w; simpl.
  - eexists _, w, []. rewrite app_nil_r. repeat split. constructor.
  - destruct (String.eqb chunk ""); [apply IH|].
    unfold bind.
    assert (Hw : exists r w1 evs1,
               Write e wr (Bytes chunk) w = (Normal r, w1) /\
               trace w1 = (trace w ++ evs1)%list /\ Forall output_event evs1 /\
               ctx w1 = ctx w).
    { assert (Hnil : forall (r : nat * option error),
                 exists r' w1 evs1,
                   (Normal r, w) = (Normal r', w1) /\
                   trace w1 = (trace w ++ evs1)%list /\ Forall output_event evs1 /\
                   ctx w1 = ctx w).
      { intros r. exists r, w, []. rewrite app_nil_r. repeat split. constructor. }
      destruct wr as [|i]; simpl.
      - unfold rw_Write, rw_WriteHeader.
        destruct (rw_hijacked (rw w)); [apply Hnil|].
        destruct (rw_status (rw w)); simpl;
          destruct (write_fault e (Bytes chunk) (hd None (rw_faults (rw w))))
            as [[o' k] er]; simpl;
          eexists _, _, _; (split; [reflexivity|]); simpl;
          (split; [rewrite <- ?app_assoc; reflexivity|]);
          (split; [repeat constructor | reflexivity]).
      - unfold conn_Write, write_conn. destruct (is_closed w i); [apply Hnil|].
        destruct (write_fault e (Bytes chunk) (hd None (wfaults (conn w i))))
          as [[o' k] er]; simpl.
        eexists _, _, _; (split; [reflexivity|]); simpl;
          (split; [rewrite <- ?app_assoc; reflexivity|]);
          (split; [repeat constructor | reflexivity]). }
    destruct Hw as (r & w1 & evs1 & -> & Ht1 & Hp1 & Hc1).
    destruct (snd r).
    + eexists _, w1, evs1. repeat split; assumption.
    + destruct (IH rend (n + Z.of_nat (fst r)) w1) as (r2 & w2 & evs2 & -> & Ht2 & Hp2 & Hc2).
      exists r2, w2, (evs1 ++ evs2)%list. split; [reflexivity|].
      split; [rewrite Ht2, Ht1, app_assoc; reflexivity|].
      split; [apply Forall_app; auto | congruence].
Qed.

(** A write returns, adds at most output events and leaves the context
    alone. *)
Lemma Write_run (e : Env) (wr : Writer) (o : Out) (w : World) :
  exists r w' evs,
    Write e wr o w = (Normal r, w') /\
    trace w' = (trace w ++ evs)%list /\
    Forall output_event evs /\
    ctx w' = ctx w.
Proof.
  assert (Hnil : forall (r : nat * option error),
             exists r' w1 evs1,
               (Normal r, w) = (Normal r', w1) /\
               trace w1 = (trace w ++ evs1)%list /\ Forall output_event evs1 /\
               ctx w1 = ctx w).
  { intros r. exists r, w, []. rewrite app_nil_r. repeat split. constructor. }
  destruct wr as [|i]; simpl.
  - unfold rw_Write, rw_WriteHeader.
    destruct (rw_hijacked (rw w)); [apply Hnil|].
    destruct (rw_status (rw w)); simpl;
      destruct (write_fault e o (hd None (rw_faults (rw w))))
        as [[o' k] er]; simpl;
      eexists _, _, _; (split; [reflexivity|]); simpl;
      (split; [rewrite <- ?app_assoc; reflexivity|]);
      (split; [repeat constructor | reflexivity]).
  - unfold conn_Write, write_conn. destruct (is_closed w i); [apply Hnil|].
    destruct (write_fault e o (hd None (wfaults (conn w i))))
      as [[o' k] er]; simpl.
    eexists _, _, _; (split; [reflexivity|]); simpl;
      (split; [rewrite <- ?app_assoc; reflexivity|]);
      (split; [repeat constructor | reflexivity]).
Qed.

(** The error-body writer returns or panics; it adds output events and moves
    only RespLength. *)
Lemma WriteProxyErrorToResponseBody_run (e : Env) (wr : Writer) (code : Z)
      (msg pre : string) (w : World) :
  exists o w' evs n,
    WriteProxyErrorToResponseBody e wr code msg pre w = (o, w') /\
    (o = Normal tt \/ exists m, o = Panicked m) /\
    trace w' = (trace w ++ evs)%list /\
    Forall output_event evs /\
    ctx w' = set_RespLength n (ctx w).
Proof.
  assert (Hid : ctx w = set_RespLength (RespLength (ctx w)) (ctx w)).
  { destruct (ctx w); reflexivity. }
  assert (Hpre : exists w1 evs1 n1,
             when (negb (String.eqb pre ""))
                  (r <- Write e wr (Bytes pre) ;; modifyCtx (add_RespLength (fst r))) w
             = (Normal tt, w1) /\
             trace w1 = (trace w ++ evs1)%list /\ Forall output_event evs1 /\
             ctx w1 = set_RespLength n1 (ctx w)).
  { unfold when. destruct (negb (String.eqb pre "")).
    - unfold bind.
      destruct (Write_run e wr (Bytes pre) w) as (r & w1 & evs1 & -> & Ht & Hp & Hc).
      eexists _, evs1, _. split; [reflexivity|]. simpl.
      split; [exact Ht|]. split; [exact Hp|]. rewrite Hc. reflexivity.
    - exists w, [], (RespLength (ctx w)). rewrite app_nil_r.
      repeat split; [constructor | exact Hid]. }
  destruct Hpre as (w1 & evs1 & n1 & E1 & Ht1 & Hp1 & Hc1).
  unfold WriteProxyErrorToResponseBody. unfold bind at 1. rewrite E1.
  destruct (json_Marshal e _) as [er|errJSON].
  - eexists _, w1, evs1, n1. split; [reflexivity|]. split; [right; eauto|]. auto.
  - unfold bind.
    destruct (Write_run e wr (Bytes errJSON) w1) as (r & w2 & evs2 & -> & Ht2 & Hp2 & Hc2).
    eexists _, _, (evs1 ++ evs2)%list, _. split; [reflexivity|]. simpl.
    split; [auto|]. split; [rewrite Ht2, Ht1, app_assoc; reflexivity|].
    split; [apply Forall_app; auto|]. rewrite Hc2, Hc1. reflexivity.
Qed.

(** * The forwarders, run symbolically *)

(** Destructs the innermost stuck [match] of the goal. *)
Ltac head_match :=
  match goal with
  | |- context [match ?x with _ => _ end] =>
      lazymatch x with
      | context [match _ with _ => _ end] => fail
      | _ => destruct x eqn:?
      end
  end.

Ltac red_run :=
  cbv beta iota zeta delta
    [func defer bind when ret go_return panic getCtx modifyCtx emit aborted
     call callParentProxy callBeforeResponse callDuringResponse
     conn_Write conn_Close write_conn write_fault close_conn mark_closed is_closed
     rw_WriteHeader
     rw_Write Write hijacker hijackRaw dial CloseNetConn CloseResponseBody
     websocketHandshake atomic_AddInt32
     rw_CopyHeader WriterWithLength_Write Length
     record set_ctx set_rw set_conn ConnId_eqb
     set_Req set_Data set_Hijack set_MITM set_ReqLength set_RespLength set_Closed
     SetContextErrType SetContextErrorWithType add_RespLength];
  cbn [ctx trace rw conn clientConnNum
       rw_Header rw_status rw_hijacked rw_faults
       closed wfaults incoming rerr
       wl_writer interfaceType wl_length
       fst snd
       Req Data Hijack MITM ReqLength RespLength Closed abort errType err
       negb andb orb String.eqb Ascii.eqb Bool.eqb Z.eqb
       Nat.ltb Nat.leb length].

(** The pump, [io.Copy] and the error-body writer are taken by what they are
    known to do. *)
Ltac use_transfer :=
  match goal with
  | |- context [transfer ?e clientConn targetConn ?W] =>
      let w' := fresh "w'" in
      let tail := fresh "tail" in
      let E := fresh "E" in
      let Ht := fresh "Ht" in
      let Hp := fresh "Hp" in
      let Ha := fresh "Ha" in
      destruct (transfer_run e W) as (w' & tail & E & Ht & Hp & Ha);
      rewrite E; clear E;
      cbn [ctx trace abort] in Ht, Ha
  end.

Ltac use_io_Copy :=
  match goal with
  | |- context [io_Copy ?e ?wr ?ch ?rend ?n ?W] =>
      let r := fresh "r" in
      let w' := fresh "w'" in
      let evs := fresh "evs" in
      let E := fresh "E" in
      let Ht := fresh "Ht" in
      let Hp := fresh "Hp" in
      let Hc := fresh "Hc" in
      destruct (io_Copy_run e wr ch rend n W) as (r & w' & evs & E & Ht & Hp & Hc);
      rewrite E; clear E;
      pose proof (output_plain evs Hp);
      cbn [ctx trace] in Ht, Hc; rewrite ?Hc; clear Hc
  end.

Ltac use_WriteProxyError :=
  match goal with
  | |- context [WriteProxyErrorToResponseBody ?e ?wr ?code ?msg ?pre ?W] =>
      let o := fresh "o" in
      let w' := fresh "w'" in
      let evs := fresh "evs" in
      let n := fresh "n" in
      let E := fresh "E" in
      let Ho := fresh "Ho" in
      let Ht := fresh "Ht" in
      let Hp := fresh "Hp" in
      let Hc := fresh "Hc" in
      let m := fresh "m" in
      destruct (WriteProxyErrorToResponseBody_run e wr code msg pre W)
        as (o & w' & evs & n & E & Ho & Ht & Hp & Hc);
      rewrite E; clear E;
      pose proof (output_plain evs Hp);
      cbn [ctx trace] in Ht, Hc; rewrite ?Hc; clear Hc;
      destruct Ho as [->|[m ->]]
  end.

(** The result of a callback that returns a context gets a name. *)
Ltac name_call :=
  match goal with
  | |- context [Connect ?d ?C] => let c := fresh "c" in remember (Connect d C) as c
  | |- context [Auth ?d ?C] => let c := fresh "c" in remember (Auth d C) as c
  | |- context [BeforeRequest ?d ?C] =>
      let c := fresh "c" in remember (BeforeRequest d C) as c
  | |- context [Finish ?d ?C] => let c := fresh "c" in remember (Finish d C) as c
  end.

Ltac exec :=
  red_run;
  repeat (first [ use_transfer | use_io_Copy | use_WriteProxyError
                | name_call | head_match ];
          red_run).

(** Runs the handler of a goal [forall r, r = handler w -> _]. *)
Ltac run_handler := exec; intros ?r ->; cbn [fst snd ctx trace].

(** Puts a goal [exists evs, t = trace w ++ evs /\ _] in front of the events
    that the run added. *)
Ltac new_events :=
  rewrite <- ?app_assoc; simpl; eexists; (split; [reflexivity|]).

(** ** Request transport *)

(** C10: with more than one trailing conn argument, DoRequest returns at once:
    the world (context, counters, sockets, log) is left as it was, whatever
    the continuation is, so neither a delegate callback nor the continuation
    ran and no request was issued. *)
Theorem DoRequest_too_many_conns :
  forall (e : Env) (responseFunc : error + Response -> M unit)
         (conn : list ConnArg) (w : World),
    (1 < length conn)%nat ->
    DoRequest e responseFunc conn w = (Normal tt, w).
Proof.
  intros e responseFunc conn w Hlen.
  unfold DoRequest, func, bind, when.
  apply Nat.ltb_lt in Hlen. rewrite Hlen. reflexivity.
Qed.

Lemma DoRequest_too_many_conns_witness :
  (1 < length [argOther; argTLSConn tlsClientConn])%nat /\
  DoRequest env0 (fun _ => emit EvHijack) [argOther; argTLSConn tlsClientConn]
            (world0 (request0 "GET" ∅))
  = (Normal tt, world0 (request0 "GET" ∅)).
Proof.
  split; [simpl; lia | apply DoRequest_too_many_conns; simpl; lia].
Defined.

(** C2: a request whose Proxy-Connection and MITM headers have an empty value
    goes to the transport with both headers still on it: the guard
    [Get(item) != ""] takes an empty value for an absent header. *)
Theorem DoRequest_forwards_empty_valued_hop_header :
  map (fun r => (req_Header r !! "Proxy-Connection", req_Header r !! "Mitm"))
      (forwarded (trace (snd (DoRequest env0 (fun _ => ret tt) []
                                (world0 (request0 "GET"
                                   (<["Proxy-Connection" := [""]]>
                                      (<["Mitm" := [""]]> ∅))))))))
  = [(Some [""], Some [""])].
Proof. vm_compute. reflexivity. Qed.

(** A request that DoRequest hands to the transport has the headers of the
    context's request, stripped: what is left of the hop-by-hop headers and
    of the MITM header has an empty first value. *)
Lemma DoRequest_forwards_stripped (e : Env) (conn : list ConnArg) (w : World) :
  exists evs,
    trace (snd (DoRequest e (fun _ => ret tt) conn w)) = (trace w ++ evs)%list /\
    forall r,
      In r (forwarded evs) ->
      (forall item, In item hopHeaders -> Header_Get (req_Header r) item = "") /\
      Header_Get (req_Header r) "MITM" = "".
Proof.
  enough (H : forall x, x = DoRequest e (fun _ => ret tt) conn w ->
            exists evs,
              trace (snd x) = (trace w ++ evs)%list /\
              forall r,
                In r (forwarded evs) ->
                (forall item, In item hopHeaders ->
                              Header_Get (req_Header r) item = "") /\
                Header_Get (req_Header r) "MITM" = "") by eauto.
  unfold DoRequest. exec; intros ?x ->; cbn [fst snd ctx trace];
    rewrite <- ?app_assoc; eexists;
    (split; [try reflexivity; symmetry; apply app_nil_r|]);
    simpl; intros ?r Hr;
    repeat (destruct Hr as [<-|Hr]; [|try contradiction]);
    try contradiction;
    (split; [intros item Hitem; apply stripRequestHeaders_hop; exact Hitem
            | apply stripRequestHeaders_MITM]).
Qed.

(** DoRequest either returns without calling the continuation, or ends by
    calling it; a response that the continuation is handed has no hop-by-hop
    header. *)
Lemma DoRequest_hands_stripped_response (e : Env)
      (responseFunc : error + Response -> M unit) (conn : list ConnArg) (w : World) :
  (exists w', DoRequest e responseFunc conn w = (Normal tt, w')) \/
  exists result w',
    DoRequest e responseFunc conn w = func (responseFunc result) w' /\
    match result with
    | inl _ => True
    | inr resp => forall item, In item hopHeaders -> resp_Header resp !! item = None
    end.
Proof.
  unfold DoRequest.
  red_run;
    repeat (first [ name_call
                  | match goal with
                    | |- context [match ?x with _ => _ end] =>
                        lazymatch x with
                        | context [match _ with _ => _ end] => fail
                        | context [responseFunc] => fail
                        | _ => destruct x eqn:?
                        end
                    end ];
            red_run);
    try (left; eexists; reflexivity);
    right; eexists _, _; (split; [reflexivity|]); simpl; auto;
    intros item Hitem; apply stripResponseHeaders_hop; exact Hitem.
Qed.

(** ** Plain WebSocket forwarder *)

(** C7: the plain WebSocket forwarder closes the client connection right
    after the hijack, so it never writes to the client connection and never
    starts the pump: whenever the hijack succeeds, the handler ends with
    HTTPWebsocketHandshakeFail. *)
Theorem serveWebsocket_never_relays :
  forall (e : Env) (w : World),
    exists evs,
      trace (snd (serveWebsocket e w)) = (trace w ++ evs)%list /\
      Forall no_client_write_no_pump evs /\
      (In EvHijack evs ->
       errType (ctx (snd (serveWebsocket e w))) = Some HTTPWebsocketHandshakeFail).
Proof.
  intros e w. unfold serveWebsocket. exec; try discriminate;
    new_events; (split;
      [ repeat constructor
      | simpl; intuition (try discriminate; try congruence) ]).
Qed.

(** The plain WebSocket upgrade of the spec's scenario: the client
    connection is closed before the handshake, the response of the target
    never reaches it and the pump never starts. *)
Example plain_upgrade_fails :
  errType (ctx (snd (ServeHTTP env0 upgradeRequest (world0 upgradeRequest))))
  = Some HTTPWebsocketHandshakeFail /\
  before_pump (trace (snd (ServeHTTP env0 upgradeRequest (world0 upgradeRequest))))
  = None /\
  map fst (writes (trace (snd (ServeHTTP env0 upgradeRequest (world0 upgradeRequest)))))
  = [toConn targetConn].
Proof. vm_compute. repeat split; reflexivity. Qed.

(** ** MITM HTTPS forwarder *)

(** C8: when the MITM HTTPS forwarder has written the established line and
    done the TLS handshake, and reading the inner request fails, it writes
    nothing more: the log ends with the closes.  On EOF the failure kind and
    the error of the context are as they were; on another error they are
    HTTPSReadReqFromBufFail and that error. *)
Theorem forwardHTTPS_inner_read_fails :
  forall (e : Env) (w : World) (er : error),
    GenerateTLSConfig e (url_Host (req_URL (Req (ctx w)))) = None ->
    rw_is_Hijacker e = true ->
    Hijack_err e = None ->
    rw_hijacked (rw w) = false ->
    closed (conn w clientConn) = false ->
    hd None (wfaults (conn w clientConn)) = None ->
    Handshake_err e = None ->
    ReadRequest e = inl er ->
    trace (snd (forwardHTTPS e w)) =
      (trace w ++
       [EvHandler HforwardHTTPS; EvHijack;
        EvWrite (toConn clientConn) (Bytes tunnelEstablishedResponseLine)] ++
       (if Closed (ctx w) then [] else [EvClose tlsClientConn]) ++
       [EvClose clientConn])%list /\
    errType (ctx (snd (forwardHTTPS e w))) =
      (if is_EOF er then errType (ctx w) else Some HTTPSReadReqFromBufFail) /\
    err (ctx (snd (forwardHTTPS e w))) =
      (if is_EOF er then err (ctx w) else Some er).
Proof.
  intros e w er Hcert Hhj Hherr Hrw Hcl Hwf Hhs Hrd.
  unfold forwardHTTPS. red_run.
  repeat (first [ rewrite Hcert | rewrite Hhj | rewrite Hrw | rewrite Hherr
                 | rewrite Hcl | rewrite Hwf | rewrite Hhs | rewrite Hrd ];
          red_run).
  destruct (is_EOF er); red_run; destruct (Closed (ctx w)); red_run;
    rewrite <- ?app_assoc; auto.
Qed.

Lemma forwardHTTPS_inner_read_fails_witness :
  (GenerateTLSConfig env0
     (url_Host (req_URL (Req (ctx (world0 connectRequest))))) = None /\
   rw_is_Hijacker env0 = true /\
   Hijack_err env0 = None /\
   rw_hijacked (rw (world0 connectRequest)) = false /\
   closed (conn (world0 connectRequest) clientConn) = false /\
   hd None (wfaults (conn (world0 connectRequest) clientConn)) = None /\
   Handshake_err env0 = None /\
   ReadRequest env0 = inl io_EOF) /\
  trace (snd (forwardHTTPS env0 (world0 connectRequest))) =
    (trace (world0 connectRequest) ++
     [EvHandler HforwardHTTPS; EvHijack;
      EvWrite (toConn clientConn) (Bytes tunnelEstablishedResponseLine)] ++
     (if Closed (ctx (world0 connectRequest)) then [] else [EvClose tlsClientConn]) ++
     [EvClose clientConn])%list /\
  errType (ctx (snd (forwardHTTPS env0 (world0 connectRequest)))) =
    (if is_EOF io_EOF then errType (ctx (world0 connectRequest))
     else Some HTTPSReadReqFromBufFail) /\
  err (ctx (snd (forwardHTTPS env0 (world0 connectRequest)))) =
    (if is_EOF io_EOF then err (ctx (world0 connectRequest)) else Some io_EOF).
Proof.
  split; [repeat split|].
  apply (forwardHTTPS_inner_read_fails env0 (world0 connectRequest) io_EOF);
    reflexivity.
Defined.

(** ** Opaque CONNECT tunnel *)









(** The tunnel of the spec's scenarios does start the pump: directly, after
    the established line, and through the parent [http://u:p@upstream:3128],
    after a CONNECT request with [Proxy-Authorization: Basic dTpw]. *)
Example forwardTunnel_direct :
  option_map writes
    (before_pump (trace (snd (forwardTunnel env0 (world0 connectRequest)))))
  = Some [(toConn clientConn, Bytes tunnelEstablishedResponseLine)].
Proof. vm_compute. reflexivity. Qed.

Example forwardTunnel_via_parent :
  option_map writes
    (before_pump (trace (snd (forwardTunnel env_parent (world0 connectRequest)))))
  = Some [(toConn targetConn, WireRequest (connectReq "example.com:443" parentURL))] /\
  req_Header (connectReq "example.com:443" parentURL) !! "Proxy-Authorization"
  = Some ["Basic dTpw"].
Proof. vm_compute. split; reflexivity. Qed.

(** ** What every handler does to the log *)

Ltac close_handler :=
  repeat match goal with H : trace _ = _ |- _ => rewrite H; clear H end;
  new_events;
  unfold handler_ok;
  repeat (progress (simpl; rewrite ?handlers_app, ?calls_app));
  repeat match goal with
         | H : Forall plain_event ?t |- _ =>
             rewrite ?(plain_calls t H), ?(plain_handlers t H); clear H
         end;
  simpl;
  (split; [reflexivity|]);
  (split;
   [ repeat constructor; unfold handler_stage; simpl; intuition discriminate
   | simpl; intuition (try congruence; try discriminate) ]).

Ltac handler_lemma :=
  match goal with
  | |- exists evs, trace (snd ?R) = (trace ?w ++ evs)%list /\
                   handler_ok ?h evs (ctx (snd ?R)) =>
      enough (forall r, r = R ->
                exists evs, trace (snd r) = (trace w ++ evs)%list /\
                            handler_ok h evs (ctx (snd r))) by eauto
  end.

Lemma forwardTunnel_ok (e : Env) (w : World) :
  exists evs,
    trace (snd (forwardTunnel e w)) = (trace w ++ evs)%list /\
    handler_ok HforwardTunnel evs (ctx (snd (forwardTunnel e w))).
Proof.
  handler_lemma. unfold forwardTunnel. run_handler; close_handler.
Qed.

Lemma forwardHTTPWebsocket_ok (e : Env) (w : World) :
  exists evs,
    trace (snd (forwardHTTPWebsocket e w)) = (trace w ++ evs)%list /\
    handler_ok HforwardHTTPWebsocket evs (ctx (snd (forwardHTTPWebsocket e w))).
Proof.
  handler_lemma. unfold forwardHTTPWebsocket, serveWebsocket.
  run_handler; close_handler.
Qed.

Lemma forwardHTTPSWebsocket_ok (e : Env) (w : World) :
  exists evs,
    trace (snd (forwardHTTPSWebsocket e w)) = (trace w ++ evs)%list /\
    handler_ok HforwardHTTPSWebsocket evs (ctx (snd (forwardHTTPSWebsocket e w))).
Proof.
  handler_lemma. unfold forwardHTTPSWebsocket, serveWebsocketTLS.
  run_handler; close_handler.
Qed.

Lemma forwardHTTP_ok (e : Env) (w : World) :
  exists evs,
    trace (snd (forwardHTTP e w)) = (trace w ++ evs)%list /\
    handler_ok HforwardHTTP evs (ctx (snd (forwardHTTP e w))).
Proof.
  handler_lemma. unfold forwardHTTP, DoRequest. run_handler; close_handler.
Qed.

Lemma forwardHTTPS_ok (e : Env) (w : World) :
  exists evs,
    trace (snd (forwardHTTPS e w)) = (trace w ++ evs)%list /\
    handler_ok HforwardHTTPS evs (ctx (snd (forwardHTTPS e w))).
Proof.
  handler_lemma. unfold forwardHTTPS, DoRequest. run_handler; close_handler.
Qed.

(** ** The dispatcher *)

(** A handler called by the dispatcher is taken by its lemma. *)
Ltac use_handler :=
  let evs := fresh "evs" in
  let Ht := fresh "Ht" in
  let Hok := fresh "Hok" in
  let o := fresh "o" in
  let w' := fresh "w'" in
  match goal with
  | |- context [forwardHTTP ?e ?W] =>
      destruct (forwardHTTP_ok e W) as (evs & Ht & Hok);
      destruct (forwardHTTP e W) as [o w']
  | |- context [forwardHTTPS ?e ?W] =>
      destruct (forwardHTTPS_ok e W) as (evs & Ht & Hok);
      destruct (forwardHTTPS e W) as [o w']
  | |- context [forwardTunnel ?e ?W] =>
      destruct (forwardTunnel_ok e W) as (evs & Ht & Hok);
      destruct (forwardTunnel e W) as [o w']
  | |- context [forwardHTTPWebsocket ?e ?W] =>
      destruct (forwardHTTPWebsocket_ok e W) as (evs & Ht & Hok);
      destruct (forwardHTTPWebsocket e W) as [o w']
  | |- context [forwardHTTPSWebsocket ?e ?W] =>
      destruct (forwardHTTPSWebsocket_ok e W) as (evs & Ht & Hok);
      destruct (forwardHTTPSWebsocket e W) as [o w']
  end;
  cbn [fst snd ctx trace] in Ht, Hok.

Ltac exec_dispatch :=
  red_run;
  repeat (first [ use_handler | name_call | head_match ]; red_run).

Lemma handler_stage_not_Finish (l : list Call) :
  Forall handler_stage l -> Forall (fun c => stage c <> SFinish) l.
Proof.
  intros H. eapply Forall_impl; [exact H|]. intros c (_ & _ & Hc). exact Hc.
Qed.

(** The delegate calls of a request: those of the body, which respect abort
    and have no Finish, and then Finish, handed the context the body left. *)
Lemma ServeHTTP_calls (e : Env) (req : Request) (w : World) :
  exists evs,
    trace (snd (ServeHTTP e req w)) = (trace w ++ evs)%list /\
    exists body fin,
      calls evs = (body ++ [fin])%list /\
      stage fin = SFinish /\
      Forall (fun c => stage c <> SFinish) body /\
      disciplined body (before fin).
Proof.
  enough (H : forall r, r = ServeHTTP e req w ->
            exists evs,
              trace (snd r) = (trace w ++ evs)%list /\
              exists body fin,
                calls evs = (body ++ [fin])%list /\
                stage fin = SFinish /\
                Forall (fun c => stage c <> SFinish) body /\
                disciplined body (before fin)) by eauto.
  unfold ServeHTTP. exec_dispatch; intros ?r ->; cbn [fst snd ctx trace];
    repeat match goal with H : trace _ = _ |- _ => rewrite H; clear H end;
    new_events;
    repeat (progress (simpl; rewrite ?calls_app));
    simpl;
    match goal with
    | |- exists body fin, [?a; ?f] = _ /\ _ => exists [a], f
    | |- exists body fin, [?a; ?b; ?f] = _ /\ _ => exists [a; b], f
    | |- exists body fin, ?a :: ?b :: (?l ++ [?f])%list = _ /\ _ =>
        exists (a :: b :: l), f
    end;
    (split; [reflexivity|]); (split; [reflexivity|]);
    try (destruct Hok as (_ & Hst & Hdis); apply handler_stage_not_Finish in Hst);
    (split;
     [ repeat (constructor; [simpl; discriminate|]); try assumption; constructor
     | simpl; intuition (try congruence; try discriminate) ]).
Qed.

Lemma finishes_app (l1 l2 : list Call) :
  finishes (l1 ++ l2) = (finishes l1 + finishes l2)%nat.
Proof. induction l1 as [|c l1 IH]; simpl; [reflexivity|]. rewrite IH. lia. Qed.

Lemma finishes_none (l : list Call) :
  Forall (fun c => stage c <> SFinish) l -> finishes l = 0%nat.
Proof.
  induction 1 as [|c l Hc _ IH]; simpl; [reflexivity|].
  rewrite decide_False by exact Hc. exact IH.
Qed.

(** In a body that respects abort and is followed by Finish, a call that
    leaves abort set is followed by Finish alone. *)
Lemma abort_cut (body : list Call) (fin : Call) :
  disciplined body (before fin) ->
  stage fin = SFinish ->
  forall pre c post,
    (body ++ [fin])%list = (pre ++ c :: post)%list ->
    stage c <> SFinish ->
    abort (after c) = true ->
    post = [fin] /\
    forall k, failKind (stage c) = Some k -> errType (before fin) = Some k.
Proof.
  intros Hdis Hfin. induction body as [|x body IH]; intros pre c post Heq Hc Hab.
  - destruct pre as [|y pre]; simpl in Heq.
    + inversion Heq; subst. contradiction.
    + inversion Heq as [[Hy Hnil]]. destruct pre; discriminate Hnil.
  - destruct Hdis as [Hx Hrest]. destruct pre as [|y pre]; simpl in Heq.
    + inversion Heq; subst. destruct (Hx Hab) as [-> Hk]. auto.
    + inversion Heq; subst. eapply IH; eauto.
Qed.

(** C3: for every request the log has exactly one call of Finish, and a
    delegate call of another stage that leaves abort set is followed by
    Finish and by no other delegate call; when the stage is Connect, Auth,
    BeforeRequest, ParentProxy or BeforeResponse, Finish is handed a context
    with the failure kind of that stage. *)
Theorem ServeHTTP_finish_once_and_abort :
  forall (e : Env) (req : Request) (w : World),
    exists evs,
      trace (snd (ServeHTTP e req w)) = (trace w ++ evs)%list /\
      finishes (calls evs) = 1%nat /\
      forall pre c post,
        calls evs = (pre ++ c :: post)%list ->
        stage c <> SFinish ->
        abort (after c) = true ->
        exists fin,
          post = [fin] /\ stage fin = SFinish /\
          forall k, failKind (stage c) = Some k -> errType (before fin) = Some k.
Proof.
  intros e req w.
  destruct (ServeHTTP_calls e req w) as (evs & Ht & body & fin & Hc & Hfin & Hno & Hdis).
  exists evs. split; [exact Ht|]. split.
  - rewrite Hc, finishes_app, (finishes_none body Hno). simpl.
    rewrite decide_True by exact Hfin. reflexivity.
  - intros pre c post Heq Hst Hab. rewrite Hc in Heq.
    destruct (abort_cut body fin Hdis Hfin pre c post Heq Hst Hab) as [-> Hk].
    exists fin. auto.
Qed.

Lemma headerContains_has_token (h : Header) (name token : string) :
  plain token = true ->
  headerContains h name token = true <-> has_token (Header_values h name) token.
Proof.
  intros Hp. unfold headerContains, has_token. rewrite existsb_exists. split.
  - intros (v & Hv & Hs). apply existsb_exists in Hs. destruct Hs as (s & Hs & Heq).
    exists v, s. split; [exact Hv|].
    split; [apply Split_pieces; exact Hs | apply EqualFold_TrimSpace; assumption].
  - intros (v & s & Hv & Hs & Heq). exists v. split; [exact Hv|].
    apply existsb_exists. exists s.
    split; [apply Split_pieces; exact Hs | apply EqualFold_TrimSpace; assumption].
Qed.

Lemma isWebSocketRequest_is_upgrade (r : Request) :
  isWebSocketRequest r = true <-> is_upgrade r.
Proof.
  unfold isWebSocketRequest, is_upgrade.
  rewrite andb_true_iff, !headerContains_has_token by reflexivity. reflexivity.
Qed.

(** The handlers that a request enters: none when Connect or Auth leaves
    abort set, and otherwise the one that the nested tests of the dispatcher
    pick for the request as Auth left it. *)
Lemma ServeHTTP_handlers (e : Env) (req : Request) (w : World) :
  let req' := if String.eqb (url_Host (req_URL req)) ""
              then set_url_Host (req_Host req) req else req in
  let c1 := Connect (delegate e) (newContext req') in
  let c2 := Auth (delegate e) c1 in
  exists evs,
    trace (snd (ServeHTTP e req w)) = (trace w ++ evs)%list /\
    handlers evs =
      if abort c1 then []
      else if abort c2 then []
      else
        [if String.eqb (req_Method (Req c2)) "CONNECT"
         then if String.eqb (Header_Get (req_Header (Req c2)) "MITM") "Enabled"
              then if isWebSocketRequest (Req c2)
                   then HforwardHTTPSWebsocket else HforwardHTTPS
              else HforwardTunnel
         else if isWebSocketRequest (Req c2)
              then HforwardHTTPWebsocket else HforwardHTTP].
Proof.
  cbv zeta.
  remember (if String.eqb (url_Host (req_URL req)) ""
            then set_url_Host (req_Host req) req else req) as req' eqn:Ereq.
  remember (Connect (delegate e) (newContext req')) as c1 eqn:E1.
  remember (Auth (delegate e) c1) as c2 eqn:E2.
  enough (H : forall r, r = ServeHTTP e req w ->
            exists evs,
              trace (snd r) = (trace w ++ evs)%list /\
              handlers evs =
                if abort c1 then []
                else if abort c2 then []
                else
                  [if String.eqb (req_Method (Req c2)) "CONNECT"
                   then if String.eqb (Header_Get (req_Header (Req c2)) "MITM")
                                      "Enabled"
                        then if isWebSocketRequest (Req c2)
                             then HforwardHTTPSWebsocket else HforwardHTTPS
                        else HforwardTunnel
                   else if isWebSocketRequest (Req c2)
                        then HforwardHTTPWebsocket else HforwardHTTP]) by eauto.
  unfold ServeHTTP. red_run. rewrite <- Ereq, <- E1.
  destruct (abort c1); red_run;
    [ | rewrite <- E2; destruct (abort c2); red_run ];
    exec_dispatch; intros ?r ->; cbn [fst snd ctx trace];
    repeat match goal with H : trace _ = _ |- _ => rewrite H; clear H end;
    new_events;
    repeat (progress (simpl; rewrite ?handlers_app));
    try reflexivity;
    destruct Hok as (-> & _ & _); reflexivity.
Qed.

(** C1, as amended: when Connect or Auth leaves abort set, ServeHTTP enters
    no handler; otherwise it enters exactly one, picked by the table from the
    request as Auth left it: CONNECT with MITM equal to Enabled goes to the
    MITM HTTPS forwarder, or to the MITM WebSocket forwarder for a WebSocket
    upgrade; CONNECT otherwise goes to the tunnel; another method goes to the
    plain WebSocket forwarder for a WebSocket upgrade and to the plain HTTP
    forwarder otherwise. *)
Theorem ServeHTTP_routes :
  forall (e : Env) (req : Request) (w : World),
    let req' := if String.eqb (url_Host (req_URL req)) ""
                then set_url_Host (req_Host req) req else req in
    let c1 := Connect (delegate e) (newContext req') in
    let c2 := Auth (delegate e) c1 in
    let r := Req c2 in
    exists evs,
      trace (snd (ServeHTTP e req w)) = (trace w ++ evs)%list /\
      (abort c1 = true -> handlers evs = []) /\
      (abort c1 = false -> abort c2 = true -> handlers evs = []) /\
      (abort c1 = false -> abort c2 = false ->
       (req_Method r = "CONNECT" ->
        Header_Get (req_Header r) "MITM" = "Enabled" ->
        ~ is_upgrade r -> handlers evs = [HforwardHTTPS]) /\
       (req_Method r = "CONNECT" ->
        Header_Get (req_Header r) "MITM" = "Enabled" ->
        is_upgrade r -> handlers evs = [HforwardHTTPSWebsocket]) /\
       (req_Method r = "CONNECT" ->
        Header_Get (req_Header r) "MITM" <> "Enabled" ->
        handlers evs = [HforwardTunnel]) /\
       (req_Method r <> "CONNECT" ->
        ~ is_upgrade r -> handlers evs = [HforwardHTTP]) /\
       (req_Method r <> "CONNECT" ->
        is_upgrade r -> handlers evs = [HforwardHTTPWebsocket])).
Proof.
  intros e req w req' c1 c2 r.
  destruct (ServeHTTP_handlers e req w) as (evs & Ht & Hh).
  fold req' c1 c2 r in Hh.
  exists evs. split; [exact Ht|].
  assert (Hws : isWebSocketRequest r = false <-> ~ is_upgrade r).
  { rewrite <- isWebSocketRequest_is_upgrade. destruct (isWebSocketRequest r);
      split; intros H; congruence. }
  split; [intros H1; rewrite Hh, H1; reflexivity|].
  split; [intros H1 H2; rewrite Hh, H1, H2; reflexivity|].
  intros H1 H2. rewrite H1, H2 in Hh. repeat split.
  - intros Hm Hh' Hu. apply String.eqb_eq in Hm, Hh'. apply Hws in Hu.
    rewrite Hh, Hm, Hh', Hu. reflexivity.
  - intros Hm Hh' Hu. apply String.eqb_eq in Hm, Hh'.
    apply isWebSocketRequest_is_upgrade in Hu.
    rewrite Hh, Hm, Hh', Hu. reflexivity.
  - intros Hm Hh'. apply String.eqb_eq in Hm. apply String.eqb_neq in Hh'.
    rewrite Hh, Hm, Hh'. reflexivity.
  - intros Hm Hu. apply String.eqb_neq in Hm. apply Hws in Hu.
    rewrite Hh, Hm, Hu. reflexivity.
  - intros Hm Hu. apply String.eqb_neq in Hm.
    apply isWebSocketRequest_is_upgrade in Hu.
    rewrite Hh, Hm, Hu. reflexivity.
Qed.

(** The upgrade request of the spec's scenario goes to the plain WebSocket
    forwarder. *)
Example upgrade_request_routed :
  handlers (trace (snd (ServeHTTP env0 upgradeRequest (world0 upgradeRequest))))
  = [HforwardHTTPWebsocket].
Proof. vm_compute. reflexivity. Qed.

(** White space and case are those of Unicode: a request whose Connection
    value ends with a no-break space and whose Upgrade token is written
    with the Kelvin sign is a WebSocket upgrade, and goes to the plain
    WebSocket forwarder. *)
Example unicode_upgrade_request_routed :
  is_upgrade (request0 "GET" upgradeHeader) /\
  handlers (trace (snd (ServeHTTP env0 (request0 "GET" upgradeHeader)
                          (world0 (request0 "GET" upgradeHeader)))))
  = [HforwardHTTPWebsocket].
Proof.
  split; [|vm_compute; reflexivity].
  apply isWebSocketRequest_is_upgrade. vm_compute. reflexivity.
Qed.

(** C1, as stated, fails: when the delegate aborts in Connect, ServeHTTP
    enters no handler. *)
Lemma ServeHTTP_routes_counterexample :
  handlers (trace (snd (ServeHTTP env_refusing upgradeRequest
                          (world0 upgradeRequest)))) = [] /\
  length (handlers (trace (snd (ServeHTTP env_refusing upgradeRequest
                                  (world0 upgradeRequest))))) <> 1%nat.
Proof. vm_compute. split; [reflexivity | discriminate]. Qed.

(** * Bytes through the pump *)

Lemma string_app_length (a b : string) :
  String.length (a ++ b) = (String.length a + String.length b)%nat.
Proof.
  induction a as [|x a IH]; [reflexivity|]. rewrite string_app_cons. simpl.
  rewrite IH. reflexivity.
Qed.

Lemma string_app_inv_head (a b c : string) :
  (a ++ b)%string = (a ++ c)%string -> b = c.
Proof.
  induction a as [|x a IH]; intros H; [exact H|].
  rewrite !string_app_cons in H. inversion H. auto.
Qed.

Lemma Writer_eqb_eq (a b : Writer) : Writer_eqb a b = true <-> a = b.
Proof.
  destruct a as [|i], b as [|j]; simpl; split; intros H; try reflexivity;
    try discriminate.
  - apply ConnId_eqb_eq in H. subst. reflexivity.
  - inversion H. apply ConnId_eqb_refl.
Qed.

Lemma Writer_eqb_refl (a : Writer) : Writer_eqb a a = true.
Proof. apply Writer_eqb_eq. reflexivity. Qed.

Lemma Writer_eqb_refl_conn (i : ConnId) : ConnId_eqb i i = true.
Proof. apply ConnId_eqb_refl. Qed.

Section Relay.

Variable e : Env.

Lemma stream_app (wr : Writer) (t1 t2 : list Event) :
  stream e wr (t1 ++ t2) = (stream e wr t1 ++ stream e wr t2)%string.
Proof.
  induction t1 as [|ev t1 IH]; simpl; [reflexivity|].
  destruct ev; try exact IH.
  destruct (Writer_eqb w wr); [|exact IH]. rewrite IH, string_app_assoc. reflexivity.
Qed.

Lemma sent_app (wr : Writer) (t1 t2 : list Event) :
  sent e wr (t1 ++ t2) = sent e wr t1 + sent e wr t2.
Proof.
  induction t1 as [|ev t1 IH]; simpl; [reflexivity|].
  destruct ev; try exact IH.
  destruct (Writer_eqb w wr); [|exact IH]. rewrite IH. lia.
Qed.

Lemma sent_bytes_to (i : ConnId) (t : list Event) :
  sent e (toConn i) t = bytes_to e i t.
Proof.
  induction t as [|ev t IH]; simpl; [reflexivity|].
  destruct ev; simpl; rewrite <- ?IH; try reflexivity.
  destruct w as [|j]; simpl; [reflexivity|].
  case_decide as Hj.
  - subst j. rewrite ConnId_eqb_refl. reflexivity.
  - rewrite (ConnId_eqb_ne j i Hj). reflexivity.
Qed.

Lemma stream_snoc_other (wr : Writer) (t : list Event) (ev : Event) :
  (forall o, ev <> EvWrite wr o) -> stream e wr (t ++ [ev]) = stream e wr t.
Proof.
  intros Hev. rewrite stream_app. simpl.
  destruct ev; try apply string_app_nil_r.
  destruct (Writer_eqb w wr) eqn:E; [|apply string_app_nil_r].
  apply Writer_eqb_eq in E. subst w. exfalso. apply (Hev o). reflexivity.
Qed.

Lemma sent_snoc_other (wr : Writer) (t : list Event) (ev : Event) :
  (forall o, ev <> EvWrite wr o) -> sent e wr (t ++ [ev]) = sent e wr t.
Proof.
  intros Hev. rewrite sent_app. simpl.
  destruct ev; try lia.
  destruct (Writer_eqb w wr) eqn:E; [|lia].
  apply Writer_eqb_eq in E. subst w. exfalso. apply (Hev o). reflexivity.
Qed.

Lemma is_closed_set_conn (k x : ConnId) (c : Conn) (w : World) :
  closed c = closed (conn w k) -> is_closed (set_conn k c w) x = is_closed w x.
Proof.
  intros Hc. unfold is_closed, set_conn. simpl.
  destruct x, k; simpl; rewrite ?Hc; reflexivity.
Qed.

(** A write of bytes to an open connection whose writes succeed. *)
Lemma write_conn_ok (i : ConnId) (b : string) (w : World) :
  is_closed w i = false ->
  wfaults (conn w i) = [] ->
  write_conn e i (Bytes b) w =
    (String.length b, None,
     record (EvWrite (toConn i) (Bytes b))
       (set_conn i (mkConn (closed (conn w i)) [] (incoming (conn w i))
                           (rerr (conn w i))) w)).
Proof.
  intros Hc Hw. unfold write_conn. rewrite Hc, Hw. reflexivity.
Qed.

Lemma conn_set_conn_eq (k : ConnId) (c : Conn) (w : World) :
  conn (set_conn k c w) k = c.
Proof. simpl. rewrite ConnId_eqb_refl. reflexivity. Qed.

Lemma conn_set_conn_ne (k x : ConnId) (c : Conn) (w : World) :
  x <> k -> conn (set_conn k c w) x = conn w x.
Proof. intros H. simpl. rewrite (ConnId_eqb_ne x k H). reflexivity. Qed.

(** A step of the copier keeps what it relies on. *)
Lemma relay_own (i j : ConnId) (len : Z -> Context -> Context) (all : string)
      (off : Z) (g : Copier) (w : World) :
  i <> j ->
  relay_inv e i j all off g w ->
  relay_inv e i j all off (fst (copy_step e i j len g w))
            (snd (copy_step e i j len g w)).
Proof.
  intros Hne (Hci & Hcj & Hwf & Hall & Hsent & Hrd).
  unfold copy_step. destruct g as [n|n er|n| |]; simpl in Hrd.
  - rewrite Hcj. destruct (incoming (conn w j)) as [|chunk rest] eqn:Hin.
    + cbn [fst snd]. unfold relay_inv. cbn [trace record conn].
      rewrite stream_snoc_other, sent_snoc_other by (intros o; discriminate).
      rewrite Hin. auto 10.
    + set (w1 := set_conn j (mkConn (closed (conn w j)) (wfaults (conn w j)) rest
                                   (rerr (conn w j))) w).
      assert (Hci1 : is_closed w1 i = false).
      { unfold w1. rewrite is_closed_set_conn by reflexivity. exact Hci. }
      assert (Hcj1 : is_closed w1 j = false).
      { unfold w1. rewrite is_closed_set_conn by reflexivity. exact Hcj. }
      assert (Hi1 : conn w1 i = conn w i).
      { unfold w1. apply conn_set_conn_ne. exact Hne. }
      assert (Hj1 : incoming (conn w1 j) = rest).
      { unfold w1. rewrite conn_set_conn_eq. reflexivity. }
      destruct (String.eqb chunk "") eqn:Ech.
      * apply String.eqb_eq in Ech. subst chunk. cbn [fst snd].
        unfold relay_inv. rewrite Hi1, Hj1. repeat split; try assumption.
        intros H. discriminate H.
      * rewrite (write_conn_ok i chunk w1 Hci1) by (rewrite Hi1; exact Hwf).
        cbn [fst snd]. unfold relay_inv.
        set (c' := mkConn _ _ _ _).
        assert (Hcl : closed c' = closed (conn w1 i)) by reflexivity.
        change (is_closed (record ?ev ?x) ?y) with (is_closed x y).
        rewrite !(is_closed_set_conn i _ c' w1 Hcl).
        change (conn (record ?ev ?x)) with (conn x).
        change (trace (record ?ev ?x)) with (trace x ++ [ev])%list.
        rewrite conn_set_conn_eq, (conn_set_conn_ne i j) by congruence.
        rewrite Hj1.
        change (trace (set_conn i c' w1)) with (trace w).
        rewrite stream_app, sent_app. cbn [stream sent Writer_eqb wire out_len].
        rewrite ConnId_eqb_refl, string_app_nil_r, string_app_length.
        repeat split; try assumption.
        -- rewrite string_app_assoc. exact Hall.
        -- rewrite Hsent. lia.
        -- intros H. discriminate H.
  - cbn [fst snd]. unfold relay_inv. destruct er; simpl; auto 10.
  - cbn [fst snd]. unfold relay_inv. simpl. auto 10.
  - cbn [fst snd]. unfold relay_inv. simpl. auto 10.
  - cbn [fst snd]. unfold relay_inv. simpl. auto 10.
Qed.

(** And a step of the copier that works the other way leaves it alone. *)
Lemma relay_other (i j : ConnId) (len : Z -> Context -> Context) (all all2 : string)
      (off off2 : Z) (g g2 : Copier) (w : World) :
  i <> j ->
  relay_inv e j i all2 off2 g2 w ->
  relay_inv e i j all off g w ->
  relay_inv e i j all off g (snd (copy_step e j i len g2 w)).
Proof.
  intros Hne (Hcj & Hci & Hwf2 & _) (_ & _ & Hwf & Hall & Hsent & Hrd).
  assert (Hother : forall o, EvWrite (toConn j) o <> EvWrite (toConn i) o)
    by (intros o H; inversion H; congruence).
  unfold copy_step. destruct g2 as [n|n er|n| |].
  - rewrite Hci. destruct (incoming (conn w i)) as [|chunk rest] eqn:Hin.
    + cbn [fst snd]. unfold relay_inv. cbn [trace record conn].
      change (is_closed (record ?ev ?x) ?y) with (is_closed x y).
      rewrite stream_snoc_other, sent_snoc_other by (intros o; discriminate).
      auto 10.
    + set (w1 := set_conn i (mkConn (closed (conn w i)) (wfaults (conn w i)) rest
                                   (rerr (conn w i))) w).
      assert (Hci1 : is_closed w1 i = false).
      { unfold w1. rewrite is_closed_set_conn by reflexivity. exact Hci. }
      assert (Hcj1 : is_closed w1 j = false).
      { unfold w1. rewrite is_closed_set_conn by reflexivity. exact Hcj. }
      assert (Hj1 : conn w1 j = conn w j).
      { unfold w1. apply conn_set_conn_ne. congruence. }
      assert (Hi1 : wfaults (conn w1 i) = []).
      { unfold w1. rewrite conn_set_conn_eq. exact Hwf. }
      destruct (String.eqb chunk "") eqn:Ech.
      * cbn [fst snd]. unfold relay_inv. rewrite Hj1. repeat split; assumption.
      * rewrite (write_conn_ok j chunk w1 Hcj1) by (rewrite Hj1; exact Hwf2).
        cbn [fst snd]. unfold relay_inv.
        set (c' := mkConn _ _ _ _).
        assert (Hcl : closed c' = closed (conn w1 j)) by reflexivity.
        change (is_closed (record ?ev ?x) ?y) with (is_closed x y).
        rewrite !(is_closed_set_conn j _ c' w1 Hcl).
        change (conn (record ?ev ?x)) with (conn x).
        change (trace (record ?ev ?x)) with (trace x ++ [ev])%list.
        rewrite conn_set_conn_eq, (conn_set_conn_ne j i) by exact Hne.
        change (trace (set_conn j c' w1)) with (trace w).
        rewrite stream_snoc_other, sent_snoc_other
          by (intros o H; inversion H; congruence).
        unfold c'. cbn [incoming]. rewrite Hj1.
        repeat split; assumption.
  - cbn [fst snd]. unfold relay_inv. destruct er; simpl; auto 10.
  - cbn [fst snd]. unfold relay_inv. simpl. auto 10.
  - cbn [fst snd]. unfold relay_inv. simpl. auto 10.
  - cbn [fst snd]. unfold relay_inv. simpl. auto 10.
Qed.

(** Both copiers keep relaying while the pump runs. *)
Lemma pump_relays (fuel : nat) :
  forall (sched : list bool) (src dst : ConnId) (a b : Copier) (w : World)
         (up down : string) (off_up off_down : Z),
    src <> dst ->
    relay_inv e src dst down off_down a w ->
    relay_inv e dst src up off_up b w ->
    relay_inv e src dst down off_down
              (fst (fst (pump e fuel sched src dst a b w)))
              (snd (pump e fuel sched src dst a b w)) /\
    relay_inv e dst src up off_up
              (snd (fst (pump e fuel sched src dst a b w)))
              (snd (pump e fuel sched src dst a b w)).
Proof.
  induction fuel as [|fuel IH];
    intros sched src dst a b w up down off_up off_down Hne Ha Hb.
  - simpl. auto.
  - simpl. destruct (is_Exited a && is_Exited b); [simpl; auto|].
    destruct (if is_Exited a then false else if is_Exited b then true else hd false sched).
    + pose proof (relay_own src dst set_RespLength down off_down a w Hne Ha) as Ha'.
      pose proof (relay_other dst src set_RespLength up down off_up off_down b a w
                    (not_eq_sym Hne) Ha Hb) as Hb'.
      destruct (copy_step e src dst set_RespLength a w) as [a' w1].
      apply IH; assumption.
    + pose proof (relay_own dst src set_ReqLength up off_up b w (not_eq_sym Hne) Hb)
        as Hb'.
      pose proof (relay_other src dst set_ReqLength down up off_down off_up a b w
                    Hne Hb Ha) as Ha'.
      destruct (copy_step e dst src set_ReqLength b w) as [b' w1].
      apply IH; assumption.
Qed.

End Relay.

(** What the pump relays between two open ends whose writes succeed. *)
Lemma transfer_relays :
  forall (e : Env) (src dst : ConnId) (w : World),
    src <> dst ->
    is_closed w src = false ->
    is_closed w dst = false ->
    wfaults (conn w src) = [] ->
    wfaults (conn w dst) = [] ->
    exists evs,
      trace (snd (transfer e src dst w)) = (trace w ++ evs)%list /\
      Forall plain_event evs /\
      stream e (toConn dst) evs = joined (incoming (conn w src)) /\
      stream e (toConn src) evs = joined (incoming (conn w dst)) /\
      ReqLength (ctx (snd (transfer e src dst w))) =
        Z.of_nat (String.length (joined (incoming (conn w src)))) /\
      RespLength (ctx (snd (transfer e src dst w))) =
        Z.of_nat (String.length (joined (incoming (conn w dst)))).
Proof.
  intros e src dst w Hne Hcs Hcd Hws Hwd.
  destruct (transfer_spec e src dst w Hne)
    as (_ & evs & n1 & er1 & n2 & er2 & Ht & Hpe & _ & _ & Hb1 & Hb2 & Hr & Hq & _).
  revert Ht Hr Hq. unfold transfer.
  set (w0 := record (EvPump src dst) w).
  set (fuel := (steps_left dst (AtCopy 0) w0 + steps_left src (AtCopy 0) w0)%nat).
  assert (Ha : relay_inv e src dst
                 (stream e (toConn src) (trace w0) ++ joined (incoming (conn w0 dst)))
                 (sent e (toConn src) (trace w0)
                  - Z.of_nat (String.length (stream e (toConn src) (trace w0))))
                 (AtCopy 0) w0).
  { unfold relay_inv. repeat split; try assumption; try lia. intros H; discriminate H. }
  assert (Hb : relay_inv e dst src
                 (stream e (toConn dst) (trace w0) ++ joined (incoming (conn w0 src)))
                 (sent e (toConn dst) (trace w0)
                  - Z.of_nat (String.length (stream e (toConn dst) (trace w0))))
                 (AtCopy 0) w0).
  { unfold relay_inv. repeat split; try assumption; try lia. intros H; discriminate H. }
  destruct (pump_relays e fuel (schedule e) src dst _ _ w0 _ _ _ _ Hne Ha Hb)
    as [Ha' Hb'].
  destruct (pump_completes e fuel (schedule e) src dst (AtCopy 0) (AtCopy 0) w0 Hne
              (Nat.le_refl _)) as [Ea Eb].
  destruct (pump e fuel (schedule e) src dst (AtCopy 0) (AtCopy 0) w0)
    as [[a b] w1]. cbn [fst snd] in *. subst a b.
  rewrite !close_conn_trace, !close_conn_ctx. intros Ht Hr Hq.
  assert (Ht1 : trace w1 = (trace w ++ [EvPump src dst] ++ evs)%list).
  { apply (app_inv_tail [EvClose src; EvClose dst]).
    rewrite <- !app_assoc in *. simpl in *. exact Ht. }
  destruct Ha' as (_ & _ & _ & Halla & Hsenta & Hrda).
  destruct Hb' as (_ & _ & _ & Hallb & Hsentb & Hrdb).
  rewrite (Hrda eq_refl) in Halla. rewrite (Hrdb eq_refl) in Hallb.
  simpl in Halla, Hallb. rewrite string_app_nil_r in Halla, Hallb.
  assert (Hw0 : forall i, stream e (toConn i) (trace w0) = stream e (toConn i) (trace w)).
  { intros i. unfold w0. simpl. apply stream_snoc_other. intros o; discriminate. }
  assert (Hs0 : forall i, sent e (toConn i) (trace w0) = sent e (toConn i) (trace w)).
  { intros i. unfold w0. simpl. apply sent_snoc_other. intros o; discriminate. }
  assert (H1 : forall i, stream e (toConn i) (trace w1)
                         = (stream e (toConn i) (trace w) ++ stream e (toConn i) evs)%string).
  { intros i. rewrite Ht1, !stream_app. reflexivity. }
  assert (H2 : forall i, sent e (toConn i) (trace w1)
                         = sent e (toConn i) (trace w) + sent e (toConn i) evs).
  { intros i. rewrite Ht1, !sent_app. simpl. lia. }
  rewrite Hw0, H1 in Halla, Hallb. rewrite H1, H2, Hw0, Hs0 in Hsenta, Hsentb.
  apply string_app_inv_head in Halla, Hallb.
  rewrite string_app_length in Hsenta, Hsentb.
  exists ([EvPump src dst] ++ evs ++ [EvClose src; EvClose dst])%list.
  split; [rewrite Ht; reflexivity|].
  split.
  { apply Forall_app. split; [repeat constructor|].
    apply Forall_app. split; [apply pump_event_plain; exact Hpe | repeat constructor]. }
  assert (Hev : forall i, stream e (toConn i)
                            ([EvPump src dst] ++ evs ++ [EvClose src; EvClose dst])
                          = stream e (toConn i) evs).
  { intros i. rewrite !stream_app. simpl. apply string_app_nil_r. }
  rewrite !Hev.
  split; [exact Hallb|]. split; [exact Halla|].
  rewrite Hq, Hr, <- Hb1, <- Hb2, <- !sent_bytes_to.
  rewrite <- Halla, <- Hallb. split; lia.
Qed.

(** X8: when both ends are open and no write fails, transfer delivers to
    each end the bytes that the other end sent, whole and in order, whatever
    the order in which the two copies run; ReqLength is the number of bytes
    that came from the first connection and RespLength the number that came
    from the second. *)
Theorem transfer_relays_bytes :
  forall (e : Env) (src dst : ConnId) (w : World),
    src <> dst ->
    is_closed w src = false ->
    is_closed w dst = false ->
    wfaults (conn w src) = [] ->
    wfaults (conn w dst) = [] ->
    exists evs,
      trace (snd (transfer e src dst w)) = (trace w ++ evs)%list /\
      stream e (toConn dst) evs = joined (incoming (conn w src)) /\
      stream e (toConn src) evs = joined (incoming (conn w dst)) /\
      ReqLength (ctx (snd (transfer e src dst w))) =
        Z.of_nat (String.length (joined (incoming (conn w src)))) /\
      RespLength (ctx (snd (transfer e src dst w))) =
        Z.of_nat (String.length (joined (incoming (conn w dst)))).
Proof.
  intros e src dst w Hne Hcs Hcd Hws Hwd.
  destruct (transfer_relays e src dst w Hne Hcs Hcd Hws Hwd)
    as (evs & Ht & _ & Hup & Hdown & Hq & Hr).
  exists evs. auto.
Qed.

Lemma transfer_relays_bytes_witness :
  (clientConn <> targetConn /\
   is_closed world_pump clientConn = false /\
   is_closed world_pump targetConn = false /\
   wfaults (conn world_pump clientConn) = [] /\
   wfaults (conn world_pump targetConn) = []) /\
  exists evs,
    trace (snd (transfer env0 clientConn targetConn world_pump))
    = (trace world_pump ++ evs)%list /\
    stream env0 (toConn targetConn) evs = "abc" /\
    stream env0 (toConn clientConn) evs = "hello" /\
    ReqLength (ctx (snd (transfer env0 clientConn targetConn world_pump))) = 3 /\
    RespLength (ctx (snd (transfer env0 clientConn targetConn world_pump))) = 5.
Proof.
  split; [repeat split; discriminate|].
  apply (transfer_relays_bytes env0 clientConn targetConn world_pump);
    [discriminate | reflexivity | reflexivity | reflexivity | reflexivity].
Defined.

(** * Header utilities *)

Lemma fold_Del_lookup (l : list string) (k : string) :
  forall h : Header,
    fold_left
      (fun h f =>
         let f := GoStrings.TrimSpace f in
         if String.eqb f "" then h else Header_Del h f) l h !! k
    = if existsb
           (fun f =>
              negb (String.eqb (GoStrings.TrimSpace f) "") &&
              String.eqb (CanonicalMIMEHeaderKey (GoStrings.TrimSpace f)) k) l
      then None else h !! k.
Proof.
  induction l as [|f l IH]; intros h; simpl; [reflexivity|].
  rewrite IH. destruct (existsb _ l); [rewrite orb_true_r; reflexivity|].
  rewrite orb_false_r.
  destruct (String.eqb (GoStrings.TrimSpace f) ""); simpl; [reflexivity|].
  unfold Header_Del.
  destruct (String.eqb (CanonicalMIMEHeaderKey (GoStrings.TrimSpace f)) k) eqn:E.
  - apply String.eqb_eq in E. subst k. apply lookup_delete_eq.
  - apply String.eqb_neq in E. apply lookup_delete_ne. exact E.
Qed.

Lemma removeConnectionHeaders_lookup (h : Header) (k : string) :
  removeConnectionHeaders h !! k =
    if named_by_Connection h k then None else h !! k.
Proof.
  unfold removeConnectionHeaders, named_by_Connection.
  destruct (String.eqb (Header_Get h "Connection") "") eqn:E.
  - apply String.eqb_eq in E. rewrite E. reflexivity.
  - apply fold_Del_lookup.
Qed.


(** A Connection token followed by a no-break space names its header all
    the same. *)
Example removeConnectionHeaders_unicode :
  removeConnectionHeaders
    (<["Connection" := ["x-a" ++ of_bytes [194; 160]%nat]]> (<["X-A" := ["1"]]> ∅))
  !! "X-A" = None.
Proof. vm_compute. reflexivity. Qed.

(** X2: removeConnectionHeaders is idempotent: after one pass a second one
    finds nothing to delete, also when the Connection header names itself. *)
Theorem removeConnectionHeaders_idempotent (h : Header) :
  removeConnectionHeaders (removeConnectionHeaders h) = removeConnectionHeaders h.
Proof.
  apply map_eq. intros k.
  rewrite (removeConnectionHeaders_lookup (removeConnectionHeaders h)).
  destruct (named_by_Connection (removeConnectionHeaders h) k) eqn:E; [|reflexivity].
  rewrite removeConnectionHeaders_lookup.
  destruct (named_by_Connection h k) eqn:E'; [reflexivity|].
  exfalso.
  assert (Hget : Header_Get (removeConnectionHeaders h) "Connection" = ""
                 \/ Header_Get (removeConnectionHeaders h) "Connection"
                    = Header_Get h "Connection").
  { unfold Header_Get. rewrite removeConnectionHeaders_lookup.
    destruct (named_by_Connection h (CanonicalMIMEHeaderKey "Connection"));
      [left|right]; reflexivity. }
  unfold named_by_Connection in E.
  destruct Hget as [Hg|Hg]; rewrite Hg in E.
  - discriminate E.
  - unfold named_by_Connection in E'. congruence.
Qed.

Lemma Header_values_Add (h : Header) (key v k : string) :
  Header_values (Header_Add h key v) k =
    if decide (CanonicalMIMEHeaderKey key = k)
    then (Header_values h k ++ [v])%list else Header_values h k.
Proof.
  unfold Header_Add, Header_values at 1.
  case_decide as Hk.
  - subst k. rewrite lookup_insert_eq. reflexivity.
  - rewrite lookup_insert_ne by exact Hk. reflexivity.
Qed.

Lemma Header_values_Add_all (key k : string) (vv : list string) :
  forall d : Header,
    Header_values (fold_left (fun d v => Header_Add d key v) vv d) k =
      if decide (CanonicalMIMEHeaderKey key = k)
      then (Header_values d k ++ vv)%list else Header_values d k.
Proof.
  induction vv as [|v vv IH]; intros d; simpl.
  - case_decide; [rewrite app_nil_r|]; reflexivity.
  - rewrite IH, Header_values_Add. case_decide; [|reflexivity].
    rewrite <- app_assoc. reflexivity.
Qed.

Lemma CopyHeader_list (l : list (string * list string)) (k : string) :
  NoDup l.*1 ->
  (forall key vv, (key, vv) ∈ l -> CanonicalMIMEHeaderKey key = key) ->
  forall d : Header,
    Header_values
      (fold_left
         (fun d kv => fold_left (fun d v => Header_Add d (fst kv) v) (snd kv) d)
         l d) k
    = (Header_values d k ++ Header_values (list_to_map l) k)%list.
Proof.
  induction l as [|[key vv] l IH]; intros Hnd Hcan d; simpl.
  - unfold Header_values at 3. rewrite lookup_empty. simpl.
    rewrite app_nil_r. reflexivity.
  - inversion Hnd as [|? ? Hnotin Hnd']; subst.
    rewrite IH; [|exact Hnd'|intros key' vv' Hin; apply (Hcan key' vv'); right; exact Hin].
    rewrite Header_values_Add_all.
    rewrite (Hcan key vv) by left.
    unfold Header_values at 5.
    case_decide as Hk.
    + subst k. rewrite lookup_insert_eq. simpl.
      unfold Header_values at 2.
      rewrite (not_elem_of_list_to_map_1 _ _ Hnotin). simpl.
      rewrite app_nil_r. reflexivity.
    + rewrite lookup_insert_ne by exact Hk. reflexivity.
Qed.

(** X3: CopyHeader adds to the destination: when the keys of the source are
    in canonical form, every key of the result holds the values the
    destination had, followed by the values of the source, in their order.
    Nothing of the destination is replaced or lost. *)
Theorem CopyHeader_appends (dst src : Header) :
  (forall k vv, src !! k = Some vv -> CanonicalMIMEHeaderKey k = k) ->
  forall k,
    Header_values (CopyHeader dst src) k =
      (Header_values dst k ++ Header_values src k)%list.
Proof.
  intros Hcan k. unfold CopyHeader.
  rewrite CopyHeader_list.
  - rewrite list_to_map_to_list. reflexivity.
  - apply NoDup_fst_map_to_list.
  - intros key vv Hin. apply (Hcan key vv). apply elem_of_map_to_list. exact Hin.
Qed.

Lemma CopyHeader_appends_witness :
  (forall k vv, contentType !! k = Some vv -> CanonicalMIMEHeaderKey k = k) /\
  forall k,
    Header_values (CopyHeader contentType contentType) k =
      (Header_values contentType k ++ Header_values contentType k)%list.
Proof.
  assert (H : forall k vv, contentType !! k = Some vv -> CanonicalMIMEHeaderKey k = k).
  { intros k vv Hk. unfold contentType in Hk.
    apply lookup_singleton_Some in Hk. destruct Hk as [<- _]. reflexivity. }
  split; [exact H | apply (CopyHeader_appends contentType contentType H)].
Defined.

(** X4: headerContains, for a token of ASCII bytes with no white space in
    it, finds the token exactly when one of the values under the name, any
    of them and not the first alone, has between its commas a piece that is
    the token once the white space at its two ends is taken off, case aside:
    white space and case are those of Unicode, so that a no-break space is
    trimmed and the Kelvin sign is a k. *)
Theorem headerContains_finds_token :
  forall (h : Header) (name token : string),
    plain token = true ->
    (headerContains h name token = true <->
     exists v p l core r,
       In v (Header_values h name) /\ piece_of v p /\
       p = l ++ core ++ r /\ blank l /\ blank r /\ same_word token core).
Proof.
  intros h name token Hp. rewrite headerContains_has_token by exact Hp.
  unfold has_token, is_token. split.
  - intros (v & p & Hv & Hpc & l & core & r & H). exists v, p, l, core, r. tauto.
  - intros (v & p & l & core & r & Hv & Hpc & H). exists v, p.
    split; [exact Hv|]. split; [exact Hpc|]. exists l, core, r. exact H.
Qed.

Lemma headerContains_finds_token_witness :
  plain "websocket" = true /\
  (headerContains upgradeHeader "Upgrade" "websocket" = true <->
   exists v p l core r,
     In v (Header_values upgradeHeader "Upgrade") /\ piece_of v p /\
     p = l ++ core ++ r /\ blank l /\ blank r /\ same_word "websocket" core).
Proof.
  split; [reflexivity|].
  apply (headerContains_finds_token upgradeHeader "Upgrade" "websocket").
  reflexivity.
Defined.

(** With two Upgrade values, the second of which holds the token after a
    no-break space and with the Kelvin sign for its k, the token is found. *)
Example headerContains_unicode :
  headerContains upgradeHeader "Upgrade" "websocket" = true /\
  headerContains upgradeHeader "Connection" "upgrade" = true.
Proof. vm_compute. split; reflexivity. Qed.

(** * Counting what is written *)

Lemma wrap_wrap (w a n : Z) : 0 < w -> wrap w (wrap w a + n) = wrap w (a + n).
Proof.
  intros Hw. unfold wrap.
  replace ((a + 2 ^ (w - 1)) mod 2 ^ w - 2 ^ (w - 1) + n + 2 ^ (w - 1))
    with ((a + 2 ^ (w - 1)) mod 2 ^ w + n) by lia.
  rewrite Zplus_mod_idemp_l. f_equal. f_equal. lia.
Qed.

Lemma wrap_in_range (w a : Z) :
  0 < w -> - 2 ^ (w - 1) <= a < 2 ^ (w - 1) -> wrap w a = a.
Proof.
  intros Hw Ha. unfold wrap.
  assert (H2 : 2 ^ w = 2 * 2 ^ (w - 1)).
  { rewrite <- Z.pow_succ_r by lia. f_equal. lia. }
  rewrite Z.mod_small by lia. lia.
Qed.

(** A write returns, logs what went to its writer and to no other, and
    returns the number of bytes that went out. *)
Lemma Write_sent (e : Env) (wr : Writer) (o : Out) (w : World) :
  exists n er w' evs,
    Write e wr o w = (Normal (n, er), w') /\
    trace w' = (trace w ++ evs)%list /\
    Forall output_event evs /\
    sent e wr evs = Z.of_nat n /\
    (forall wr', wr' <> wr -> sent e wr' evs = 0) /\
    ctx w' = ctx w /\ clientConnNum w' = clientConnNum w.
Proof.
  assert (Hne : forall wr' : Writer, wr' <> wr -> Writer_eqb wr wr' = false).
  { intros wr' H. destruct (Writer_eqb wr wr') eqn:E; [|reflexivity].
    apply Writer_eqb_eq in E. congruence. }
  destruct wr as [|i]; simpl.
  - unfold rw_Write, rw_WriteHeader.
    destruct (rw_hijacked (rw w)).
    { eexists _, _, w, []. rewrite app_nil_r. repeat split; auto. }
    destruct (rw_status (rw w)); simpl;
      pose proof (out_len_write_fault e o (hd None (rw_faults (rw w)))) as Hlen;
      destruct (write_fault e o (hd None (rw_faults (rw w)))) as [[o' k] er];
      simpl in Hlen; eexists _, _, _, _; (split; [reflexivity|]); simpl;
      (split; [rewrite <- ?app_assoc; reflexivity|]); simpl;
      (split; [repeat constructor|]).
    all: (split; [lia|]).
    all: (split; [|auto]).
    all: intros wr' H; destruct wr'; [congruence | reflexivity].
  - unfold conn_Write, write_conn. destruct (is_closed w i).
    { eexists _, _, w, []. rewrite app_nil_r. repeat split; auto. }
    pose proof (out_len_write_fault e o (hd None (wfaults (conn w i)))) as Hlen.
    destruct (write_fault e o (hd None (wfaults (conn w i)))) as [[o' k] er].
    simpl in Hlen. eexists _, _, _, _. split; [reflexivity|].
    cbn [trace record set_conn ctx clientConnNum].
    split; [reflexivity|]. split; [repeat constructor|].
    cbn [sent Writer_eqb]. rewrite ConnId_eqb_refl. split; [lia|]. split; [|auto].
    intros wr' H. pose proof (Hne wr' H) as E.
    destruct wr' as [|j]; [reflexivity|]. cbn [Writer_eqb] in E. rewrite E. reflexivity.
Qed.



(** One write through a [WriterWithLength]: with tag 0 on a connection it
    panics and nothing is written; otherwise it returns, the writer and the
    tag stay, and the length grows by the bytes that went out. *)
Lemma WriterWithLength_Write_sent (e : Env) (wl : WriterWithLength) (o : Out)
      (w : World) :
  (interfaceType wl <> 0 \/ wl_writer wl = toRW) ->
  exists wl' er w' evs,
    WriterWithLength_Write e wl o w = (Normal (wl', er), w') /\
    trace w' = (trace w ++ evs)%list /\
    wl_writer wl' = wl_writer wl /\
    interfaceType wl' = interfaceType wl /\
    Length wl' = wrap 64 (Length wl + sent e (wl_writer wl) evs).
Proof.
  intros Hok. unfold WriterWithLength_Write.
  destruct (Write_sent e (wl_writer wl) o w)
    as (n & er & w' & evs & Ew & Ht & _ & Hs & _).
  destruct (interfaceType wl =? 0) eqn:Etag.
  - destruct Hok as [Hok|Hok]; [apply Z.eqb_eq in Etag; contradiction|].
    rewrite Hok in *. simpl in Ew. unfold bind. rewrite Ew.
    eexists _, _, w', evs. split; [reflexivity|]. simpl. rewrite Hs. auto.
  - unfold bind. rewrite Ew.
    eexists _, _, w', evs. split; [reflexivity|]. simpl. rewrite Hs. auto.
Qed.

(** X6: over any run of writes the length of a [WriterWithLength] is the count
    of the bytes that went to its writer, on top of what it started with:
    the bytes of a write that failed half way are counted too. *)
Theorem WriterWithLength_counts :
  forall (e : Env) (outs : list Out) (wl : WriterWithLength) (w : World),
    (interfaceType wl <> 0 \/ wl_writer wl = toRW) ->
    in_int64 (Length wl) ->
    exists wl' w' evs,
      WriterWithLength_WriteAll e wl outs w = (Normal wl', w') /\
      trace w' = (trace w ++ evs)%list /\
      Length wl' = wrap 64 (Length wl + sent e (wl_writer wl) evs).
Proof.
  intros e outs. induction outs as [|o outs IH]; intros wl w Hok Hr.
  - exists wl, w, []. rewrite app_nil_r. simpl.
    rewrite Z.add_0_r, wrap_in_range by (unfold in_int64 in Hr; lia). auto.
  - simpl. unfold bind.
    destruct (WriterWithLength_Write_sent e wl o w Hok)
      as (wl1 & er & w1 & evs1 & -> & Ht1 & Hw1 & Hi1 & Hl1).
    simpl.
    destruct (outs) as [|o2 outs'] eqn:Eouts.
    + exists wl1, w1, evs1. simpl. auto.
    + rewrite <- Eouts in *.
      assert (Hr1 : in_int64 (Length wl1)).
      { rewrite Hl1. unfold in_int64, wrap.
        pose proof (Z.mod_pos_bound (Length wl + sent e (wl_writer wl) evs1 + 2 ^ (64 - 1))
                      (2 ^ 64) ltac:(lia)).
        change (2 ^ (64 - 1)) with (2 ^ 63) in *.
        change (2 ^ 64) with (2 * 2 ^ 63) in *. lia. }
      destruct (IH wl1 w1) as (wl2 & w2 & evs2 & E2 & Ht2 & Hl2).
      { rewrite Hw1, Hi1. exact Hok. }
      { exact Hr1. }
      exists wl2, w2, (evs1 ++ evs2)%list. split; [exact E2|].
      split; [rewrite Ht2, Ht1, app_assoc; reflexivity|].
      rewrite Hl2, Hl1, Hw1, sent_app, wrap_wrap by lia.
      rewrite Z.add_assoc. reflexivity.
Qed.

Lemma WriterWithLength_counts_witness :
  ((interfaceType (mkWriterWithLength (toConn tlsClientConn) 1 0) <> 0 \/
    wl_writer (mkWriterWithLength (toConn tlsClientConn) 1 0) = toRW) /\
   in_int64 (Length (mkWriterWithLength (toConn tlsClientConn) 1 0))) /\
  exists wl' w' evs,
    WriterWithLength_WriteAll env0 (mkWriterWithLength (toConn tlsClientConn) 1 0)
      [Bytes "HTTP/1.1 200 OK"; Bytes CRLF] (world0 connectRequest)
    = (Normal wl', w') /\
    trace w' = (trace (world0 connectRequest) ++ evs)%list /\
    Length wl' =
      wrap 64 (Length (mkWriterWithLength (toConn tlsClientConn) 1 0)
               + sent env0 (wl_writer (mkWriterWithLength (toConn tlsClientConn) 1 0))
                      evs).
Proof.
  assert (H1 : interfaceType (mkWriterWithLength (toConn tlsClientConn) 1 0) <> 0 \/
               wl_writer (mkWriterWithLength (toConn tlsClientConn) 1 0) = toRW).
  { left. simpl. lia. }
  assert (H2 : in_int64 (Length (mkWriterWithLength (toConn tlsClientConn) 1 0))).
  { unfold in_int64. simpl. lia. }
  split; [split; assumption|].
  apply (WriterWithLength_counts env0 [Bytes "HTTP/1.1 200 OK"; Bytes CRLF]
           (mkWriterWithLength (toConn tlsClientConn) 1 0) (world0 connectRequest)
           H1 H2).
Defined.

(** ** [CloneBody] *)

(** X5: reading the copy that [CloneBody] returns delivers the bytes it
    returns, with no error; when the body was read to its end these are the
    bytes of the body, and when a read failed the copy is empty, the byte
    slice is nil and the error is the one that comes back. *)
Theorem CloneBody_round_trip :
  forall (b : option Body),
    let '(r, body, er) := CloneBody b in
    ioutil_ReadAll r = (default "" body, None) /\
    match b with
    | None => body = None /\ er = None
    | Some b0 =>
        er = snd (ioutil_ReadAll b0) /\
        body = match er with
               | None => Some (fst (ioutil_ReadAll b0))
               | Some _ => None
               end
    end.
Proof.
  intros [b0|]; simpl; [|auto].
  destruct (body_err b0) as [er|]; [destruct (is_EOF er)|]; simpl;
    repeat split;
    unfold ioutil_ReadAll, bytes_NewReader; simpl;
    destruct (String.eqb (joined (body_chunks b0)) "") eqn:E; simpl;
    try (apply String.eqb_eq in E; rewrite E);
    rewrite ?string_app_nil_r; reflexivity.
Qed.

(** * What a handler leaves alone *)

Section Quiet.

Variable e : Env.
Variable P : Event -> Prop.

Lemma quiet_same {A : Type} (m : M A) :
  (forall w, snd (m w) = w) -> quiet P m.
Proof.
  intros H w. rewrite H. split; [reflexivity|]. exists []. rewrite app_nil_r. auto.
Qed.

Lemma quiet_state {A : Type} (m : M A) :
  (forall w, clientConnNum (snd (m w)) = clientConnNum w /\
             trace (snd (m w)) = trace w) -> quiet P m.
Proof.
  intros H w. destruct (H w) as [Hn Ht]. split; [exact Hn|].
  exists []. rewrite app_nil_r. auto.
Qed.

Lemma quiet_ret {A : Type} (a : A) : quiet P (ret a).
Proof. apply quiet_same. reflexivity. Qed.

Lemma quiet_go_return {A : Type} : quiet P (@go_return A).
Proof. apply quiet_same. reflexivity. Qed.

Lemma quiet_panic {A : Type} (msg : string) : quiet P (@panic A msg).
Proof. apply quiet_same. reflexivity. Qed.

Lemma quiet_getCtx : quiet P getCtx.
Proof. apply quiet_same. reflexivity. Qed.

Lemma quiet_aborted : quiet P aborted.
Proof. apply quiet_same. reflexivity. Qed.

Lemma quiet_modifyCtx (f : Context -> Context) : quiet P (modifyCtx f).
Proof. apply quiet_state. intros w. split; reflexivity. Qed.

Lemma quiet_rw_CopyHeader (h : Header) : quiet P (rw_CopyHeader h).
Proof. apply quiet_state. intros w. split; reflexivity. Qed.

Lemma quiet_bind {A B : Type} (m : M A) (f : A -> M B) :
  quiet P m -> (forall a, quiet P (f a)) -> quiet P (bind m f).
Proof.
  intros Hm Hf w. unfold bind.
  destruct (Hm w) as (Hn & evs & Ht & Hp).
  destruct (m w) as [[a| |msg] w1]; simpl in *.
  - destruct (Hf a w1) as (Hn2 & evs2 & Ht2 & Hp2).
    split; [congruence|]. exists (evs ++ evs2)%list.
    split; [rewrite Ht2, Ht, app_assoc; reflexivity | apply Forall_app; auto].
  - eauto.
  - eauto.
Qed.

Lemma quiet_func (body : M unit) : quiet P body -> quiet P (func body).
Proof.
  intros Hb w. unfold func. destruct (Hb w) as (Hn & evs & Ht & Hp).
  destruct (body w) as [[a| |msg] w1]; simpl in *; eauto.
Qed.

Lemma quiet_defer (d body : M unit) :
  quiet P d -> quiet P body -> quiet P (defer d body).
Proof.
  intros Hd Hb w. unfold defer.
  destruct (Hb w) as (Hn & evs & Ht & Hp).
  destruct (body w) as [o w1]. simpl in *.
  destruct (quiet_func d Hd w1) as (Hn2 & evs2 & Ht2 & Hp2).
  assert (Hres : clientConnNum (snd (func d w1)) = clientConnNum w /\
                 exists evs0, trace (snd (func d w1)) = (trace w ++ evs0)%list /\
                              Forall P evs0).
  { split; [congruence|]. exists (evs ++ evs2)%list.
    split; [rewrite Ht2, Ht, app_assoc; reflexivity | apply Forall_app; auto]. }
  destruct (func d w1) as [[a| |msg] w2]; exact Hres.
Qed.

Lemma quiet_when (b : bool) (m : M unit) : quiet P m -> quiet P (when b m).
Proof. intros Hm. destruct b; [exact Hm | apply quiet_ret]. Qed.

Lemma quiet_one {A : Type} (m : M A) (ev : Event) :
  P ev ->
  (forall w, snd (m w) = w \/
             clientConnNum (snd (m w)) = clientConnNum w /\
             trace (snd (m w)) = (trace w ++ [ev])%list) ->
  quiet P m.
Proof.
  intros Hev H w. destruct (H w) as [Hw|[Hn Ht]].
  - rewrite Hw. split; [reflexivity|]. exists []. rewrite app_nil_r. auto.
  - split; [exact Hn|]. exists [ev]. auto.
Qed.

Lemma quiet_emit (ev : Event) : P ev -> quiet P (emit ev).
Proof. intros Hev. apply (quiet_one _ ev Hev). intros w. right. split; reflexivity. Qed.

Lemma quiet_call (s : Stage) (f : Context -> Context) :
  (forall b a, P (EvDelegate s b a)) -> quiet P (call s f).
Proof.
  intros Hev w. split; [reflexivity|]. eexists [_]. simpl. split; [reflexivity|].
  constructor; [apply Hev | constructor].
Qed.

Lemma quiet_callParentProxy (a : PPArg) :
  (forall b c, P (EvDelegate SParentProxy b c)) -> quiet P (callParentProxy e a).
Proof.
  intros Hev w. unfold callParentProxy.
  destruct (ParentProxy (delegate e) (ctx w) a) as [c' r]. simpl.
  split; [reflexivity|]. eexists [_]. split; [reflexivity|].
  constructor; [apply Hev | constructor].
Qed.

Lemma quiet_callBeforeResponse (x : Wrapper) :
  (forall b c, P (EvDelegate SBeforeResponse b c)) -> quiet P (callBeforeResponse e x).
Proof.
  intros Hev w. unfold callBeforeResponse.
  destruct (BeforeResponse (delegate e) (ctx w) x) as [c' r]. simpl.
  split; [reflexivity|]. eexists [_]. split; [reflexivity|].
  constructor; [apply Hev | constructor].
Qed.

Lemma quiet_callDuringResponse (x : During) :
  (forall b c, P (EvDelegate SDuringResponse b c)) -> quiet P (callDuringResponse e x).
Proof.
  intros Hev w. unfold callDuringResponse.
  destruct (DuringResponse (delegate e) (ctx w) x) as [c' r]. simpl.
  split; [reflexivity|]. eexists [_]. split; [reflexivity|].
  constructor; [apply Hev | constructor].
Qed.

Lemma quiet_Write (wr : Writer) (o : Out) :
  (forall o', P (EvWrite wr o')) ->
  (wr = toRW -> P (EvWriteHeader 200)) ->
  quiet P (Write e wr o).
Proof.
  intros Hev Hhd w. destruct wr as [|i]; simpl.
  - unfold rw_Write, rw_WriteHeader.
    destruct (rw_hijacked (rw w)).
    { simpl. split; [reflexivity|]. exists []. rewrite app_nil_r. auto. }
    destruct (rw_status (rw w)); simpl;
      destruct (write_fault e o (hd None (rw_faults (rw w)))) as [[o' k] er]; simpl;
      (split; [reflexivity|]).
    + eexists [_]. split; [reflexivity|]. constructor; [apply Hev | constructor].
    + eexists [_; _]. rewrite <- app_assoc. split; [reflexivity|].
      constructor; [apply Hhd; reflexivity|]. constructor; [apply Hev | constructor].
  - unfold conn_Write, write_conn. destruct (is_closed w i).
    { simpl. split; [reflexivity|]. exists []. rewrite app_nil_r. auto. }
    destruct (write_fault e o (hd None (wfaults (conn w i)))) as [[o' k] er]. simpl.
    split; [reflexivity|]. eexists [_]. split; [reflexivity|].
    constructor; [apply Hev | constructor].
Qed.

Lemma quiet_conn_Write (i : ConnId) (o : Out) :
  (forall o', P (EvWrite (toConn i) o')) -> quiet P (conn_Write e i o).
Proof. intros Hev. apply (quiet_Write (toConn i) o Hev). intros H. discriminate H. Qed.

Lemma quiet_conn_Close (i : ConnId) : P (EvClose i) -> quiet P (conn_Close i).
Proof.
  intros Hev w. unfold conn_Close. cbn [snd]. rewrite close_conn_trace.
  split; [destruct i; reflexivity|]. exists [EvClose i]. auto.
Qed.

Lemma quiet_rw_WriteHeader (code : Z) :
  P (EvWriteHeader code) -> quiet P (rw_WriteHeader code).
Proof.
  intros Hev. apply (quiet_one _ (EvWriteHeader code) Hev). intros w.
  unfold rw_WriteHeader. destruct (rw_hijacked (rw w)); [left; reflexivity|].
  destruct (rw_status (rw w)); [left; reflexivity|]. right. split; reflexivity.
Qed.

Lemma quiet_hijacker : P EvHijack -> quiet P (hijacker e).
Proof.
  intros Hev. apply (quiet_one _ EvHijack Hev). intros w. unfold hijacker.
  destruct (rw_is_Hijacker e); [|left; reflexivity].
  destruct (if rw_hijacked (rw w) then _ else _); [left; reflexivity|].
  right. split; reflexivity.
Qed.

Lemma quiet_hijackRaw : P EvHijack -> quiet P (hijackRaw e).
Proof.
  intros Hev. apply (quiet_one _ EvHijack Hev). intros w. unfold hijackRaw.
  destruct (if rw_hijacked (rw w) then _ else _); [left; reflexivity|].
  right. split; reflexivity.
Qed.

Lemma quiet_dial (f : string -> option error) (addr : string) :
  P (EvDial addr) -> quiet P (dial f addr).
Proof.
  intros Hev. unfold dial. apply quiet_bind; [apply quiet_emit; exact Hev|].
  intros _. apply quiet_ret.
Qed.

Lemma quiet_CloseNetConn (i : ConnId) : P (EvClose i) -> quiet P (CloseNetConn i).
Proof.
  intros Hev. unfold CloseNetConn. apply quiet_bind; [apply quiet_getCtx|].
  intros c. destruct (Closed c); [apply quiet_ret|].
  apply quiet_bind; [apply quiet_conn_Close; exact Hev|].
  intros _. apply quiet_modifyCtx.
Qed.

Lemma quiet_CloseResponseBody (r : Response) :
  P (EvCloseBody r) -> quiet P (CloseResponseBody r).
Proof.
  intros Hev. unfold CloseResponseBody. apply quiet_bind; [apply quiet_getCtx|].
  intros c. destruct (Closed c); [apply quiet_ret|].
  apply quiet_bind; [apply quiet_emit; exact Hev|].
  intros _. apply quiet_modifyCtx.
Qed.

Lemma quiet_WriteProxyErrorToResponseBody (wr : Writer) (code : Z) (msg pre : string) :
  (forall o', P (EvWrite wr o')) ->
  (wr = toRW -> P (EvWriteHeader 200)) ->
  quiet P (WriteProxyErrorToResponseBody e wr code msg pre).
Proof.
  intros Hev Hhd. unfold WriteProxyErrorToResponseBody.
  apply quiet_bind.
  - apply quiet_when. apply quiet_bind; [apply quiet_Write; assumption|].
    intros r. apply quiet_modifyCtx.
  - intros _. destruct (json_Marshal e _); [apply quiet_panic|].
    apply quiet_bind; [apply quiet_Write; assumption|].
    intros r. apply quiet_modifyCtx.
Qed.

Lemma quiet_io_Copy (wr : Writer) (chunks : list string) :
  (forall o', P (EvWrite wr o')) ->
  (wr = toRW -> P (EvWriteHeader 200)) ->
  forall (rend : option error) (n : Z), quiet P (io_Copy e wr chunks rend n).
Proof.
  intros Hev Hhd. induction chunks as [|chunk rest IH]; intros rend n; simpl.
  - apply quiet_ret.
  - destruct (String.eqb chunk ""); [apply IH|].
    apply quiet_bind; [apply quiet_Write; assumption|].
    intros r. destruct (snd r); [apply quiet_ret | apply IH].
Qed.

Lemma quiet_WriterWithLength_Write (wl : WriterWithLength) (o : Out) :
  (forall o', P (EvWrite (wl_writer wl) o')) ->
  (wl_writer wl = toRW -> P (EvWriteHeader 200)) ->
  quiet P (WriterWithLength_Write e wl o).
Proof.
  intros Hev Hhd. unfold WriterWithLength_Write.
  destruct (interfaceType wl =? 0).
  - destruct (wl_writer wl) eqn:E; [|apply quiet_panic].
    apply quiet_bind; [apply (quiet_Write toRW); auto|].
    intros r. apply quiet_ret.
  - apply quiet_bind; [apply quiet_Write; assumption|].
    intros r. apply quiet_ret.
Qed.

Lemma quiet_websocketHandshake (req : Request) (t c : ConnId) :
  (forall o', P (EvWrite (toConn t) o')) ->
  (forall o', P (EvWrite (toConn c) o')) ->
  quiet P (websocketHandshake e req t c).
Proof.
  intros Ht Hc. unfold websocketHandshake.
  apply quiet_bind; [apply quiet_conn_Write; exact Ht|].
  intros r. destruct (snd r); [apply quiet_ret|].
  destruct (ReadResponse e req); [apply quiet_ret|].
  apply quiet_bind; [apply quiet_conn_Write; exact Hc|].
  intros r2. destruct (snd r2); apply quiet_ret.
Qed.

End Quiet.

Lemma write_conn_count (e : Env) (i : ConnId) (o : Out) (w : World) :
  clientConnNum (snd (write_conn e i o w)) = clientConnNum w.
Proof.
  unfold write_conn. destruct (is_closed w i); [reflexivity|].
  destruct (write_fault e o (hd None (wfaults (conn w i)))) as [[o' k] er].
  reflexivity.
Qed.

Lemma copy_step_count (e : Env) (dst src : ConnId) (len : Z -> Context -> Context)
      (g : Copier) (w : World) :
  clientConnNum (snd (copy_step e dst src len g w)) = clientConnNum w.
Proof.
  unfold copy_step. destruct g as [n|n er|n| |]; try reflexivity.
  - destruct (is_closed w src); [reflexivity|].
    destruct (incoming (conn w src)) as [|chunk rest]; [reflexivity|].
    destruct (String.eqb chunk ""); [reflexivity|].
    match goal with
    | |- context [write_conn e dst ?o ?w1] =>
        pose proof (write_conn_count e dst o w1) as Hc;
        destruct (write_conn e dst o w1) as [[k er'] w2]
    end.
    simpl in Hc. destruct er'; simpl; exact Hc.
  - destruct er; reflexivity.
Qed.

Lemma copy_step_quiet (e : Env) (P : Event -> Prop) (dst src : ConnId)
      (len : Z -> Context -> Context) (g : Copier) (w : World) :
  (forall o, P (EvWrite (toConn dst) o)) ->
  (forall n er, P (EvCopied dst src n er)) ->
  exists new,
    trace (snd (copy_step e dst src len g w)) = (trace w ++ new)%list /\
    Forall P new.
Proof.
  intros Hw Hc.
  destruct (copy_step_effect e dst src len g w) as (new & Ht & Hs).
  exists new. split; [exact Ht|].
  destruct g as [n|n er|n| |]; simpl in Hs;
    try (destruct Hs as (-> & _); constructor).
  destruct Hs as (_ & wr & k & Hwr & Hnew).
  assert (Hf : Forall P wr).
  { destruct Hwr as [[-> _]|[o [-> _]]]; repeat constructor. apply Hw. }
  destruct Hnew as [[-> _]|[er [-> _]]]; [exact Hf|].
  apply Forall_app. split; [exact Hf | repeat constructor; apply Hc].
Qed.

Lemma pump_quiet (e : Env) (P : Event -> Prop) (src dst : ConnId) :
  (forall o, P (EvWrite (toConn src) o)) ->
  (forall o, P (EvWrite (toConn dst) o)) ->
  (forall i j n er, P (EvCopied i j n er)) ->
  forall (fuel : nat) (sched : list bool) (a b : Copier) (w : World),
    clientConnNum (snd (pump e fuel sched src dst a b w)) = clientConnNum w /\
    exists evs,
      trace (snd (pump e fuel sched src dst a b w)) = (trace w ++ evs)%list /\
      Forall P evs.
Proof.
  intros Hs Hd Hc. induction fuel as [|fuel IH]; intros sched a b w.
  - simpl. split; [reflexivity|]. exists []. rewrite app_nil_r. auto.
  - simpl. destruct (is_Exited a && is_Exited b).
    { simpl. split; [reflexivity|]. exists []. rewrite app_nil_r. auto. }
    destruct (if is_Exited a then false else if is_Exited b then true else hd false sched).
    + pose proof (copy_step_count e src dst set_RespLength a w) as Hn.
      destruct (copy_step_quiet e P src dst set_RespLength a w Hs (Hc src dst))
        as (new & Ht & Hp).
      destruct (copy_step e src dst set_RespLength a w) as [a' w1]. simpl in *.
      destruct (IH (tl sched) a' b w1) as (Hn2 & evs & Ht2 & Hp2).
      split; [congruence|]. exists (new ++ evs)%list.
      split; [rewrite Ht2, Ht, app_assoc; reflexivity | apply Forall_app; auto].
    + pose proof (copy_step_count e dst src set_ReqLength b w) as Hn.
      destruct (copy_step_quiet e P dst src set_ReqLength b w Hd (Hc dst src))
        as (new & Ht & Hp).
      destruct (copy_step e dst src set_ReqLength b w) as [b' w1]. simpl in *.
      destruct (IH (tl sched) a b' w1) as (Hn2 & evs & Ht2 & Hp2).
      split; [congruence|]. exists (new ++ evs)%list.
      split; [rewrite Ht2, Ht, app_assoc; reflexivity | apply Forall_app; auto].
Qed.

Lemma quiet_transfer (e : Env) (P : Event -> Prop) (src dst : ConnId) :
  P (EvPump src dst) -> P (EvClose src) -> P (EvClose dst) ->
  (forall o, P (EvWrite (toConn src) o)) ->
  (forall o, P (EvWrite (toConn dst) o)) ->
  (forall i j n er, P (EvCopied i j n er)) ->
  quiet P (transfer e src dst).
Proof.
  intros Hp Hcs Hcd Hs Hd Hc w. unfold transfer.
  set (w0 := record (EvPump src dst) w).
  destruct (pump_quiet e P src dst Hs Hd Hc
              (steps_left dst (AtCopy 0) w0 + steps_left src (AtCopy 0) w0)
              (schedule e) (AtCopy 0) (AtCopy 0) w0) as (Hn & evs & Ht & Hf).
  destruct (pump e _ (schedule e) src dst (AtCopy 0) (AtCopy 0) w0) as [[a b] w1].
  cbn [fst snd] in *. rewrite !close_conn_trace.
  split.
  - transitivity (clientConnNum w1); [destruct src, dst; reflexivity | exact Hn].
  - exists ([EvPump src dst] ++ evs ++ [EvClose src; EvClose dst])%list.
    split.
    + rewrite Ht. unfold w0. simpl. rewrite <- !app_assoc. reflexivity.
    + apply Forall_app. split; [repeat constructor; exact Hp|].
      apply Forall_app. split; [exact Hf | repeat constructor; assumption].
Qed.

(** The request transport adds its three delegate calls, the request to the
    transport and what the continuation adds. *)
Lemma quiet_DoRequest (e : Env) (P : Event -> Prop)
      (responseFunc : error + Response -> M unit) (conn : list ConnArg) :
  (forall s b a, P (EvDelegate s b a)) ->
  (forall r p, P (EvRoundTrip r p)) ->
  (forall r, quiet P (responseFunc r)) ->
  quiet P (DoRequest e responseFunc conn).
Proof.
  intros Hd Hr Hk. unfold DoRequest.
  apply quiet_func.
  apply quiet_bind; [apply quiet_when; apply quiet_go_return|]. intros _. cbv zeta.
  apply quiet_bind; [apply quiet_getCtx|]. intros c.
  apply quiet_bind; [apply quiet_when; apply quiet_modifyCtx|]. intros _.
  apply quiet_bind; [apply quiet_call; intros; apply Hd|]. intros _.
  apply quiet_bind; [apply quiet_aborted|]. intros ab.
  apply quiet_bind.
  { apply quiet_when. apply quiet_bind; [apply quiet_modifyCtx|].
    intros _. apply quiet_go_return. }
  intros _. apply quiet_bind; [apply quiet_getCtx|]. intros c2.
  apply quiet_bind; [apply quiet_callParentProxy; intros; apply Hd|]. intros pp.
  apply quiet_bind; [apply quiet_aborted|]. intros ab2.
  apply quiet_bind.
  { apply quiet_when. apply quiet_bind; [apply quiet_modifyCtx|].
    intros _. apply quiet_go_return. }
  intros _. apply quiet_bind.
  { destruct (DumpRequestOut e _); [apply quiet_ret | apply quiet_modifyCtx]. }
  intros _. apply quiet_bind; [apply quiet_emit; apply Hr|]. intros _.
  apply quiet_bind; [apply quiet_callBeforeResponse; intros; apply Hd|]. intros f.
  apply quiet_bind; [apply quiet_aborted|]. intros ab3.
  apply quiet_bind.
  { apply quiet_when. apply quiet_bind; [apply quiet_modifyCtx|].
    intros _. apply quiet_go_return. }
  intros _. destruct (RoundTrip e _ _ _); apply Hk.
Qed.

(** Takes a program apart along its binds, defers and matches. *)
Ltac quiet_step :=
  lazymatch goal with
  | |- quiet _ (DoRequest _ _ _) => apply quiet_DoRequest; [| |intros ?]
  | |- quiet _ (transfer _ _ _) => apply quiet_transfer
  | |- quiet _ (WriteProxyErrorToResponseBody _ _ _ _ _) =>
      apply quiet_WriteProxyErrorToResponseBody
  | |- quiet _ (io_Copy _ _ _ _ _) => apply quiet_io_Copy
  | |- quiet _ (WriterWithLength_Write _ _ _) => apply quiet_WriterWithLength_Write
  | |- quiet _ (websocketHandshake _ _ _ _) => apply quiet_websocketHandshake
  | |- quiet _ (CloseNetConn _) => apply quiet_CloseNetConn
  | |- quiet _ (CloseResponseBody _) => apply quiet_CloseResponseBody
  | |- quiet _ (hijacker _) => apply quiet_hijacker
  | |- quiet _ (hijackRaw _) => apply quiet_hijackRaw
  | |- quiet _ (dial _ _) => apply quiet_dial
  | |- quiet _ (conn_Write _ _ _) => apply quiet_conn_Write
  | |- quiet _ (conn_Close _) => apply quiet_conn_Close
  | |- quiet _ (rw_WriteHeader _) => apply quiet_rw_WriteHeader
  | |- quiet _ (Write _ _ _) => apply quiet_Write
  | |- quiet _ (callParentProxy _ _) => apply quiet_callParentProxy
  | |- quiet _ (callBeforeResponse _ _) => apply quiet_callBeforeResponse
  | |- quiet _ (callDuringResponse _ _) => apply quiet_callDuringResponse
  | |- quiet _ (call _ _) => apply quiet_call
  | |- quiet _ (emit _) => apply quiet_emit
  | |- quiet _ (rw_CopyHeader _) => apply quiet_rw_CopyHeader
  | |- quiet _ (ret _) => apply quiet_ret
  | |- quiet _ go_return => apply quiet_go_return
  | |- quiet _ (panic _) => apply quiet_panic
  | |- quiet _ getCtx => apply quiet_getCtx
  | |- quiet _ aborted => apply quiet_aborted
  | |- quiet _ (modifyCtx _) => apply quiet_modifyCtx
  | |- quiet _ (func _) => apply quiet_func
  | |- quiet _ (when _ _) => apply quiet_when
  | |- quiet _ (defer _ _) => apply quiet_defer
  | |- quiet _ (bind _ _) => apply quiet_bind; [|intros ?]
  | |- quiet _ (match ?x with _ => _ end) => destruct x
  | |- quiet _ _ => progress cbv zeta
  | |- _ => solve [intros; first [exact I | simpl; trivial; discriminate]]
  end.

Ltac quiet_go := repeat quiet_step.

(** X12: the plain HTTP forwarder touches no socket: it does not hijack, dial,
    pump or close a connection, and all it writes goes to the response
    writer. *)
Theorem forwardHTTP_off_socket :
  forall (e : Env) (w : World),
    exists evs,
      trace (snd (forwardHTTP e w)) = (trace w ++ evs)%list /\
      Forall off_socket evs.
Proof.
  intros e w.
  assert (H : quiet off_socket (forwardHTTP e)).
  { unfold forwardHTTP. quiet_go. }
  destruct (H w) as (_ & evs & Ht & Hp). eauto.
Qed.

(** X19: the TLS WebSocket forwarder never writes to the TLS connection: the
    established line, the handshake response and the relayed bytes all go to
    the hijacked connection under it. *)
Theorem serveWebsocketTLS_never_writes_TLS :
  forall (e : Env) (w : World),
    exists evs,
      trace (snd (serveWebsocketTLS e w)) = (trace w ++ evs)%list /\
      Forall not_TLS_write evs.
Proof.
  intros e w.
  assert (H : quiet not_TLS_write (serveWebsocketTLS e)).
  { unfold serveWebsocketTLS. quiet_go. }
  destruct (H w) as (_ & evs & Ht & Hp). eauto.
Qed.

Lemma quiet_dispatch (e : Env) :
  quiet any_event (forwardHTTP e) /\ quiet any_event (forwardHTTPS e) /\
  quiet any_event (forwardTunnel e) /\ quiet any_event (forwardHTTPWebsocket e) /\
  quiet any_event (forwardHTTPSWebsocket e).
Proof.
  split; [|split; [|split; [|split]]].
  - unfold forwardHTTP. quiet_go.
  - unfold forwardHTTPS. quiet_go.
  - unfold forwardTunnel. quiet_go.
  - unfold forwardHTTPWebsocket, serveWebsocket. quiet_go.
  - unfold forwardHTTPSWebsocket, serveWebsocketTLS. quiet_go.
Qed.

(** X20: ServeHTTP leaves the counter of open requests as it found it, also
    when the handler panics: the increment on entry is undone on exit. *)
Theorem ServeHTTP_restores_clientConnNum :
  forall (e : Env) (req : Request) (w : World),
    in_int32 (clientConnNum w) ->
    clientConnNum (snd (ServeHTTP e req w)) = clientConnNum w.
Proof.
  intros e req w Hr.
  destruct (quiet_dispatch e) as (H1 & H2 & H3 & H4 & H5).
  unfold ServeHTTP.
  match goal with
  | |- clientConnNum (snd (func (_ ;; defer ?d ?body) w)) = _ =>
      assert (Hb : quiet any_event body) by (repeat first [assumption | quiet_step]);
      generalize dependent body
  end.
  intros body Hb.
  unfold func, bind, defer, atomic_AddInt32. cbn [fst snd].
  set (w1 := mkWorld _ _ _ _ _).
  destruct (Hb w1) as (Hn & _).
  destruct (body w1) as [o w2]. cbn [snd clientConnNum] in *.
  assert (Hfin : wrap 32 (clientConnNum w2 + -1) = clientConnNum w).
  { rewrite Hn. unfold w1. cbn [clientConnNum].
    rewrite wrap_wrap by lia. replace (clientConnNum w + 1 + -1) with (clientConnNum w) by lia.
    apply wrap_in_range; [lia | exact Hr]. }
  destruct o; cbn [snd clientConnNum]; exact Hfin.
Qed.

Lemma ServeHTTP_restores_clientConnNum_witness :
  in_int32 (clientConnNum (world0 upgradeRequest)) /\
  clientConnNum (snd (ServeHTTP env0 upgradeRequest (world0 upgradeRequest)))
  = clientConnNum (world0 upgradeRequest).
Proof.
  assert (H : in_int32 (clientConnNum (world0 upgradeRequest))).
  { unfold in_int32. simpl. lia. }
  split; [exact H|].
  apply (ServeHTTP_restores_clientConnNum env0 upgradeRequest (world0 upgradeRequest) H).
Defined.

(** * The forwarders on the paths where nothing fails *)

Lemma effects_app (t1 t2 : list Event) :
  effects (t1 ++ t2) = (effects t1 ++ effects t2)%list.
Proof.
  induction t1 as [|ev t1 IH]; simpl; [reflexivity|].
  destruct ev; simpl; rewrite IH; reflexivity.
Qed.

Lemma effects_plain (t : list Event) :
  Forall output_event t -> effects t = t.
Proof.
  induction 1 as [|ev t Hev _ IH]; simpl; [reflexivity|].
  destruct ev; simpl in Hev; try contradiction; rewrite IH; reflexivity.
Qed.



(** * The plain HTTP forwarder, end to end *)


(** The same for a delegate that may change the response. *)
Ltac follow_abort Hgo :=
  let Ha := fresh "Ha" in
  match goal with
  | |- context [BeforeRequest ?d ?C] =>
      assert (Ha : abort (BeforeRequest d C) = false)
        by (apply (proj1 Hgo); cbn [abort]; first [assumption | reflexivity]);
      let c := fresh "c" in
      let E := fresh "E" in
      remember (BeforeRequest d C) as c eqn:E; clear E; rewrite ?Ha
  | |- context [ParentProxy ?d ?C ?a] =>
      assert (Ha : abort (fst (ParentProxy d C a)) = false)
        by (apply (proj1 (proj2 Hgo)); cbn [abort]; first [assumption | reflexivity]);
      destruct (ParentProxy d C a) as [?c [?pp ?perr]]; cbn [fst snd] in Ha;
      rewrite ?Ha
  | |- context [BeforeResponse ?d ?C ?x] =>
      assert (Ha : abort (fst (BeforeResponse d C x)) = false)
        by (apply (proj2 (proj2 Hgo)); cbn [abort]; first [assumption | reflexivity]);
      destruct (BeforeResponse d C x) as [?c ?f]; cbn [fst snd] in Ha;
      rewrite ?Ha
  | |- context [DuringResponse ?d ?C ?x] =>
      destruct (DuringResponse d C x) as [?c ?f]
  end.

Ltac known_abort :=
  match goal with
  | H : abort ?c = false |- context [abort ?c] => rewrite H
  | H : forall r, ?f r = r |- context [?f _] => rewrite H
  end.

(** Splits on what the path does not depend on. *)
Ltac split_flag :=
  match goal with
  | |- context [match Data ?c with _ => _ end] => destruct (Data c) eqn:?
  | |- context [if Hijack ?c then _ else _] => destruct (Hijack c) eqn:?
  | |- context [if Closed ?c then _ else _] => destruct (Closed c) eqn:?
  | |- context [match DumpRequestOut ?e ?r with _ => _ end] =>
      destruct (DumpRequestOut e r) eqn:?
  end.


Lemma idDelegate_lets_through : lets_through idDelegate.
Proof. repeat split; intros; assumption. Qed.



(** X11: the plain HTTP forwarder, when the transport fails: the response
    writer gets status 502 and, as the whole body, the JSON of a proxy error
    with code 502 whose message names the URL of the request and the error;
    the context ends with HTTPDoRequestFail and that error, and its Closed
    flag is as the last callback left it. *)
Theorem forwardHTTP_bad_gateway :
  forall (e : Env) (w : World) (er : error) (js : ProxyError -> string),
    lets_through (delegate e) ->
    abort (ctx w) = false ->
    (forall r p x, RoundTrip e r p x = inl er) ->
    (forall pe, json_Marshal e pe = inr (js pe)) ->
    rw_hijacked (rw w) = false ->
    rw_status (rw w) = None ->
    rw_faults (rw w) = [] ->
    exists evs c,
      trace (snd (forwardHTTP e w)) = (trace w ++ evs)%list /\
      last (map after (calls evs)) = Some c /\
      rw_status (rw (snd (forwardHTTP e w))) = Some 502 /\
      stream e toRW evs =
        js (mkProxyError "PROXY_CENTER_INTERNAL_ERR" 502
              ("forwardHTTP " ++ URL_String e (req_URL (Req c))
               ++ " forward request failed: " ++ Error er)) /\
      errType (ctx (snd (forwardHTTP e w))) = Some HTTPDoRequestFail /\
      err (ctx (snd (forwardHTTP e w))) = Some er /\
      Closed (ctx (snd (forwardHTTP e w))) = Closed c.
Proof.
  intros e w er js Hgo Hab Hrt Hjs Hh Hst Hf.
  enough (H : forall x, x = forwardHTTP e w ->
    exists evs c,
      trace (snd x) = (trace w ++ evs)%list /\
      last (map after (calls evs)) = Some c /\
      rw_status (rw (snd x)) = Some 502 /\
      stream e toRW evs =
        js (mkProxyError "PROXY_CENTER_INTERNAL_ERR" 502
              ("forwardHTTP " ++ URL_String e (req_URL (Req c))
               ++ " forward request failed: " ++ Error er)) /\
      errType (ctx (snd x)) = Some HTTPDoRequestFail /\
      err (ctx (snd x)) = Some er /\
      Closed (ctx (snd x)) = Closed c) by eauto.
  unfold forwardHTTP, DoRequest, WriteProxyErrorToResponseBody. red_run.
  repeat (first [ known_abort | follow_abort Hgo
                | rewrite Hrt | rewrite Hjs | rewrite Hh | rewrite Hst
                | rewrite Hf | split_flag ]; red_run; cbn [hd tl]).
  all: red_run; intros x ->;
       cbn [fst snd ctx trace rw rw_status Closed errType err];
       rewrite <- ?app_assoc; eexists _, _; (split; [reflexivity|]);
       (split; [reflexivity|]); (split; [reflexivity|]);
       (split; [cbn [app stream Writer_eqb wire]; apply string_app_nil_r|]);
       auto.
Qed.

Lemma forwardHTTP_bad_gateway_witness :
  (lets_through (delegate env_down) /\
   abort (ctx (world0 (request0 "GET" ∅))) = false /\
   rw_hijacked (rw (world0 (request0 "GET" ∅))) = false /\
   rw_status (rw (world0 (request0 "GET" ∅))) = None /\
   rw_faults (rw (world0 (request0 "GET" ∅))) = []) /\
  exists evs,
    trace (snd (forwardHTTP env_down (world0 (request0 "GET" ∅))))
    = (trace (world0 (request0 "GET" ∅)) ++ evs)%list /\
    stream env_down toRW evs = "{}" /\
    errType (ctx (snd (forwardHTTP env_down (world0 (request0 "GET" ∅)))))
    = Some HTTPDoRequestFail.
Proof.
  split.
  - split; [apply idDelegate_lets_through|]. repeat split.
  - destruct (forwardHTTP_bad_gateway env_down (world0 (request0 "GET" ∅)) refused
                (fun _ => "{}") idDelegate_lets_through eq_refl
                (fun _ _ _ => eq_refl) (fun _ => eq_refl) eq_refl eq_refl eq_refl)
      as (evs & c & Ht & _ & _ & Hs & Herr & _).
    exists evs. auto.
Defined.

(** * The MITM HTTPS forwarder, end to end *)



(** X14: the MITM HTTPS forwarder, when the transport fails: the client
    receives inside the TLS connection the bytes "HTTP/1.1 502 " and, right
    after them, the JSON of the proxy error; the failure is
    HTTPSDoRequestFail. *)
Theorem forwardHTTPS_bad_gateway :
  forall (e : Env) (w : World) (inner : Request) (er : error)
         (js : ProxyError -> string),
    lets_through (delegate e) ->
    abort (ctx w) = false ->
    (forall h, GenerateTLSConfig e h = None) ->
    rw_is_Hijacker e = true ->
    Hijack_err e = None ->
    rw_hijacked (rw w) = false ->
    closed (conn w clientConn) = false ->
    closed (conn w tlsClientConn) = false ->
    wfaults (conn w clientConn) = [] ->
    wfaults (conn w tlsClientConn) = [] ->
    Handshake_err e = None ->
    ReadRequest e = inr inner ->
    (forall r p x, RoundTrip e r p x = inl er) ->
    (forall pe, json_Marshal e pe = inr (js pe)) ->
    exists evs c,
      trace (snd (forwardHTTPS e w)) = (trace w ++ evs)%list /\
      last (map after (calls evs)) = Some c /\
      stream e (toConn clientConn) evs = tunnelEstablishedResponseLine /\
      stream e (toConn tlsClientConn) evs =
        "HTTP/1.1 502 " ++
        js (mkProxyError "PROXY_CENTER_INTERNAL_ERR" 502
              ("forwardHTTPS " ++ url_Host (req_URL (Req c))
               ++ " forward request failed: " ++ Error er)) /\
      errType (ctx (snd (forwardHTTPS e w))) = Some HTTPSDoRequestFail /\
      err (ctx (snd (forwardHTTPS e w))) = Some er.
Proof.
  intros e w inner er js Hgo Hab Hcert Hhj Hherr Hh Hcc Hct Hwc Hwt Hhs Hrd Hrt Hjs.
  enough (H : forall x, x = forwardHTTPS e w ->
    exists evs c,
      trace (snd x) = (trace w ++ evs)%list /\
      last (map after (calls evs)) = Some c /\
      stream e (toConn clientConn) evs = tunnelEstablishedResponseLine /\
      stream e (toConn tlsClientConn) evs =
        "HTTP/1.1 502 " ++
        js (mkProxyError "PROXY_CENTER_INTERNAL_ERR" 502
              ("forwardHTTPS " ++ url_Host (req_URL (Req c))
               ++ " forward request failed: " ++ Error er)) /\
      errType (ctx (snd x)) = Some HTTPSDoRequestFail /\
      err (ctx (snd x)) = Some er) by eauto.
  unfold forwardHTTPS, DoRequest, WriteProxyErrorToResponseBody. red_run.
  repeat (first [ known_abort | follow_abort Hgo
                | rewrite Hcert | rewrite Hhj | rewrite Hherr | rewrite Hh
                | rewrite Hcc | rewrite Hct | rewrite Hwc | rewrite Hwt
                | rewrite Hhs | rewrite Hrd | rewrite Hrt | rewrite Hjs
                | split_flag | progress cbn [hd tl] ];
          cbn [hd tl]; red_run).
  all: intros x ->; cbn [fst snd ctx trace errType err];
       rewrite <- ?app_assoc; cbn [app];
       eexists _, _; (split; [reflexivity|]); (split; [reflexivity|]);
       (split; [cbn [stream Writer_eqb ConnId_eqb wire]; apply string_app_nil_r|]);
       (split; [cbn [stream Writer_eqb ConnId_eqb wire];
                rewrite ?string_app_nil_r; reflexivity|]);
       auto.
Qed.

Lemma forwardHTTPS_bad_gateway_witness :
  (lets_through (delegate env_inner_down) /\
   abort (ctx (world0 connectRequest)) = false /\
   rw_is_Hijacker env_inner_down = true /\ Hijack_err env_inner_down = None /\
   rw_hijacked (rw (world0 connectRequest)) = false /\
   closed (conn (world0 connectRequest) clientConn) = false /\
   closed (conn (world0 connectRequest) tlsClientConn) = false /\
   wfaults (conn (world0 connectRequest) clientConn) = [] /\
   wfaults (conn (world0 connectRequest) tlsClientConn) = [] /\
   Handshake_err env_inner_down = None /\
   ReadRequest env_inner_down = inr innerRequest) /\
  exists evs,
    trace (snd (forwardHTTPS env_inner_down (world0 connectRequest)))
    = (trace (world0 connectRequest) ++ evs)%list /\
    stream env_inner_down (toConn tlsClientConn) evs = "HTTP/1.1 502 {}" /\
    errType (ctx (snd (forwardHTTPS env_inner_down (world0 connectRequest))))
    = Some HTTPSDoRequestFail.
Proof.
  split.
  - split; [apply idDelegate_lets_through|]. repeat split.
  - destruct (forwardHTTPS_bad_gateway env_inner_down (world0 connectRequest)
                innerRequest refused (fun _ => "{}")
                idDelegate_lets_through
                eq_refl (fun _ => eq_refl) eq_refl eq_refl eq_refl eq_refl eq_refl
                eq_refl eq_refl eq_refl eq_refl (fun _ _ _ => eq_refl)
                (fun _ => eq_refl))
      as (evs & c & Ht & _ & _ & Hs & Herr & _).
    exists evs. split; [exact Ht|]. split; [exact Hs | exact Herr].
Defined.

(** * The opaque tunnel, end to end *)

(** The pump leaves the request of the context alone. *)
Lemma copy_step_Req (e : Env) (dst src : ConnId) (len : Z -> Context -> Context)
      (g : Copier) (w : World) :
  (forall n c, Req (len n c) = Req c) ->
  Req (ctx (snd (copy_step e dst src len g w))) = Req (ctx w).
Proof.
  intros Hlen.
  destruct (copy_step_effect e dst src len g w) as (new & _ & Hs).
  destruct g as [n|n er|n| |]; simpl in Hs.
  - destruct Hs as (Hc & _). exact (f_equal Req Hc).
  - destruct Hs as (_ & _ & Hc). etransitivity; [exact (f_equal Req Hc)|].
    destruct er; reflexivity.
  - destruct Hs as (_ & _ & Hc). etransitivity; [exact (f_equal Req Hc)|].
    apply Hlen.
  - destruct Hs as (_ & _ & Hc). exact (f_equal Req Hc).
  - destruct Hs as (_ & _ & Hc). exact (f_equal Req Hc).
Qed.

Lemma pump_Req (e : Env) (src dst : ConnId) (fuel : nat) :
  forall (sched : list bool) (a b : Copier) (w : World),
    Req (ctx (snd (pump e fuel sched src dst a b w))) = Req (ctx w).
Proof.
  induction fuel as [|fuel IH]; intros sched a b w; simpl; [reflexivity|].
  destruct (is_Exited a && is_Exited b); [reflexivity|].
  destruct (if is_Exited a then false else if is_Exited b then true else hd false sched).
  - pose proof (copy_step_Req e src dst set_RespLength a w (fun _ _ => eq_refl)) as H.
    destruct (copy_step e src dst set_RespLength a w) as [a' w1]. simpl in H.
    rewrite IH. exact H.
  - pose proof (copy_step_Req e dst src set_ReqLength b w (fun _ _ => eq_refl)) as H.
    destruct (copy_step e dst src set_ReqLength b w) as [b' w1]. simpl in H.
    rewrite IH. exact H.
Qed.

Lemma transfer_Req (e : Env) (src dst : ConnId) (w : World) :
  Req (ctx (snd (transfer e src dst w))) = Req (ctx w).
Proof.
  unfold transfer.
  match goal with
  | |- context [pump e ?fuel ?s src dst ?a ?b ?w0] =>
      pose proof (pump_Req e src dst fuel s a b w0) as H;
      destruct (pump e fuel s src dst a b w0) as [[a' b'] w1]
  end.
  cbn [fst snd] in *. rewrite !close_conn_ctx. exact H.
Qed.

(** The pump between an open client and an open target whose writes
    succeed, taken by what it relays. *)
Ltac use_transfer_bytes side :=
  match goal with
  | |- context [transfer ?e clientConn targetConn ?W] =>
      let tevs := fresh "tevs" in
      let Htt := fresh "Htt" in
      let Hpl := fresh "Hpl" in
      let Hup := fresh "Hup" in
      let Hdown := fresh "Hdown" in
      let Hq := fresh "Hq" in
      let Hr := fresh "Hr" in
      let Hn := fresh "Hn" in
      let Hreq := fresh "Hreq" in
      let o := fresh "o" in
      let wT := fresh "wT" in
      destruct (transfer_relays e clientConn targetConn W)
        as (tevs & Htt & Hpl & Hup & Hdown & Hq & Hr);
      [ discriminate | side | side | side | side | ];
      pose proof (proj1 (transfer_spec e clientConn targetConn W
                           ltac:(discriminate))) as Hn;
      pose proof (transfer_Req e clientConn targetConn W) as Hreq;
      destruct (transfer e clientConn targetConn W) as [o wT];
      cbn [fst snd] in Htt, Hup, Hdown, Hq, Hr, Hn, Hreq; subst o;
      cbn [trace conn incoming ctx Req] in Htt, Hup, Hdown, Hq, Hr, Hreq
  end.

(** X15: the opaque tunnel, when nothing fails. Without a parent proxy the
    client gets the established line and then the bytes of the target, and
    the target gets the bytes of the client and nothing else; with a parent
    proxy the target, which is the parent, first gets the CONNECT request
    line for the host of the request, and the client gets the bytes of the
    target alone. ReqLength and RespLength are the numbers of bytes that
    came from the client and from the target. *)
Theorem forwardTunnel_relays :
  forall (e : Env) (w : World),
    lets_through (delegate e) ->
    abort (ctx w) = false ->
    rw_is_Hijacker e = true ->
    Hijack_err e = None ->
    rw_hijacked (rw w) = false ->
    (forall addr, DialTimeout e addr = None) ->
    closed (conn w clientConn) = false ->
    closed (conn w targetConn) = false ->
    wfaults (conn w clientConn) = [] ->
    wfaults (conn w targetConn) = [] ->
    exists evs c,
      trace (snd (forwardTunnel e w)) = (trace w ++ evs)%list /\
      last (map after (calls evs)) = Some c /\
      match fst (snd (ParentProxy (delegate e) (ctx w) viaRW)) with
      | None =>
          stream e (toConn clientConn) evs =
            tunnelEstablishedResponseLine ++ joined (incoming (conn w targetConn)) /\
          stream e (toConn targetConn) evs = joined (incoming (conn w clientConn))
      | Some u =>
          stream e (toConn clientConn) evs = joined (incoming (conn w targetConn)) /\
          stream e (toConn targetConn) evs =
            wire_Request e (connectReq (url_Host (req_URL (Req c))) u)
            ++ joined (incoming (conn w clientConn))
      end /\
      ReqLength (ctx (snd (forwardTunnel e w)))
      = Z.of_nat (String.length (joined (incoming (conn w clientConn)))) /\
      RespLength (ctx (snd (forwardTunnel e w)))
      = Z.of_nat (String.length (joined (incoming (conn w targetConn)))).
Proof.
  intros e w Hgo Hab Hhj Hherr Hh Hdial Hcc Hct Hwc Hwt.
  enough (H : forall x, x = forwardTunnel e w ->
    exists evs c,
      trace (snd x) = (trace w ++ evs)%list /\
      last (map after (calls evs)) = Some c /\
      match fst (snd (ParentProxy (delegate e) (ctx w) viaRW)) with
      | None =>
          stream e (toConn clientConn) evs =
            tunnelEstablishedResponseLine ++ joined (incoming (conn w targetConn)) /\
          stream e (toConn targetConn) evs = joined (incoming (conn w clientConn))
      | Some u =>
          stream e (toConn clientConn) evs = joined (incoming (conn w targetConn)) /\
          stream e (toConn targetConn) evs =
            wire_Request e (connectReq (url_Host (req_URL (Req c))) u)
            ++ joined (incoming (conn w clientConn))
      end /\
      ReqLength (ctx (snd x))
      = Z.of_nat (String.length (joined (incoming (conn w clientConn)))) /\
      RespLength (ctx (snd x))
      = Z.of_nat (String.length (joined (incoming (conn w targetConn))))) by eauto.
  unfold forwardTunnel. red_run.
  repeat (first [ known_abort | follow_abort Hgo
                | rewrite Hhj | rewrite Hherr | rewrite Hh | rewrite Hdial
                | rewrite Hcc | rewrite Hct | rewrite Hwc | rewrite Hwt
                | progress cbn [hd tl]
                | match goal with
                  | |- context [match ?pp with Some _ => _ | None => _ end] =>
                      is_var pp; destruct pp
                  end
                | use_transfer_bytes
                    ltac:(unfold is_closed; cbn; rewrite ?Hcc, ?Hct, ?Hwc, ?Hwt;
                          reflexivity)
                | split_flag ];
          cbn [hd tl]; red_run).
  all: intros x ->; cbn [fst snd ctx trace ReqLength RespLength];
       rewrite Htt, <- ?app_assoc; cbn [app];
       eexists _, _; (split; [reflexivity|]);
       repeat (progress (cbn [calls stream Writer_eqb ConnId_eqb wire map after];
                         rewrite ?calls_app, ?stream_app));
       rewrite (plain_calls tevs Hpl), ?Hup, ?Hdown, ?string_app_nil_r;
       cbn [app map after last];
       (split; [reflexivity|]); (split; [split; reflexivity|]); auto.
Qed.


Lemma forwardTunnel_relays_witness :
  (lets_through (delegate env0) /\
   abort (ctx world_tunnel) = false /\
   rw_is_Hijacker env0 = true /\ Hijack_err env0 = None /\
   rw_hijacked (rw world_tunnel) = false /\
   closed (conn world_tunnel clientConn) = false /\
   closed (conn world_tunnel targetConn) = false /\
   wfaults (conn world_tunnel clientConn) = [] /\
   wfaults (conn world_tunnel targetConn) = []) /\
  exists evs,
    trace (snd (forwardTunnel env0 world_tunnel)) = (trace world_tunnel ++ evs)%list /\
    stream env0 (toConn clientConn) evs = tunnelEstablishedResponseLine ++ "hello" /\
    stream env0 (toConn targetConn) evs = "abc" /\
    ReqLength (ctx (snd (forwardTunnel env0 world_tunnel))) = 3 /\
    RespLength (ctx (snd (forwardTunnel env0 world_tunnel))) = 5.
Proof.
  split.
  - split; [apply idDelegate_lets_through|]. repeat split.
  - destruct (forwardTunnel_relays env0 world_tunnel idDelegate_lets_through
                eq_refl eq_refl eq_refl eq_refl (fun _ => eq_refl)
                eq_refl eq_refl eq_refl eq_refl)
      as (evs & c & Ht & _ & [Hd Hu] & Hq & Hr).
    exists evs. auto.
Defined.

(** X16: the opaque tunnel, when the dial fails: the client gets
    "HTTP/1.1 502 " and the JSON of the proxy error on the hijacked
    connection, nothing goes to the target, the pump does not start and the
    failure is TunnelDialRemoteServerFail. *)
Theorem forwardTunnel_dial_failure :
  forall (e : Env) (w : World) (er : error) (js : ProxyError -> string),
    lets_through (delegate e) ->
    abort (ctx w) = false ->
    rw_is_Hijacker e = true ->
    Hijack_err e = None ->
    rw_hijacked (rw w) = false ->
    (forall addr, DialTimeout e addr = Some er) ->
    (forall pe, json_Marshal e pe = inr (js pe)) ->
    closed (conn w clientConn) = false ->
    wfaults (conn w clientConn) = [] ->
    exists evs c,
      trace (snd (forwardTunnel e w)) = (trace w ++ evs)%list /\
      last (map after (calls evs)) = Some c /\
      stream e (toConn clientConn) evs =
        "HTTP/1.1 502 " ++
        js (mkProxyError "PROXY_CENTER_INTERNAL_ERR" 502
              ("forwardTunnel " ++ url_Host (req_URL (Req c))
               ++ " dial remote server failed: " ++ Error er)) /\
      stream e (toConn targetConn) evs = "" /\
      before_pump evs = None /\
      errType (ctx (snd (forwardTunnel e w))) = Some TunnelDialRemoteServerFail /\
      err (ctx (snd (forwardTunnel e w))) = Some er.
Proof.
  intros e w er js Hgo Hab Hhj Hherr Hh Hdial Hjs Hcc Hwc.
  enough (H : forall x, x = forwardTunnel e w ->
    exists evs c,
      trace (snd x) = (trace w ++ evs)%list /\
      last (map after (calls evs)) = Some c /\
      stream e (toConn clientConn) evs =
        "HTTP/1.1 502 " ++
        js (mkProxyError "PROXY_CENTER_INTERNAL_ERR" 502
              ("forwardTunnel " ++ url_Host (req_URL (Req c))
               ++ " dial remote server failed: " ++ Error er)) /\
      stream e (toConn targetConn) evs = "" /\
      before_pump evs = None /\
      errType (ctx (snd x)) = Some TunnelDialRemoteServerFail /\
      err (ctx (snd x)) = Some er) by eauto.
  unfold forwardTunnel, WriteProxyErrorToResponseBody. red_run.
  repeat (first [ known_abort | follow_abort Hgo
                | rewrite Hhj | rewrite Hherr | rewrite Hh | rewrite Hdial
                | rewrite Hjs | rewrite Hcc | rewrite Hwc
                | progress cbn [hd tl]
                | match goal with
                  | |- context [match ?pp with Some _ => _ | None => _ end] =>
                      is_var pp; destruct pp
                  end
                | split_flag ];
          cbn [hd tl]; red_run).
  all: intros x ->; cbn [fst snd ctx trace errType err];
       rewrite <- ?app_assoc; cbn [app];
       eexists _, _; (split; [reflexivity|]); (split; [reflexivity|]);
       (split; [cbn [stream Writer_eqb ConnId_eqb wire];
                rewrite ?string_app_nil_r; reflexivity|]);
       repeat split; reflexivity.
Qed.

Lemma forwardTunnel_dial_failure_witness :
  (lets_through (delegate env_unreachable) /\
   abort (ctx world_tunnel) = false /\
   rw_is_Hijacker env_unreachable = true /\ Hijack_err env_unreachable = None /\
   rw_hijacked (rw world_tunnel) = false /\
   closed (conn world_tunnel clientConn) = false /\
   wfaults (conn world_tunnel clientConn) = []) /\
  exists evs,
    trace (snd (forwardTunnel env_unreachable world_tunnel))
    = (trace world_tunnel ++ evs)%list /\
    stream env_unreachable (toConn clientConn) evs = "HTTP/1.1 502 {}" /\
    errType (ctx (snd (forwardTunnel env_unreachable world_tunnel)))
    = Some TunnelDialRemoteServerFail.
Proof.
  split.
  - split; [apply idDelegate_lets_through|]. repeat split.
  - destruct (forwardTunnel_dial_failure env_unreachable world_tunnel refused
                (fun _ => "{}") idDelegate_lets_through
                eq_refl eq_refl eq_refl eq_refl (fun _ => eq_refl) (fun _ => eq_refl)
                eq_refl eq_refl)
      as (evs & c & Ht & _ & Hs & _ & _ & Herr & _).
    exists evs. auto.
Defined.

(** X17: when BeforeResponse sets abort after a dial that succeeded, the tunnel
    returns with BeforeResponseFail: the client connection is closed, and
    the target connection, which was opened, is not. *)
Theorem forwardTunnel_veto_leaves_target_open :
  forall (e : Env) (w : World),
    (forall c a, abort c = false -> abort (fst (ParentProxy (delegate e) c a)) = false) ->
    (forall c x, abort (fst (BeforeResponse (delegate e) c x)) = true) ->
    abort (ctx w) = false ->
    rw_is_Hijacker e = true ->
    Hijack_err e = None ->
    rw_hijacked (rw w) = false ->
    (forall addr, DialTimeout e addr = None) ->
    exists evs addr,
      trace (snd (forwardTunnel e w)) = (trace w ++ evs)%list /\
      effects evs = [EvHandler HforwardTunnel; EvHijack; EvDial addr;
                     EvClose clientConn] /\
      closed (conn (snd (forwardTunnel e w)) targetConn) = closed (conn w targetConn) /\
      errType (ctx (snd (forwardTunnel e w))) = Some BeforeResponseFail.
Proof.
  intros e w Hpp Hveto Hab Hhj Hherr Hh Hdial.
  enough (H : forall x, x = forwardTunnel e w ->
    exists evs addr,
      trace (snd x) = (trace w ++ evs)%list /\
      effects evs = [EvHandler HforwardTunnel; EvHijack; EvDial addr;
                     EvClose clientConn] /\
      closed (conn (snd x) targetConn) = closed (conn w targetConn) /\
      errType (ctx (snd x)) = Some BeforeResponseFail) by eauto.
  unfold forwardTunnel. red_run.
  repeat (first [ known_abort
                | match goal with
                  | |- context [ParentProxy ?d ?C ?a] =>
                      let Ha := fresh "Ha" in
                      assert (Ha : abort (fst (ParentProxy d C a)) = false)
                        by (apply Hpp; cbn [abort]; first [assumption | reflexivity]);
                      destruct (ParentProxy d C a) as [?c [?pp ?perr]];
                      cbn [fst snd] in Ha; rewrite ?Ha
                  | |- context [BeforeResponse ?d ?C ?x] =>
                      let Ha := fresh "Ha" in
                      pose proof (Hveto C x) as Ha;
                      destruct (BeforeResponse d C x) as [?c ?f];
                      cbn [fst snd] in Ha; rewrite ?Ha
                  | H : abort ?c = true |- context [abort ?c] => rewrite H
                  end
                | rewrite Hhj | rewrite Hherr | rewrite Hh | rewrite Hdial
                | progress cbn [hd tl] ];
          cbn [hd tl]; red_run).
  intros x ->; cbn [fst snd ctx trace conn errType];
    rewrite <- ?app_assoc; cbn [app]; eexists _, _; (split; [reflexivity|]);
    repeat split; reflexivity.
Qed.

Lemma vetoDelegate_ParentProxy :
  forall c a, abort c = false -> abort (fst (ParentProxy (delegate env_veto) c a)) = false.
Proof. intros c a H. exact H. Qed.

Lemma forwardTunnel_veto_leaves_target_open_witness :
  ((forall c a, abort c = false ->
                abort (fst (ParentProxy (delegate env_veto) c a)) = false) /\
   (forall c x, abort (fst (BeforeResponse (delegate env_veto) c x)) = true) /\
   abort (ctx world_tunnel) = false /\
   rw_is_Hijacker env_veto = true /\ Hijack_err env_veto = None /\
   rw_hijacked (rw world_tunnel) = false) /\
  exists evs addr,
    trace (snd (forwardTunnel env_veto world_tunnel)) = (trace world_tunnel ++ evs)%list /\
    effects evs = [EvHandler HforwardTunnel; EvHijack; EvDial addr;
                   EvClose clientConn] /\
    closed (conn (snd (forwardTunnel env_veto world_tunnel)) targetConn)
    = closed (conn world_tunnel targetConn) /\
    errType (ctx (snd (forwardTunnel env_veto world_tunnel))) = Some BeforeResponseFail.
Proof.
  split.
  - split; [exact vetoDelegate_ParentProxy|]. repeat split.
  - apply (forwardTunnel_veto_leaves_target_open env_veto world_tunnel
             vetoDelegate_ParentProxy (fun _ _ => eq_refl)
             eq_refl eq_refl eq_refl eq_refl (fun _ => eq_refl)).
Defined.

(** * The TLS WebSocket forwarder, end to end *)

Lemma dials_app (t1 t2 : list Event) :
  dials (t1 ++ t2) = (dials t1 ++ dials t2)%list.
Proof.
  induction t1 as [|ev t1 IH]; simpl; [reflexivity|].
  destruct ev; simpl; rewrite IH; reflexivity.
Qed.

Lemma dials_not_dial (t : list Event) : Forall not_dial t -> dials t = [].
Proof.
  induction 1 as [|ev t Hev _ IH]; simpl; [reflexivity|].
  destruct ev; simpl in Hev; try contradiction; exact IH.
Qed.

(** The pump dials nothing. *)
Lemma transfer_dials (e : Env) (src dst : ConnId) (w : World) (evs : list Event) :
  trace (snd (transfer e src dst w)) = (trace w ++ evs)%list -> dials evs = [].
Proof.
  intros Ht.
  destruct (quiet_transfer e not_dial src dst I I I (fun _ => I) (fun _ => I)
              (fun _ _ _ _ => I) w) as (_ & evs' & Ht' & Hf).
  rewrite Ht in Ht'. apply app_inv_head in Ht'. subst evs'.
  apply dials_not_dial. exact Hf.
Qed.

(** X18: the TLS WebSocket forwarder, when nothing fails.  The address it
    dials is the host of the parent proxy or, with no parent, the URL host
    of the inner request as it was read, before Host is copied into it (for
    a request in origin form this is the empty address).  When that dial
    succeeds, the target gets the inner request, with scheme wss and the URL
    host set from Host and with all its headers, and then the client's
    bytes; the client gets, on the hijacked connection, the established
    line, the handshake response of the target and then the target's
    bytes. *)
Theorem serveWebsocketTLS_relays :
  forall (e : Env) (w : World) (inner : Request) (hresp : Response)
         (c1 : Context) (pp : option URL) (er1 : option error),
    ParentProxy (delegate e) (ctx w) viaRW = (c1, (pp, er1)) ->
    abort c1 = false ->
    (forall h, GenerateTLSConfig e h = None) ->
    rw_is_Hijacker e = true ->
    Hijack_err e = None ->
    rw_hijacked (rw w) = false ->
    closed (conn w clientConn) = false ->
    closed (conn w targetConn) = false ->
    wfaults (conn w clientConn) = [] ->
    wfaults (conn w targetConn) = [] ->
    Handshake_err e = None ->
    ReadRequest e = inr inner ->
    let dialAddr :=
      match pp with
      | Some u => url_Host u
      | None => url_Host (req_URL inner)
      end in
    tls_DialWithDialer e dialAddr = None ->
    let inner' := set_url_Host (req_Host inner) (set_url_Scheme "wss" inner) in
    ReadResponse e inner' = inr hresp ->
    exists evs,
      trace (snd (serveWebsocketTLS e w)) = (trace w ++ evs)%list /\
      dials evs = [dialAddr] /\
      stream e (toConn targetConn) evs =
        wire_Request e inner' ++ joined (incoming (conn w clientConn)) /\
      stream e (toConn clientConn) evs =
        tunnelEstablishedResponseLine ++ wire_Response e hresp
        ++ joined (incoming (conn w targetConn)) /\
      Req (ctx (snd (serveWebsocketTLS e w))) = inner' /\
      ReqLength (ctx (snd (serveWebsocketTLS e w)))
      = Z.of_nat (String.length (joined (incoming (conn w clientConn)))) /\
      RespLength (ctx (snd (serveWebsocketTLS e w)))
      = Z.of_nat (String.length (joined (incoming (conn w targetConn)))).
Proof.
  intros e w inner hresp c1 pp er1 Hpp Hab Hcert Hhj Hherr Hh Hcc Hct Hwc Hwt Hhs
         Hrd dialAddr Hdial inner' Hrr.
  enough (H : forall x, x = serveWebsocketTLS e w ->
    exists evs,
      trace (snd x) = (trace w ++ evs)%list /\
      dials evs = [dialAddr] /\
      stream e (toConn targetConn) evs =
        wire_Request e inner' ++ joined (incoming (conn w clientConn)) /\
      stream e (toConn clientConn) evs =
        tunnelEstablishedResponseLine ++ wire_Response e hresp
        ++ joined (incoming (conn w targetConn)) /\
      Req (ctx (snd x)) = inner' /\
      ReqLength (ctx (snd x))
      = Z.of_nat (String.length (joined (incoming (conn w clientConn)))) /\
      RespLength (ctx (snd x))
      = Z.of_nat (String.length (joined (incoming (conn w targetConn))))) by eauto.
  subst inner' dialAddr.
  unfold serveWebsocketTLS. red_run. rewrite Hpp. red_run.
  destruct pp as [u|];
  repeat (first [ known_abort
                | rewrite Hcert | rewrite Hhj | rewrite Hherr | rewrite Hh
                | rewrite Hcc | rewrite Hct | rewrite Hwc | rewrite Hwt
                | rewrite Hhs | rewrite Hrd | rewrite Hdial | rewrite Hrr
                | progress cbn [hd tl]
                | match goal with
                  | |- context [transfer ?e' clientConn targetConn ?W] =>
                      pose proof (transfer_dials e' clientConn targetConn W) as Hnd
                  end;
                  use_transfer_bytes
                    ltac:(unfold is_closed; cbn; rewrite ?Hcc, ?Hct, ?Hwc, ?Hwt;
                          reflexivity);
                  cbn [snd] in Hnd; specialize (Hnd _ Htt)
                | split_flag ];
          cbn [hd tl]; red_run).
  all: intros x ->; cbn [fst snd ctx trace Req ReqLength RespLength];
       rewrite Htt, <- ?app_assoc; cbn [app];
       eexists; (split; [reflexivity|]);
       (split; [cbn [dials]; rewrite ?dials_app, Hnd; reflexivity|]);
       repeat (progress (cbn [stream Writer_eqb ConnId_eqb wire];
                         rewrite ?stream_app));
       rewrite ?Hup, ?Hdown, ?string_app_nil_r;
       (split; [reflexivity|]); (split; [reflexivity|]); auto.
Qed.

(** A WebSocket upgrade sent in origin form inside the TLS connection, with
    a parent proxy: the parent is dialled, by a dialer that refuses the
    empty address as Go's does. *)
Lemma serveWebsocketTLS_relays_witness :
  (ParentProxy (delegate env_ws) (ctx world_tunnel) viaRW
   = (ctx world_tunnel, (Some parentURL, None)) /\
   abort (ctx world_tunnel) = false /\
   rw_is_Hijacker env_ws = true /\ Hijack_err env_ws = None /\
   rw_hijacked (rw world_tunnel) = false /\
   closed (conn world_tunnel clientConn) = false /\
   closed (conn world_tunnel targetConn) = false /\
   wfaults (conn world_tunnel clientConn) = [] /\
   wfaults (conn world_tunnel targetConn) = [] /\
   Handshake_err env_ws = None /\ ReadRequest env_ws = inr wsInnerRequest /\
   tls_DialWithDialer env_ws "" <> None /\
   tls_DialWithDialer env_ws "upstream:3128" = None) /\
  exists evs,
    trace (snd (serveWebsocketTLS env_ws world_tunnel)) = (trace world_tunnel ++ evs)%list /\
    dials evs = ["upstream:3128"] /\
    stream env_ws (toConn targetConn) evs = "GET /chat HTTP/1.1abc" /\
    stream env_ws (toConn clientConn) evs =
      tunnelEstablishedResponseLine ++ "HTTP/1.1 101 Switching Protocolshello".
Proof.
  split.
  - repeat split. discriminate.
  - destruct (serveWebsocketTLS_relays env_ws world_tunnel wsInnerRequest
                (mkResponse 101 ∅ (mkBody [] None))
                (ctx world_tunnel) (Some parentURL) None
                eq_refl eq_refl (fun _ => eq_refl) eq_refl eq_refl eq_refl
                eq_refl eq_refl eq_refl eq_refl eq_refl eq_refl
                eq_refl eq_refl)
      as (evs & Ht & Hd & Hu & Hdn & _).
    exists evs. auto.
Defined.

(** X23: the TLS WebSocket forwarder, when the dial of the target fails: the
    502 that the handler writes goes to the response writer, which was
    hijacked, so that no status is recorded and the client gets the
    established line and nothing after it, neither in the clear nor inside
    the TLS connection; the context ends with HTTPSWebsocketDailFail and the
    error of the dial, and the client connection is closed. *)
Theorem serveWebsocketTLS_dial_failure :
  forall (e : Env) (w : World) (inner : Request) (er : error),
    lets_through (delegate e) ->
    abort (ctx w) = false ->
    (forall h, GenerateTLSConfig e h = None) ->
    rw_is_Hijacker e = true ->
    Hijack_err e = None ->
    rw_hijacked (rw w) = false ->
    closed (conn w clientConn) = false ->
    wfaults (conn w clientConn) = [] ->
    Handshake_err e = None ->
    ReadRequest e = inr inner ->
    (forall addr, tls_DialWithDialer e addr = Some er) ->
    exists evs,
      trace (snd (serveWebsocketTLS e w)) = (trace w ++ evs)%list /\
      stream e (toConn clientConn) evs = tunnelEstablishedResponseLine /\
      stream e (toConn tlsClientConn) evs = "" /\
      stream e toRW evs = "" /\
      rw_status (rw (snd (serveWebsocketTLS e w))) = rw_status (rw w) /\
      In (EvClose clientConn) evs /\
      errType (ctx (snd (serveWebsocketTLS e w))) = Some HTTPSWebsocketDailFail /\
      err (ctx (snd (serveWebsocketTLS e w))) = Some er.
Proof.
  intros e w inner er Hgo Hab Hcert Hhj Hherr Hh Hcc Hwc Hhs Hrd Hdial.
  enough (H : forall x, x = serveWebsocketTLS e w ->
    exists evs,
      trace (snd x) = (trace w ++ evs)%list /\
      stream e (toConn clientConn) evs = tunnelEstablishedResponseLine /\
      stream e (toConn tlsClientConn) evs = "" /\
      stream e toRW evs = "" /\
      rw_status (rw (snd x)) = rw_status (rw w) /\
      In (EvClose clientConn) evs /\
      errType (ctx (snd x)) = Some HTTPSWebsocketDailFail /\
      err (ctx (snd x)) = Some er) by eauto.
  unfold serveWebsocketTLS. red_run.
  repeat (first [ known_abort | follow_abort Hgo
                | rewrite Hcert | rewrite Hhj | rewrite Hherr | rewrite Hh
                | rewrite Hcc | rewrite Hwc
                | rewrite Hhs | rewrite Hrd | rewrite Hdial
                | progress cbn [hd tl]
                | match goal with
                  | |- context [match ?pp with Some _ => _ | None => _ end] =>
                      is_var pp; destruct pp
                  end
                | split_flag ];
          cbn [hd tl]; red_run).
  all: intros x ->; cbn [fst snd ctx trace rw rw_status errType err];
       rewrite <- ?app_assoc; cbn [app];
       eexists; (split; [reflexivity|]);
       cbn [stream Writer_eqb ConnId_eqb wire];
       rewrite ?string_app_nil_r;
       repeat split; try reflexivity; simpl; auto 10.
Qed.

Lemma serveWebsocketTLS_dial_failure_witness :
  (lets_through (delegate env_ws_unreachable) /\
   abort (ctx world_tunnel) = false /\
   rw_is_Hijacker env_ws_unreachable = true /\ Hijack_err env_ws_unreachable = None /\
   rw_hijacked (rw world_tunnel) = false /\
   closed (conn world_tunnel clientConn) = false /\
   wfaults (conn world_tunnel clientConn) = [] /\
   Handshake_err env_ws_unreachable = None /\
   ReadRequest env_ws_unreachable = inr wsInnerRequest) /\
  exists evs,
    trace (snd (serveWebsocketTLS env_ws_unreachable world_tunnel))
    = (trace world_tunnel ++ evs)%list /\
    stream env_ws_unreachable (toConn clientConn) evs = tunnelEstablishedResponseLine /\
    rw_status (rw (snd (serveWebsocketTLS env_ws_unreachable world_tunnel))) = None.
Proof.
  split.
  - split; [apply idDelegate_lets_through|]. repeat split.
  - destruct (serveWebsocketTLS_dial_failure env_ws_unreachable world_tunnel
                wsInnerRequest refused idDelegate_lets_through
                eq_refl (fun _ => eq_refl) eq_refl eq_refl eq_refl
                eq_refl eq_refl eq_refl eq_refl (fun _ => eq_refl))
      as (evs & Ht & Hs & _ & _ & Hst & _).
    exists evs. auto.
Defined.

(** * Hijacked connections are closed *)

Lemma after_hijack_app (l1 l2 : list Event) :
  after_hijack (l1 ++ l2) =
    match after_hijack l1 with
    | Some rest => Some (rest ++ l2)%list
    | None => after_hijack l2
    end.
Proof.
  induction l1 as [|ev l1 IH]; simpl; [reflexivity|].
  destruct ev; try exact IH. reflexivity.
Qed.

Lemma after_hijack_none (l : list Event) :
  Forall not_hijack l -> after_hijack l = None.
Proof.
  induction 1 as [|ev l Hev _ IH]; simpl; [reflexivity|].
  destruct ev; simpl in Hev; try contradiction; exact IH.
Qed.

Lemma output_not_hijack (l : list Event) :
  Forall output_event l -> Forall not_hijack l.
Proof.
  intros H. eapply Forall_impl; [exact H|]. intros ev. destruct ev; simpl; tauto.
Qed.

Lemma off_socket_not_hijack (l : list Event) :
  Forall off_socket l -> Forall not_hijack l.
Proof.
  intros H. eapply Forall_impl; [exact H|]. intros ev. destruct ev; simpl; tauto.
Qed.

Lemma closes_hijacked_none (l : list Event) :
  Forall not_hijack l -> closes_hijacked l.
Proof. intros H rest Hr. rewrite (after_hijack_none l H) in Hr. discriminate Hr. Qed.

Lemma closes_hijacked_app_l (l1 l2 : list Event) :
  Forall not_hijack l1 -> closes_hijacked l2 -> closes_hijacked (l1 ++ l2).
Proof.
  intros H1 H2 rest Hr. rewrite after_hijack_app, (after_hijack_none l1 H1) in Hr.
  apply H2. exact Hr.
Qed.

Lemma closes_hijacked_app_r (l1 l2 : list Event) :
  Forall not_hijack l2 -> closes_hijacked l1 -> closes_hijacked (l1 ++ l2).
Proof.
  intros H2 H1 rest Hr. rewrite after_hijack_app in Hr.
  destruct (after_hijack l1) as [r|] eqn:E.
  - inversion Hr; subst. apply in_or_app. left. apply H1. exact E.
  - rewrite (after_hijack_none l2 H2) in Hr. discriminate Hr.
Qed.

(** Looks for the close in a list that is spelled out. *)
Ltac find_close :=
  repeat first [ apply in_eq | apply in_cons | apply in_or_app; right ].

(** Settles [closes_hijacked] for the events of a run. *)
Ltac hijack_closed :=
  intros ?rest ?Hrest; cbn [after_hijack app] in *;
  repeat match goal with
         | H : after_hijack (?t ++ _) = Some _, Hp : Forall output_event ?t |- _ =>
             rewrite after_hijack_app,
               (after_hijack_none t (output_not_hijack t Hp)) in H;
             cbn [after_hijack app] in H
         | H : after_hijack ?t = Some _, Hp : Forall output_event ?t |- _ =>
             rewrite (after_hijack_none t (output_not_hijack t Hp)) in H
         end;
  match goal with
  | H : None = Some _ |- _ => discriminate H
  | H : Some _ = Some _ |- _ => inversion H; subst; find_close
  end.

Ltac closes_lemma :=
  match goal with
  | |- exists evs, trace (snd ?R) = (trace ?w ++ evs)%list /\ closes_hijacked evs =>
      enough (forall r, r = R ->
                exists evs, trace (snd r) = (trace w ++ evs)%list /\
                            closes_hijacked evs) by eauto
  end.

Ltac close_run :=
  repeat match goal with H : trace _ = _ |- _ => rewrite H; clear H end;
  new_events; hijack_closed.

Lemma forwardTunnel_closes_hijacked (e : Env) (w : World) :
  exists evs,
    trace (snd (forwardTunnel e w)) = (trace w ++ evs)%list /\ closes_hijacked evs.
Proof.
  closes_lemma. unfold forwardTunnel. run_handler; close_run.
Qed.

Lemma forwardHTTPS_closes_hijacked (e : Env) (w : World) :
  exists evs,
    trace (snd (forwardHTTPS e w)) = (trace w ++ evs)%list /\ closes_hijacked evs.
Proof.
  closes_lemma. unfold forwardHTTPS, DoRequest. run_handler; close_run.
Qed.

Lemma forwardHTTPWebsocket_closes_hijacked (e : Env) (w : World) :
  exists evs,
    trace (snd (forwardHTTPWebsocket e w)) = (trace w ++ evs)%list /\
    closes_hijacked evs.
Proof.
  closes_lemma. unfold forwardHTTPWebsocket, serveWebsocket. run_handler; close_run.
Qed.

Lemma forwardHTTPSWebsocket_closes_hijacked (e : Env) (w : World) :
  exists evs,
    trace (snd (forwardHTTPSWebsocket e w)) = (trace w ++ evs)%list /\
    closes_hijacked evs.
Proof.
  closes_lemma. unfold forwardHTTPSWebsocket, serveWebsocketTLS.
  run_handler; close_run.
Qed.

Lemma forwardHTTP_closes_hijacked (e : Env) (w : World) :
  exists evs,
    trace (snd (forwardHTTP e w)) = (trace w ++ evs)%list /\ closes_hijacked evs.
Proof.
  assert (H : quiet off_socket (forwardHTTP e)).
  { unfold forwardHTTP. quiet_go. }
  destruct (H w) as (_ & evs & Ht & Hp). exists evs. split; [exact Ht|].
  apply closes_hijacked_none, off_socket_not_hijack. exact Hp.
Qed.


Ltac use_closes :=
  let evs := fresh "evs" in
  let Ht := fresh "Ht" in
  let Hok := fresh "Hok" in
  let o := fresh "o" in
  let w' := fresh "w'" in
  match goal with
  | |- context [forwardHTTP ?e ?W] =>
      destruct (forwardHTTP_closes_hijacked e W) as (evs & Ht & Hok);
      destruct (forwardHTTP e W) as [o w']
  | |- context [forwardHTTPS ?e ?W] =>
      destruct (forwardHTTPS_closes_hijacked e W) as (evs & Ht & Hok);
      destruct (forwardHTTPS e W) as [o w']
  | |- context [forwardTunnel ?e ?W] =>
      destruct (forwardTunnel_closes_hijacked e W) as (evs & Ht & Hok);
      destruct (forwardTunnel e W) as [o w']
  | |- context [forwardHTTPWebsocket ?e ?W] =>
      destruct (forwardHTTPWebsocket_closes_hijacked e W) as (evs & Ht & Hok);
      destruct (forwardHTTPWebsocket e W) as [o w']
  | |- context [forwardHTTPSWebsocket ?e ?W] =>
      destruct (forwardHTTPSWebsocket_closes_hijacked e W) as (evs & Ht & Hok);
      destruct (forwardHTTPSWebsocket e W) as [o w']
  end;
  cbn [fst snd ctx trace] in Ht, Hok.

(** X21: whatever way a request goes, a client connection that was hijacked has
    been closed when ServeHTTP returns, also when the handler panics. *)
Theorem ServeHTTP_closes_hijacked :
  forall (e : Env) (req : Request) (w : World),
    exists evs,
      trace (snd (ServeHTTP e req w)) = (trace w ++ evs)%list /\
      forall rest, after_hijack evs = Some rest -> In (EvClose clientConn) rest.
Proof.
  intros e req w.
  enough (H : forall r, r = ServeHTTP e req w ->
            exists evs,
              trace (snd r) = (trace w ++ evs)%list /\ closes_hijacked evs) by eauto.
  unfold ServeHTTP.
  red_run; repeat (first [ use_closes | name_call | head_match ]; red_run);
    intros ?r ->; cbn [fst snd ctx trace];
    repeat match goal with H : trace _ = _ |- _ => rewrite H; clear H end;
    new_events; intros rest Hr; cbn [after_hijack app] in Hr;
    try discriminate Hr;
    rewrite after_hijack_app in Hr;
    (destruct (after_hijack evs) as [r1|] eqn:E;
     [ inversion Hr; subst; apply in_or_app; left; apply Hok; exact E
     | discriminate Hr ]).
Qed.

(** * The transport and the callbacks around it *)

(** ** The request transport, whatever the continuation *)

Lemma forwarded_app (t1 t2 : list Event) :
  forwarded (t1 ++ t2) = (forwarded t1 ++ forwarded t2)%list.
Proof.
  induction t1 as [|ev t1 IH]; simpl; [reflexivity|].
  destruct ev; simpl; rewrite IH; reflexivity.
Qed.

(** X9: DoRequest sends at most one request to the transport. The one it
    sends is the request that BeforeRequest left on the context with its
    headers stripped: what is left of a hop-by-hop header or of the MITM
    header has an empty first value. It then either returns, or ends by
    calling the continuation, after a request was sent; a response that the
    continuation is handed has no hop-by-hop header. *)
Theorem DoRequest_strips_both_ways :
  forall (e : Env) (responseFunc : error + Response -> M unit)
         (conn : list ConnArg) (w : World),
    exists w1 evs,
      trace w1 = (trace w ++ evs)%list /\
      (forwarded evs = [] \/
       exists b a,
         In (EvDelegate SBeforeRequest b a) evs /\
         forwarded evs =
           [set_req_Header (stripRequestHeaders (req_Header (Req a))) (Req a)]) /\
      (forall r,
         In r (forwarded evs) ->
         (forall item, In item hopHeaders -> Header_Get (req_Header r) item = "") /\
         Header_Get (req_Header r) "MITM" = "") /\
      (DoRequest e responseFunc conn w = (Normal tt, w1) \/
       exists result,
         DoRequest e responseFunc conn w = func (responseFunc result) w1 /\
         forwarded evs <> [] /\
         match result with
         | inl _ => True
         | inr resp =>
             forall item, In item hopHeaders -> resp_Header resp !! item = None
         end).
Proof.
  intros e responseFunc conn w.
  unfold DoRequest.
  red_run;
    repeat (first [ name_call
                  | match goal with
                    | |- context [match ?x with _ => _ end] =>
                        lazymatch x with
                        | context [match _ with _ => _ end] => fail
                        | context [responseFunc] => fail
                        | _ => destruct x eqn:?
                        end
                    end ];
            red_run);
    match goal with
    | |- context [responseFunc ?r ?W] => exists W
    | |- context [(Normal tt, ?W) = (Normal tt, _)] => exists W
    end.
  all: eexists; cbn [trace]; rewrite <- ?app_assoc.
  all: split; [first [reflexivity | symmetry; apply app_nil_r]|].
  all: simpl forwarded.
  all: split; [first [left; reflexivity
                     | right; eexists _, _; split; [|reflexivity];
                       simpl; auto 10]|].
  all: split; [intros ?r Hr; simpl in Hr;
               repeat (destruct Hr as [<-|Hr]; [|try contradiction]);
               try contradiction;
               (split; [intros item Hitem; apply stripRequestHeaders_hop; exact Hitem
                       | apply stripRequestHeaders_MITM])|].
  all: try (left; reflexivity).
  all: right; eexists; (split; [reflexivity|]); (split; [discriminate|]).
  all: simpl; auto.
  all: intros item Hitem; apply stripResponseHeaders_hop; exact Hitem.
Qed.

(** ** The first and the last callback of a request *)

(** X22: every request starts on a context of its own: whatever context
    the last request left, the first event of ServeHTTP is the call of
    Connect on a fresh context (empty data, flags down, counters at zero,
    no error) whose request has the URL host filled in from Host when it
    was empty; its last event is the call of Finish, also when the handler
    panics. *)
Theorem ServeHTTP_fresh_context :
  forall (e : Env) (req : Request) (w : World),
    let req' := if String.eqb (url_Host (req_URL req)) ""
                then set_url_Host (req_Host req) req else req in
    exists evs c,
      trace (snd (ServeHTTP e req w)) =
        (trace w ++ EvDelegate SConnect (newContext req')
                      (Connect (delegate e) (newContext req'))
                 :: evs ++ [EvDelegate SFinish c (Finish (delegate e) c)])%list.
Proof.
  intros e req w req'.
  destruct (quiet_dispatch e) as (H1 & H2 & H3 & H4 & H5).
  unfold ServeHTTP. cbv zeta. fold req'.
  match goal with
  | |- context [bind (call SConnect _) (fun _ => ?body)] =>
      assert (Hb : quiet any_event body) by (repeat first [assumption | quiet_step]);
      generalize dependent body
  end.
  intros body Hb.
  unfold func, bind, defer, atomic_AddInt32, modifyCtx, call, set_ctx, record.
  cbn [fst snd ctx trace clientConnNum rw conn].
  set (w1 := mkWorld _ _ _ _ _).
  destruct (Hb w1) as (_ & evs & Ht & _).
  destruct (body w1) as [o w2]. cbn [snd trace] in *.
  exists evs, (ctx w2).
  destruct o; unfold func; cbn [snd trace]; rewrite Ht; unfold w1; cbn [trace];
    rewrite <- !app_assoc; reflexivity.
Qed.
